(** * Wave Function Collapse map generator (tools/map_generator/wfc_generator.py)

    A shallow embedding of [Tile], [WFCGenerator.__init__],
    [_compute_adjacency_rules], [generate], [_find_min_entropy_cell],
    [_collapse_cell] and [_propagate], followed by the properties of the
    solver that the specification states, and by further properties of the
    same code and of [TMXGenerator.generate_tmx]
    (tools/map_generator/tmx_generator.py), which turns the generated grid
    into a map file.

    Modelling conventions
    - Python [int] is [Z]; JSON numbers used as weights and the binary64
      values of the entropy scan are idealised as exact rationals [Q].
    - A Python [set] of tile ids is a [gset Z]; iterating a set is iterating
      [elements].  A [dict] keyed by data is a [gmap]; the per-tile dict with
      the four literal direction keys is a record.
    - Lists are indexed the Python way (negative indices count from the end,
      an index out of range raises [IndexError]).
    - Exceptions are values of [res]; the [random] module's hidden generator
      state and the sequence of writes to the grid are threaded by the monad
      [M]. *)

From Stdlib Require Import ZArith QArith Lqa List String Lia.
From stdpp Require Import base option list list_numbers gmap sets strings pretty.

Local Open Scope Z_scope.

(** ** Exceptions and results *)

Inductive exn := KeyError | IndexError | ValueError.

(** [Timeout] is not a Python outcome: it marks a loop of the model that ran
    out of fuel, and is shown below never to happen. *)
Inductive res (A : Type) :=
| Ok (a : A)
| Raise (e : exn)
| Timeout.
Arguments Ok {A} a.
Arguments Raise {A} e.
Arguments Timeout {A}.

#[export] Instance res_ret : MRet res := fun A a => Ok a.
#[export] Instance res_bind : MBind res := fun A B k m =>
  match m with
  | Ok a => k a
  | Raise e => Raise e
  | Timeout => Timeout
  end.

(** [d[k]] on a dict. *)
Definition getitem `{Countable K} {V} (d : gmap K V) (k : K) : res V :=
  match d !! k with
  | Some v => Ok v
  | None => Raise KeyError
  end.

(** [l[i]] and [l[i] = v] on a list. *)
Definition norm_index (n : nat) (i : Z) : Z :=
  if i <? 0 then i + Z.of_nat n else i.

Definition py_index {A} (l : list A) (i : Z) : res A :=
  let j := norm_index (length l) i in
  if j <? 0 then Raise IndexError
  else match l !! Z.to_nat j with
       | Some a => Ok a
       | None => Raise IndexError
       end.

Definition py_setitem {A} (l : list A) (i : Z) (v : A) : res (list A) :=
  let j := norm_index (length l) i in
  if (j <? 0) || (Z.of_nat (length l) <=? j) then Raise IndexError
  else Ok (<[Z.to_nat j := v]> l).

(** [range(n)]. *)
Definition range (n : Z) : list Z := seqZ 0 n.

(** A [for] loop over a list whose body may raise. *)
Fixpoint for_each {A S} (l : list A) (body : A → S → res S) (s : S) : res S :=
  match l with
  | [] => Ok s
  | a :: l' => s' ← body a s; for_each l' body s'
  end.

(** A list comprehension whose element expression may raise. *)
Fixpoint comprehension {A B} (f : A → res B) (l : list A) : res (list B) :=
  match l with
  | [] => Ok []
  | a :: l' => b ← f a; bs ← comprehension f l'; Ok (b :: bs)
  end.

(** ** Tiles *)

Inductive direction := north | south | east | west.

#[export] Instance direction_eq_dec : EqDecision direction.
Proof. solve_decision. Defined.

Definition directions : list direction := [north; south; east; west].

(** The key of a direction in an [edges] dict. *)
Definition dir_key (d : direction) : string :=
  match d with
  | north => "north"
  | south => "south"
  | east => "east"
  | west => "west"
  end.

(** The dict [opposite] of [Tile.can_connect]. *)
Definition opposite (d : direction) : direction :=
  match d with
  | north => south
  | south => north
  | east => west
  | west => east
  end.

(** One entry of the ["tiles"] array of the catalog document. *)
Record tile_data := {
  td_id : option Z;
  td_name : option string;
  td_edges : option (gmap string string);
  td_weight : option Q;
  td_row : option Z;
  td_col : option Z
}.

Record Tile := {
  tile_id : Z;
  tile_name : string;
  tile_edges : gmap string string;
  tile_weight : Q;
  tile_row : Z;
  tile_col : Z
}.

(** [tile_data[key]] *)
Definition required {A} (field : option A) : res A :=
  match field with
  | Some a => Ok a
  | None => Raise KeyError
  end.

(** [Tile.__init__] *)
Definition Tile_init (data : tile_data) : res Tile :=
  i ← required (td_id data);
  n ← required (td_name data);
  e ← required (td_edges data);
  Ok {| tile_id := i; tile_name := n; tile_edges := e;
        tile_weight := default 1%Q (td_weight data);
        tile_row := default 0 (td_row data);
        tile_col := default 0 (td_col data) |}.

(** [Tile.can_connect] *)
Definition can_connect (self other : Tile) (d : direction) : res bool :=
  my_edge ← getitem (tile_edges self) (dir_key d);
  their_edge ← getitem (tile_edges other) (dir_key (opposite d));
  Ok (bool_decide (my_edge = their_edge)).

(** ** The generator object *)

(** The dict [{'north': set(), 'south': set(), 'east': set(), 'west': set()}]
    that [rules] holds for each tile id. *)
Record neighbor_sets := {
  ns_north : gset Z;
  ns_south : gset Z;
  ns_east : gset Z;
  ns_west : gset Z
}.

Definition no_neighbors : neighbor_sets :=
  {| ns_north := ∅; ns_south := ∅; ns_east := ∅; ns_west := ∅ |}.

(** [entry[direction]] *)
Definition ns_get (d : direction) (e : neighbor_sets) : gset Z :=
  match d with
  | north => ns_north e
  | south => ns_south e
  | east => ns_east e
  | west => ns_west e
  end.

(** [entry[direction].add(i)] *)
Definition ns_add (d : direction) (i : Z) (e : neighbor_sets) : neighbor_sets :=
  match d with
  | north => {| ns_north := {[i]} ∪ ns_north e; ns_south := ns_south e;
                ns_east := ns_east e; ns_west := ns_west e |}
  | south => {| ns_north := ns_north e; ns_south := {[i]} ∪ ns_south e;
                ns_east := ns_east e; ns_west := ns_west e |}
  | east => {| ns_north := ns_north e; ns_south := ns_south e;
               ns_east := {[i]} ∪ ns_east e; ns_west := ns_west e |}
  | west => {| ns_north := ns_north e; ns_south := ns_south e;
               ns_east := ns_east e; ns_west := {[i]} ∪ ns_west e |}
  end.

(** Body of the two inner loops of [_compute_adjacency_rules]. *)
Definition connect_step (tile other : Tile) (d : direction)
    (rules : gmap Z neighbor_sets) : res (gmap Z neighbor_sets) :=
  c ← can_connect tile other d;
  if c : bool then Ok (alter (ns_add d (tile_id other)) (tile_id tile) rules)
  else Ok rules.

(** Body of the outer loop over [self.tiles]. *)
Definition rules_for_tile (tiles : list Tile) (tile : Tile)
    (rules : gmap Z neighbor_sets) : res (gmap Z neighbor_sets) :=
  for_each tiles
    (fun other rules => for_each directions (connect_step tile other) rules)
    (<[tile_id tile := no_neighbors]> rules).

(** [WFCGenerator._compute_adjacency_rules] *)
Definition _compute_adjacency_rules (tiles : list Tile) : res (gmap Z neighbor_sets) :=
  for_each tiles (rules_for_tile tiles) ∅.

(** The parsed catalog document; ["tileset"] is only stored. *)
Record catalog_data := {
  cd_tileset : option (list (string * Z));
  cd_tiles : option (list tile_data)
}.

Record WFCGenerator := {
  tileset_info : list (string * Z);
  tiles : list Tile;
  tile_by_id : gmap Z Tile;
  adjacency_rules : gmap Z neighbor_sets
}.

(** [{t.id: t for t in self.tiles}]: a later tile replaces an earlier one
    that has the same id. *)
Definition index_by_id (ts : list Tile) : gmap Z Tile :=
  foldl (fun m t => <[tile_id t := t]> m) ∅ ts.

(** [WFCGenerator.__init__], from the parsed document on. *)
Definition WFCGenerator_init (data : catalog_data) : res WFCGenerator :=
  info ← required (cd_tileset data);
  defs ← required (cd_tiles data);
  ts ← comprehension Tile_init defs;
  rules ← _compute_adjacency_rules ts;
  Ok {| tileset_info := info; tiles := ts;
        tile_by_id := index_by_id ts; adjacency_rules := rules |}.

(** ** Grids *)

(** [g[y][x]] and [g[y][x] = v] on a list of rows. *)
Definition get2 {A} (g : list (list A)) (y x : Z) : res A :=
  r ← py_index g y; py_index r x.

Definition set2 {A} (g : list (list A)) (y x : Z) (v : A) : res (list (list A)) :=
  r ← py_index g y; r' ← py_setitem r x v; py_setitem g y r'.

(** The assignments [generate] and [_propagate] make to the two grids, in
    program order. *)
Inductive event :=
| SetPossibilities (y x : Z) (v : gset Z)
| SetCollapsed (y x : Z).

#[export] Instance event_eq_dec : EqDecision event.
Proof. solve_decision. Defined.

(** The ways [generate] returns: the grid (line 159), [None] after
    "ERROR: Contradiction detected!" and "Failed at cell (x, y)" (line 149),
    or [None] after "WARNING: Max iterations (n) reached" (line 153). *)
Inductive exit :=
| ReturnGrid (grid : list (list Z))
| ReturnNone_Contradiction (x y : Z)
| ReturnNone_MaxIterations (max_iterations : Z).

(** The value the caller receives. *)
Definition returned (e : exit) : option (list (list Z)) :=
  match e with
  | ReturnGrid grid => Some grid
  | ReturnNone_Contradiction _ _ => None
  | ReturnNone_MaxIterations _ => None
  end.

(** Control flow of a loop body: go on with the loop state, or leave the
    function with a value. *)
Inductive flow (S R : Type) :=
| Next (s : S)
| Return (r : R).
Arguments Next {S R} s.
Arguments Return {S R} r.

(** Strict comparison of rationals, and comparison with a running minimum
    that starts at [float('inf')] ([None]). *)
Definition Qltb (a b : Q) : bool := negb (Qle_bool b a).

Definition below (a : Q) (m : option Q) : bool :=
  match m with
  | None => true
  | Some b => Qltb a b
  end.

(** [itertools.accumulate(weights)] *)
Fixpoint running_sums (acc : Q) (ws : list Q) : list Q :=
  match ws with
  | [] => []
  | w :: ws' => (acc + w)%Q :: running_sums (acc + w)%Q ws'
  end.

Definition accumulate (ws : list Q) : list Q :=
  match ws with
  | [] => []
  | w :: ws' => w :: running_sums w ws'
  end.

(** [bisect.bisect_right(a, x, lo, hi)]; [fuel] bounds the halvings. *)
Fixpoint bisect_loop (fuel : nat) (a : list Q) (x : Q) (lo hi : Z) : res Z :=
  if lo <? hi then
    match fuel with
    | O => Timeout
    | S fuel' =>
        let mid := (lo + hi) `div` 2 in
        am ← py_index a mid;
        if Qltb x am then bisect_loop fuel' a x lo mid
        else bisect_loop fuel' a x (mid + 1) hi
    end
  else Ok lo.

Definition bisect (a : list Q) (x : Q) (lo hi : Z) : res Z :=
  bisect_loop (Z.to_nat (hi - lo)) a x lo hi.

Section Generator.

(** The generator behind the [random] module: its state, the step that
    yields the next 53-bit integer, and [random.seed]. *)
Variable rng : Type.
Variable genrand_res53 : rng → N * rng.
Variable seed_rng : Z → rng.

(** Computations that read or advance the generator, write to the grids,
    and may raise. *)
Definition M (A : Type) : Type := rng → res A * rng * list event.

#[local] Instance M_ret : MRet M := fun A a g => (Ok a, g, []).
#[local] Instance M_bind : MBind M := fun A B k m g =>
  match m g with
  | (Ok a, g', l) => let '(r, g'', l') := k a g' in (r, g'', l ++ l')
  | (Raise e, g', l) => (Raise e, g', l)
  | (Timeout, g', l) => (Timeout, g', l)
  end.

Definition lift {A} (r : res A) : M A := fun g => (r, g, []).
Definition raise {A} (e : exn) : M A := lift (Raise e).
Definition emit (e : event) : M unit := fun g => (Ok tt, g, [e]).

(** [random.seed(seed)] *)
Definition reseed (seed : Z) : M unit := fun _ => (Ok tt, seed_rng seed, []).

(** [random.random()]: a multiple of 2^-53 in [0, 1). *)
Definition random : M Q := fun g =>
  let '(k, g') := genrand_res53 g in
  (Ok (Z.of_N (k `mod` 2 ^ 53) # 2 ^ 53), g', []).

(** [random.choices(population, weights=weights, k=1)[0]], over exact
    rationals: the rounding of the binary64 total and product, and the
    rejection of a total that is infinite or too large for a float, have no
    counterpart in the model. *)
Definition choices {A} (population : list A) (weights : list Q) : M A :=
  let n := Z.of_nat (length population) in
  let cum_weights := accumulate weights in
  if negb (Z.of_nat (length cum_weights) =? n) then raise ValueError else
  total ← lift (py_index cum_weights (-1));
  if Qle_bool total 0 then raise ValueError else
  r ← random;
  i ← lift (bisect cum_weights (r * total) 0 (n - 1));
  lift (py_index population i).

(** A [for] loop in [M] whose body may [return]. *)
Fixpoint for_loop {A S R} (l : list A) (body : A → S → M (flow S R)) (s : S)
    : M (flow S R) :=
  match l with
  | [] => mret (Next s)
  | a :: l' =>
      f ← body a s;
      match f with
      | Next s' => for_loop l' body s'
      | Return r => mret (Return r)
      end
  end.

Variable self : WFCGenerator.

(** [WFCGenerator._is_fully_collapsed] *)
Definition _is_fully_collapsed (collapsed : list (list bool)) : bool :=
  forallb (forallb (fun b => b)) collapsed.

(** Body of the inner loop of [_find_min_entropy_cell]. *)
Definition scan_cell (possibilities : list (list (gset Z)))
    (collapsed : list (list bool)) (y x : Z)
    (st : option Q * option (Z * Z))
    : M (flow (option Q * option (Z * Z)) (option (Z * Z))) :=
  c ← lift (get2 collapsed y x);
  if c : bool then mret (Next st) else
  cell ← lift (get2 possibilities y x);
  let entropy := Z.of_nat (size cell) in
  if entropy =? 0 then mret (Return None) else
  r ← random;
  let entropy_with_noise := (inject_Z entropy + r * (1 # 10))%Q in
  if below entropy_with_noise (fst st)
  then mret (Next (Some entropy_with_noise, Some (y, x)))
  else mret (Next st).

(** [WFCGenerator._find_min_entropy_cell] *)
Definition _find_min_entropy_cell (possibilities : list (list (gset Z)))
    (collapsed : list (list bool)) : M (option (Z * Z)) :=
  f ← for_loop (range (Z.of_nat (length possibilities)))
        (fun y st =>
           row0 ← lift (py_index possibilities 0);
           for_loop (range (Z.of_nat (length row0)))
             (scan_cell possibilities collapsed y) st)
        (None, None);
  match f with
  | Next st => mret (snd st)
  | Return r => mret r
  end.

(** [WFCGenerator._collapse_cell] *)
Definition _collapse_cell (possible_tiles : gset Z) : M Z :=
  ts ← lift (comprehension (getitem (tile_by_id self)) (elements possible_tiles));
  let weights := tile_weight <$> ts in
  chosen ← choices ts weights;
  mret (tile_id chosen).

(** The loop that builds [valid_for_neighbor]. *)
Definition valid_for_neighbor (current_tiles : gset Z) (d : direction) : res (gset Z) :=
  for_each (elements current_tiles)
    (fun current_tile_id valid =>
       e ← getitem (adjacency_rules self) current_tile_id;
       Ok (valid ∪ ns_get d e))
    ∅.

(** Body of the loop over the four neighbours in [_propagate].  The stack is
    kept with its top first. *)
Definition visit_neighbor (collapsed : list (list bool)) (width height : Z)
    (current_tiles : gset Z) (n : Z * Z * direction)
    (st : list (list (gset Z)) * list (Z * Z))
    : M (flow (list (list (gset Z)) * list (Z * Z)) bool) :=
  let '(nx, ny, d) := n in
  let '(possibilities, stack) := st in
  if (nx <? 0) || (width <=? nx) || (ny <? 0) || (height <=? ny)
  then mret (Next st) else
  c ← lift (get2 collapsed ny nx);
  if c : bool then mret (Next st) else
  valid ← lift (valid_for_neighbor current_tiles d);
  old_possibilities ← lift (get2 possibilities ny nx);
  let new_possibilities := old_possibilities ∩ valid in
  if Z.of_nat (size new_possibilities) =? 0 then mret (Return false) else
  if Z.of_nat (size new_possibilities) <? Z.of_nat (size old_possibilities) then
    possibilities' ← lift (set2 possibilities ny nx new_possibilities);
    _ ← emit (SetPossibilities ny nx new_possibilities);
    mret (Next (possibilities', (nx, ny) :: stack))
  else mret (Next st).

Definition neighbors (cx cy : Z) : list (Z * Z * direction) :=
  [(cx, cy - 1, north); (cx, cy + 1, south); (cx + 1, cy, east); (cx - 1, cy, west)].

(** The [while stack] loop of [_propagate]; the possibilities grid, which
    the source updates in place, is passed along and returned.  [fuel]
    bounds the number of iterations.  When a visit returns [False] the
    caller drops the grid; the model then returns the grid the iteration
    started from. *)
Fixpoint propagate_loop (fuel : nat) (collapsed : list (list bool))
    (width height : Z) (possibilities : list (list (gset Z)))
    (stack : list (Z * Z)) : M (bool * list (list (gset Z))) :=
  match stack with
  | [] => mret (true, possibilities)
  | (cx, cy) :: stack' =>
      match fuel with
      | O => lift Timeout
      | S fuel' =>
          current_tiles ← lift (get2 possibilities cy cx);
          f ← for_loop (neighbors cx cy)
                (visit_neighbor collapsed width height current_tiles)
                (possibilities, stack');
          match f with
          | Return b => mret (b, possibilities)
          | Next (possibilities', stack'') =>
              propagate_loop fuel' collapsed width height possibilities' stack''
          end
      end
  end.

(** Total number of candidates left in a grid. *)
Definition total_size (possibilities : list (list (gset Z))) : nat :=
  sum_list_with (sum_list_with size) possibilities.

(** [WFCGenerator._propagate]; every iteration of its loop lowers
    [2 * total_size possibilities + len(stack)], which gives the fuel. *)
Definition _propagate (possibilities : list (list (gset Z)))
    (collapsed : list (list bool)) (x y width height : Z)
    : M (bool * list (list (gset Z))) :=
  propagate_loop (2 * total_size possibilities + 2) collapsed width height
    possibilities [(x, y)].

(** How the [while] loop of [generate] ends when it does not [return]. *)
Record loop_end := {
  end_possibilities : list (list (gset Z));
  end_collapsed : list (list bool);
  end_iterations : Z
}.

(** The main loop of [generate]; [fuel] bounds the number of iterations.
    The progress line printed every tenth iteration is left out. *)
Fixpoint main_loop (fuel : nat) (width height max_iterations : Z)
    (possibilities : list (list (gset Z))) (collapsed : list (list bool))
    (iterations : Z) : M (flow loop_end exit) :=
  if negb (_is_fully_collapsed collapsed) && (iterations <? max_iterations) then
    match fuel with
    | O => lift Timeout
    | S fuel' =>
        let iterations := iterations + 1 in
        min_cell ← _find_min_entropy_cell possibilities collapsed;
        match min_cell with
        | None =>
            mret (Next {| end_possibilities := possibilities;
                          end_collapsed := collapsed;
                          end_iterations := iterations |})
        | Some (y, x) =>
            cell ← lift (get2 possibilities y x);
            chosen_tile ← _collapse_cell cell;
            possibilities ← lift (set2 possibilities y x {[chosen_tile]});
            _ ← emit (SetPossibilities y x {[chosen_tile]});
            collapsed ← lift (set2 collapsed y x true);
            _ ← emit (SetCollapsed y x);
            '(ok, possibilities) ← _propagate possibilities collapsed x y width height;
            if ok : bool then
              main_loop fuel' width height max_iterations possibilities collapsed iterations
            else mret (Return (ReturnNone_Contradiction x y))
        end
    end
  else mret (Next {| end_possibilities := possibilities;
                     end_collapsed := collapsed;
                     end_iterations := iterations |}).

(** The comprehension that converts the possibilities to the final grid. *)
Definition final_grid (possibilities : list (list (gset Z))) (width height : Z)
    : res (list (list Z)) :=
  comprehension
    (fun y => comprehension
                (fun x => cell ← get2 possibilities y x; py_index (elements cell) 0)
                (range width))
    (range height).

(** The part of [generate] after the loop. *)
Definition after_loop (width height max_iterations : Z) (e : loop_end) : M exit :=
  if max_iterations <=? end_iterations e
  then mret (ReturnNone_MaxIterations max_iterations)
  else grid ← lift (final_grid (end_possibilities e) width height);
       mret (ReturnGrid grid).

(** The grids [generate] starts from. *)
Definition all_tile_ids : gset Z := list_to_set (tile_id <$> tiles self).

Definition initial_possibilities (width height : Z) : list (list (gset Z)) :=
  (fun _ => (fun _ => all_tile_ids) <$> range width) <$> range height.

Definition initial_collapsed (width height : Z) : list (list bool) :=
  (fun _ => replicate (Z.to_nat width) false) <$> range height.

(** [WFCGenerator.generate] *)
Definition generate (width height : Z) (seed : option Z) : M exit :=
  _ ← match seed with
      | Some s => reseed s
      | None => mret tt
      end;
  let possibilities := initial_possibilities width height in
  let collapsed := initial_collapsed width height in
  let max_iterations := width * height * 100 in
  f ← main_loop (Z.to_nat max_iterations) width height max_iterations
        possibilities collapsed 0;
  match f with
  | Return e => mret e
  | Next e => after_loop width height max_iterations e
  end.

End Generator.

Arguments M rng A : clear implicits.
Arguments lift {rng A} r g.
Arguments emit {rng} e g.
Arguments for_loop {rng A S R} l body s.

(** ** The TMX export (tools/map_generator/tmx_generator.py)

    The ["tileset"] section of the catalog document as [TMXGenerator] reads
    it: ["name"] and ["image"] are strings, the other entries integers. *)
Record tileset_data := {
  ts_name : option string;
  ts_image : option string;
  ts_tile_width : option Z;
  ts_tile_height : option Z;
  ts_columns : option Z;
  ts_firstgid : option Z;
  ts_spacing : option Z
}.

Record TMXGenerator := {
  tmx_tileset_info : tileset_data
}.

(** [TMXGenerator.__init__], from the parsed document on. *)
Definition TMXGenerator_init (tileset : option tileset_data) : res TMXGenerator :=
  info ← required tileset;
  Ok {| tmx_tileset_info := info |}.

(** An [xml.etree.ElementTree.Element]: tag, attributes in insertion order,
    text and children. *)
#[warnings="-register-all"]
Inductive Element :=
| Elem (tag : string) (attrib : list (string * string)) (text : option string)
       (children : list Element).

(** [str(n)] on an [int], and [sep.join(l)]. *)
Definition str (n : Z) : string := pretty n.

Fixpoint join (sep : string) (l : list string) : string :=
  match l with
  | [] => EmptyString
  | [s] => s
  | s :: l' => s +:+ sep +:+ join sep l'
  end.

Definition newline : string := String (Ascii.ascii_of_nat 10) EmptyString.

(** The text of the [data] element: one line per row, each tile id shifted
    by [firstgid]. *)
Definition csv_text (firstgid : Z) (grid : list (list Z)) : string :=
  let csv_lines :=
    (fun row => join "," ((fun tile_id => str (tile_id + firstgid)) <$> row)) <$> grid in
  let csv_data := join ("," +:+ newline) csv_lines in
  newline +:+ csv_data +:+ newline.

(** [TMXGenerator.generate_tmx], lines 34 to 106: the element tree that is
    then handed to [_prettify_xml] and written to the output file.  The
    serialisation and the write, with what they may raise, are not part of
    the model. *)
Definition generate_tmx (self : TMXGenerator) (grid : list (list Z)) : res Element :=
  let info := tmx_tileset_info self in
  let height := Z.of_nat (length grid) in
  width ← (if 0 <? height then row0 ← py_index grid 0; Ok (Z.of_nat (length row0))
           else Ok 0);
  tile_width ← required (ts_tile_width info);
  tile_height ← required (ts_tile_height info);
  let map_attrib :=
    [("version", "1.10"); ("tiledversion", "1.10.2"); ("orientation", "isometric");
     ("renderorder", "right-down"); ("width", str width); ("height", str height);
     ("tilewidth", str tile_width); ("tileheight", str tile_height);
     ("infinite", "0"); ("nextlayerid", "2"); ("nextobjectid", "1")]%string in
  name ← required (ts_name info);
  columns ← required (ts_columns info);
  let tileset_attrs :=
    [("firstgid", str (default 1 (ts_firstgid info))); ("name", name);
     ("tilewidth", str tile_width); ("tileheight", str tile_height);
     ("tilecount", str (columns * 7)); ("columns", str columns)]%string ++
    match ts_spacing info with
    | Some spacing => [("spacing", str spacing)]%string
    | None => []
    end in
  image_path ← required (ts_image info);
  let spacing := default 0 (ts_spacing info) in
  let rows := 7 in
  let image_width := tile_width * columns + spacing * (columns - 1) in
  let image_height := tile_height * rows + spacing * (rows - 1) in
  let image_elem :=
    Elem "image" [("source", image_path); ("width", str image_width);
                  ("height", str image_height)]%string None [] in
  let tileset_elem := Elem "tileset" tileset_attrs None [image_elem] in
  let firstgid := default 1 (ts_firstgid info) in
  let data_elem :=
    Elem "data" [("encoding", "csv")]%string (Some (csv_text firstgid grid)) [] in
  let layer_elem :=
    Elem "layer" [("id", "1"); ("name", "Ground"); ("width", str width);
                  ("height", str height)]%string None [data_elem] in
  Ok (Elem "map" map_attrib None [tileset_elem; layer_elem]).

(** [elem.get(key)] and [elem.find(tag)]. *)
Definition elem_get (e : Element) (key : string) : option string :=
  let 'Elem _ attrib _ _ := e in
  (fun r => r.2.2) <$> list_find (fun kv => bool_decide (kv.1 = key)) attrib.

Definition elem_tag (e : Element) : string := let 'Elem tag _ _ _ := e in tag.
Definition elem_text (e : Element) : option string := let 'Elem _ _ text _ := e in text.
Definition elem_children (e : Element) : list Element := let 'Elem _ _ _ c := e in c.

Definition elem_find (e : Element) (tag : string) : option Element :=
  snd <$> list_find (fun c => bool_decide (elem_tag c = tag)) (elem_children e).

(** Whether character [c] occurs in a string. *)
Fixpoint occurs (c : Ascii.ascii) (s : string) : bool :=
  match s with
  | EmptyString => false
  | String a s' => bool_decide (a = c) || occurs c s'
  end.

(** The characters of [str(n)]: digits and the minus sign. *)
Definition number_char (c : Ascii.ascii) : bool := occurs c "0123456789-".

(** The keys [generate_tmx] reads with [self.tileset_info[...]]. *)
Definition tileset_complete (info : tileset_data) : Prop :=
  is_Some (ts_name info) ∧ is_Some (ts_image info) ∧ is_Some (ts_tile_width info) ∧
  is_Some (ts_tile_height info) ∧ is_Some (ts_columns info).

(** ** Vocabulary of the properties *)

(** Cell [(i, j)] of a grid, row [i] and column [j], for indices that are
    natural numbers. *)
Definition lookup2 {A} (g : list (list A)) (i j : nat) : option A :=
  g !! i ≫= (.!! j).

Definition insert2 {A} (g : list (list A)) (i j : nat) (v : A) : list (list A) :=
  match g !! i with
  | Some r => <[i := <[j := v]> r]> g
  | None => g
  end.

(** A grid of [h] rows of [w] cells each. *)
Definition shape {A} (w h : nat) (g : list (list A)) : Prop :=
  length g = h ∧ Forall (fun r => length r = w) g.

(** Cell [(i', j')] is the neighbour of cell [(i, j)] in direction [d]; rows
    grow to the south and columns to the east. *)
Definition adjacent (d : direction) (i j i' j' : nat) : Prop :=
  match d with
  | north => i = S i' ∧ j' = j
  | south => i' = S i ∧ j' = j
  | east => i' = i ∧ j' = S j
  | west => i' = i ∧ j = S j'
  end.

(** The cells the entropy scan visits: rows [range(len(possibilities))],
    columns [range(len(possibilities[0]))]. *)
Definition columns (possibilities : list (list (gset Z))) : Z :=
  match possibilities with
  | [] => 0
  | r :: _ => Z.of_nat (length r)
  end.

Definition in_scan (possibilities : list (list (gset Z))) (y x : Z) : Prop :=
  0 ≤ y < Z.of_nat (length possibilities) ∧ 0 ≤ x < columns possibilities.

(** The result and the writes of a run from generator state [g]. *)
Definition result {rng A} (run : res A * rng * list event) : res A := run.1.1.
Definition writes {rng A} (run : res A * rng * list event) : list event := run.2.

(** ** Specifications and invariants *)

(** Steps of catalog construction end normally or with [KeyError]. *)
Definition key_error_only {A} (r : res A) : Prop :=
  match r with
  | Ok _ => True
  | Raise e => e = KeyError
  | Timeout => False
  end.

(** Tile [A] links to id [t] in direction [d] through some tile of [ts]. *)
Definition linked (A : Tile) (d : direction) (t : Z) (ts : list Tile) : Prop :=
  ∃ B, B ∈ ts ∧ tile_id B = t ∧ can_connect A B d = Ok true.

(** [wp m g Q]: run from generator state [g], [m] ends with a result and a
    sequence of writes that satisfy [Q]. *)
Definition wp {rng A} (m : M rng A) (g : rng) (Q : res A → list event → Prop) : Prop :=
  Q (m g).1.1 (m g).2.

(** An unresolved cell without candidates. *)
Definition empty_cell (possibilities : list (list (gset Z)))
    (collapsed : list (list bool)) (y x : Z) : Prop :=
  get2 collapsed y x = Ok false ∧ get2 possibilities y x = Ok ∅.

(** The running minimum after the cells [scanned]: it belongs to an
    unresolved scanned cell, exceeds that cell's entropy by less than one,
    and no unresolved scanned cell has a perturbed entropy below it. *)
Definition scan_inv (possibilities : list (list (gset Z)))
    (collapsed : list (list bool)) (scanned : Z → Z → Prop)
    (st : option Q * option (Z * Z)) : Prop :=
  match st with
  | (None, None) => ∀ y x, scanned y x → get2 collapsed y x = Ok true
  | (Some m, Some (y, x)) =>
      scanned y x ∧ get2 collapsed y x = Ok false ∧
      (∃ s, get2 possibilities y x = Ok s ∧ size s ≠ 0%nat ∧
            (inject_Z (Z.of_nat (size s)) <= m)%Q) ∧
      ∀ y' x', scanned y' x' →
        get2 collapsed y' x' = Ok true ∨
        (get2 collapsed y' x' = Ok false ∧
         ∃ s', get2 possibilities y' x' = Ok s' ∧
               (m < inject_Z (Z.of_nat (size s')) + 1)%Q)
  | _ => False
  end.

(** Every tile of [s'] is allowed by the table in direction [d] next to some
    tile of [current]. *)
Definition supported (self : WFCGenerator) (current : gset Z) (d : direction) (s' : gset Z) : Prop :=
  ∀ t', t' ∈ s' →
    ∃ t e, t ∈ current ∧ adjacency_rules self !! t = Some e ∧ t' ∈ ns_get d e.

(** One assignment of [_propagate]: an unresolved cell gets a smaller, still
    non-empty set. *)
Definition write (collapsed : list (list bool)) (p p' : list (list (gset Z))) : Prop :=
  ∃ i j s s', lookup2 collapsed i j = Some false ∧ lookup2 p i j = Some s ∧
              s' ⊆ s ∧ s' ≠ ∅ ∧ (size s' < size s)%nat ∧ p' = insert2 p i j s'.

Definition propagation_write (collapsed : list (list bool)) (width height : Z)
    (e : event) : Prop :=
  match e with
  | SetPossibilities y x v =>
      0 ≤ y < height ∧ 0 ≤ x < width ∧ get2 collapsed y x = Ok false ∧ v ≠ ∅
  | SetCollapsed _ _ => False
  end.

(** What one neighbour visit leaves behind. *)
Definition visited (self : WFCGenerator) (collapsed : list (list bool))
    (width height : Z) (current : gset Z) (p' : list (list (gset Z)))
    (n : Z * Z * direction) : Prop :=
  let '(nx, ny, d) := n in
  0 ≤ nx < width → 0 ≤ ny < height → get2 collapsed ny nx = Ok false →
  ∃ s', get2 p' ny nx = Ok s' ∧ supported self current d s'.

(** Membership in the table is symmetric under [opposite]. *)
Definition table_symmetric (self : WFCGenerator) : Prop :=
  ∀ a b d eb,
    adjacency_rules self !! b = Some eb → a ∈ ns_get (opposite d) eb →
    ∃ ea, adjacency_rules self !! a = Some ea ∧ b ∈ ns_get d ea.

(** The state of [generate] at the head of its loop. *)
Record solver_inv (self : WFCGenerator) (width height : Z)
    (p : list (list (gset Z))) (c : list (list bool)) : Prop := {
  inv_shape_p : shape (Z.to_nat width) (Z.to_nat height) p;
  inv_shape_c : shape (Z.to_nat width) (Z.to_nat height) c;
  inv_ids : ∀ i j s, lookup2 p i j = Some s → s ⊆ all_tile_ids self;
  inv_nonempty : all_tile_ids self ≠ ∅ → ∀ i j s, lookup2 p i j = Some s → s ≠ ∅;
  inv_singleton : ∀ i j, lookup2 c i j = Some true → ∃ t, lookup2 p i j = Some {[t]};
  inv_adjacent :
    table_symmetric self →
    ∀ d i j i' j' t s',
      adjacent d i j i' j' → lookup2 c i j = Some true →
      lookup2 p i j = Some {[t]} → lookup2 p i' j' = Some s' →
      supported self {[t]} d s'
}.

(** Properties of the sequence of writes of a run. *)
Definition nonempty_write (e : event) : Prop :=
  match e with
  | SetPossibilities _ _ v => v ≠ ∅
  | SetCollapsed _ _ => True
  end.

Definition on_unresolved (width height : Z) (c : list (list bool)) (e : event) : Prop :=
  match e with
  | SetPossibilities y x _ | SetCollapsed y x =>
      0 ≤ y < height ∧ 0 ≤ x < width ∧ get2 c y x = Ok false
  end.

(** A cell is marked collapsed right after it was assigned a singleton, and
    is not assigned again. *)
Definition collapse_final (l : list event) : Prop :=
  ∀ l1 y x l2,
    l = l1 ++ SetCollapsed y x :: l2 →
    (∃ l0 t, l1 = l0 ++ [SetPossibilities y x {[t]}]) ∧
    ∀ y' x' v, SetPossibilities y' x' v ∈ l2 → (y', x') ≠ (y, x).

(** The weight [_collapse_cell] reads for a tile id, and the total of the
    weights of a set of candidates. *)
Definition weight_of (self : WFCGenerator) (i : Z) : Q :=
  from_option tile_weight 0%Q (tile_by_id self !! i).

Definition total_weight (self : WFCGenerator) (s : gset Z) : Q :=
  foldr Qplus 0%Q (weight_of self <$> elements s).

(** Cell [(cx, cy)] agrees with its neighbours: every candidate left in an
    unresolved neighbour inside the [width] by [height] window is allowed by
    the table next to some candidate of the cell. *)
Definition arc_consistent (self : WFCGenerator) (collapsed : list (list bool))
    (width height : Z) (p : list (list (gset Z))) (cx cy : Z) : Prop :=
  ∃ current, get2 p cy cx = Ok current ∧
             Forall (visited self collapsed width height current p) (neighbors cx cy).

(** Every candidate in the grid has an entry in the adjacency table. *)
Definition known_ids (self : WFCGenerator) (p : list (list (gset Z))) : Prop :=
  ∀ i j s t, lookup2 p i j = Some s → t ∈ s → is_Some (adjacency_rules self !! t).

(** [sum(sum(row) for row in collapsed)], the number of collapsed cells. *)
Definition collapsed_count (c : list (list bool)) : nat :=
  sum_list_with (sum_list_with (fun b : bool => if b then 1%nat else 0%nat)) c.

(** A grid of tile ids in which every pair of adjacent cells is allowed by
    the adjacency table, and a grid of tile ids that takes each of its
    values among the candidates of the cell. *)
Definition valid_assignment (self : WFCGenerator) (G : list (list Z)) : Prop :=
  ∀ d i j i' j' a b,
    adjacent d i j i' j' → lookup2 G i j = Some a → lookup2 G i' j' = Some b →
    ∃ e, adjacency_rules self !! a = Some e ∧ b ∈ ns_get d e.

Definition within (G : list (list Z)) (p : list (list (gset Z))) : Prop :=
  ∀ i j a, lookup2 G i j = Some a → ∃ s, lookup2 p i j = Some s ∧ a ∈ s.

(** Grid [G] has, at every cell that the writes [l] collapse, the tile that
    was chosen for it: a collapse is the assignment of a singleton followed
    by the mark of the same cell. *)
Definition agrees (G : list (list Z)) (l : list event) : Prop :=
  ∀ l1 y x t l2,
    l = l1 ++ SetPossibilities y x {[t]} :: SetCollapsed y x :: l2 →
    lookup2 G (Z.to_nat y) (Z.to_nat x) = Some t.

(** The grids after a sequence of assignments, made in order; the indices
    that [generate] and [_propagate] assign at are not negative. *)
Definition store (p : list (list (gset Z))) (e : event) : list (list (gset Z)) :=
  match e with
  | SetPossibilities y x v => insert2 p (Z.to_nat y) (Z.to_nat x) v
  | SetCollapsed _ _ => p
  end.

Definition mark (c : list (list bool)) (e : event) : list (list bool) :=
  match e with
  | SetPossibilities _ _ _ => c
  | SetCollapsed y x => insert2 c (Z.to_nat y) (Z.to_nat x) true
  end.

Definition replay_possibilities (l : list event) (p : list (list (gset Z)))
    : list (list (gset Z)) := foldl store p l.

Definition replay_collapsed (l : list event) (c : list (list bool)) : list (list bool) :=
  foldl mark c l.

(** Cell [(cx, cy)] has an unresolved neighbour inside the window for which
    the intersection that [_propagate] computes is empty: the table allows
    none of the neighbour's candidates next to the candidates of the cell. *)
Definition empty_intersection (self : WFCGenerator) (collapsed : list (list bool))
    (width height : Z) (p : list (list (gset Z))) (cx cy : Z) : Prop :=
  ∃ current nx ny d old valid,
    get2 p cy cx = Ok current ∧ (nx, ny, d) ∈ neighbors cx cy ∧
    0 ≤ nx < width ∧ 0 ≤ ny < height ∧ get2 collapsed ny nx = Ok false ∧
    get2 p ny nx = Ok old ∧ valid_for_neighbor self current d = Ok valid ∧
    old ∩ valid = ∅.

(** A computation that neither reads nor advances the generator. *)
Definition generator_free {rng A} (m : M rng A) : Prop :=
  ∃ r l, ∀ g, m g = (r, g, l).

(** What follows a collapse of cell [(x, y)] to tile [t], made after the
    writes [l1] of a run that started from the grids [p] and [c], and
    followed by the writes [l2]: the call of [_propagate] on the grids as
    they are after the collapse makes the first of the writes [l2]; it
    returns [False] exactly when the collapsed cell or a cell the call
    assigned has, in the grid the call leaves, an empty intersection with a
    neighbour; and after [False] nothing more is written and the run has
    [stopped]. *)
Definition propagation_after_collapse (rng : Type) (self : WFCGenerator) (width height : Z)
    (p : list (list (gset Z))) (c : list (list bool))
    (l1 : list event) (y x t : Z) (l2 : list event) (stopped : Prop) : Prop :=
  let pre := l1 ++ [SetPossibilities y x {[t]}; SetCollapsed y x] in
  let p1 := replay_possibilities pre p in
  let c1 := replay_collapsed pre c in
  ∃ b p2 lp l3,
    (∀ g' : rng, _propagate rng self p1 c1 x y width height g' = (Ok (b, p2), g', lp)) ∧
    l2 = lp ++ l3 ∧
    (b = false ↔
     ∃ cx cy, ((cx, cy) = (x, y) ∨ ∃ v, SetPossibilities cy cx v ∈ lp) ∧
              empty_intersection self c1 width height (replay_possibilities lp p1) cx cy) ∧
    (b = false → l3 = [] ∧ stopped).

(** ** Concrete catalogs and a concrete generator *)

(** A linear congruential generator standing in for the Mersenne Twister. *)
Definition lcg (s : N) : N * N :=
  let s' := ((s * 6364136223846793005 + 1442695040888963407) `mod` 2 ^ 64)%N in
  ((s' `div` 2 ^ 11)%N, s').

Definition lcg_seed (seed : Z) : N := Z.to_N (Z.abs seed).

Definition uniform_edges (label : string) : gmap string string :=
  list_to_map [("north", label); ("south", label); ("east", label); ("west", label)]%string.

Definition tile_def (i : Z) (label : string) (w : option Q) : tile_data :=
  {| td_id := Some i; td_name := Some label; td_edges := Some (uniform_edges label);
     td_weight := w; td_row := None; td_col := None |}.

Definition catalog_of (defs : list tile_data) : catalog_data :=
  {| cd_tileset := Some []; cd_tiles := Some defs |}.

(** Tile A with edges "grass" and tile B with edges "water". *)
Definition grass_water : catalog_data :=
  catalog_of [tile_def 0 "grass" None; tile_def 1 "water" None].

Definition grass_tile : Tile :=
  {| tile_id := 0; tile_name := "grass"; tile_edges := uniform_edges "grass";
     tile_weight := 1; tile_row := 0; tile_col := 0 |}.

Definition water_tile : Tile :=
  {| tile_id := 1; tile_name := "water"; tile_edges := uniform_edges "water";
     tile_weight := 1; tile_row := 0; tile_col := 0 |}.

Definition empty_catalog : catalog_data := catalog_of [].

Definition duplicate_ids_catalog : catalog_data :=
  catalog_of [tile_def 1 "grass" None; tile_def 1 "water" None].

Definition zero_weight_catalog : catalog_data :=
  catalog_of [tile_def 0 "grass" (Some 0%Q); tile_def 1 "water" (Some (-1)%Q)].

Definition all_zero_catalog : catalog_data :=
  catalog_of [tile_def 0 "grass" (Some 0%Q); tile_def 1 "water" (Some 0%Q)].

Definition missing_west_catalog : catalog_data :=
  catalog_of [tile_def 0 "grass" None;
              {| td_id := Some 1; td_name := Some "water"%string;
                 td_edges := Some (delete "west"%string (uniform_edges "water"));
                 td_weight := None; td_row := None; td_col := None |}].

(** The generator object [__init__] builds, when it builds one. *)
Definition generator_of (data : catalog_data) : WFCGenerator :=
  match WFCGenerator_init data with
  | Ok self => self
  | _ => {| tileset_info := []; tiles := []; tile_by_id := ∅; adjacency_rules := ∅ |}
  end.

(** A catalog document with every key [__init__] reads. *)
Definition complete_tile (td : tile_data) : Prop :=
  is_Some (td_id td) ∧ is_Some (td_name td) ∧
  ∃ e, td_edges td = Some e ∧ ∀ d, is_Some (e !! dir_key d).

Definition complete (data : catalog_data) : Prop :=
  is_Some (cd_tileset data) ∧
  ∃ defs, cd_tiles data = Some defs ∧ Forall complete_tile defs.

(** A tileset section, and the element tree [generate_tmx] builds, when it
    builds one. *)
Definition starter_tileset : tileset_data :=
  {| ts_name := Some "starter"%string; ts_image := Some "all_tiles.png"%string;
     ts_tile_width := Some 128; ts_tile_height := Some 64; ts_columns := Some 8;
     ts_firstgid := None; ts_spacing := Some 2 |}.

Definition tmx_of (self : TMXGenerator) (grid : list (list Z)) : Element :=
  match generate_tmx self grid with
  | Ok elem => elem
  | _ => Elem EmptyString [] None []
  end.

(** Two tiles of which only the first can stand to the west of the second. *)
Definition edges_of (n s e w : string) : gmap string string :=
  list_to_map [("north", n); ("south", s); ("east", e); ("west", w)]%string.

Definition one_way_catalog : catalog_data :=
  catalog_of
    [{| td_id := Some 0; td_name := Some "left"%string;
        td_edges := Some (edges_of "n" "s" "p" "q");
        td_weight := None; td_row := None; td_col := None |};
     {| td_id := Some 1; td_name := Some "right"%string;
        td_edges := Some (edges_of "n" "s" "r" "p");
        td_weight := None; td_row := None; td_col := None |}].

(** ** Lists and grids *)

Section Lists.
Context {A : Type}.
Implicit Types l : list A.

Lemma py_index_nonneg l i :
  0 ≤ i →
  py_index l i = match l !! Z.to_nat i with
                 | Some a => Ok a
                 | None => Raise IndexError
                 end.
Proof.
  intros Hi. unfold py_index, norm_index.
  destruct (Z.ltb_spec i 0) as [?|_]; [lia|].
  destruct (Z.ltb_spec i 0) as [?|_]; [lia|]. done.
Qed.

Lemma py_index_Ok l i a :
  0 ≤ i → py_index l i = Ok a ↔ l !! Z.to_nat i = Some a.
Proof.
  intros Hi. rewrite py_index_nonneg by done.
  destruct (l !! Z.to_nat i); split; congruence.
Qed.

Lemma py_index_outcome l i : py_index l i ≠ Timeout.
Proof.
  unfold py_index. destruct (_ <? 0); [done|].
  by destruct (l !! _).
Qed.

Lemma py_setitem_Ok l i v l' :
  0 ≤ i →
  py_setitem l i v = Ok l' ↔ (Z.to_nat i < length l)%nat ∧ l' = <[Z.to_nat i := v]> l.
Proof.
  intros Hi. unfold py_setitem, norm_index.
  destruct (Z.ltb_spec i 0) as [?|_]; [lia|].
  destruct (Z.ltb_spec i 0) as [?|_]; [lia|].
  destruct (Z.leb_spec (Z.of_nat (length l)) i); simpl.
  - split; [done|]. intros [? _]. lia.
  - split; [intros [= <-]; split; [lia|done] | intros [_ ->]; done].
Qed.

End Lists.

Section Grids.
Context {A : Type}.
Implicit Types g : list (list A).

Lemma get2_Ok g y x a :
  0 ≤ y → 0 ≤ x →
  get2 g y x = Ok a ↔ lookup2 g (Z.to_nat y) (Z.to_nat x) = Some a.
Proof.
  intros Hy Hx. unfold get2, lookup2.
  rewrite (py_index_nonneg g y) by done.
  destruct (g !! Z.to_nat y) as [r|]; simpl; [|split; congruence].
  by apply py_index_Ok.
Qed.

Lemma set2_Ok g y x v g' :
  0 ≤ y → 0 ≤ x →
  set2 g y x v = Ok g' →
  is_Some (lookup2 g (Z.to_nat y) (Z.to_nat x)) ∧ g' = insert2 g (Z.to_nat y) (Z.to_nat x) v.
Proof.
  intros Hy Hx. unfold set2, lookup2, insert2.
  rewrite (py_index_nonneg g y) by done.
  destruct (g !! Z.to_nat y) as [r|] eqn:Hr; simpl; [|done].
  destruct (py_setitem r x v) as [r'| |] eqn:Hs; simpl; [|done..].
  apply py_setitem_Ok in Hs as [Hlt ->]; [|done].
  intros Hg. apply py_setitem_Ok in Hg as [_ ->]; [|done].
  split; [|done]. by apply lookup_lt_is_Some.
Qed.

Lemma lookup2_insert2 g i j v i' j' :
  lookup2 (insert2 g i j v) i' j' =
    if decide (i = i' ∧ j = j') then (fun _ => v) <$> lookup2 g i j else lookup2 g i' j'.
Proof.
  unfold lookup2, insert2.
  destruct (g !! i) as [r|] eqn:Hr.
  - destruct (decide (i = i')) as [<-|Hne].
    + rewrite list_lookup_insert_eq by (by eapply lookup_lt_Some).
      rewrite Hr. simpl.
      destruct (decide (j = j')) as [<-|Hne'].
      * rewrite decide_True by done.
        destruct (r !! j) eqn:Hj.
        -- rewrite list_lookup_insert_eq by (by eapply lookup_lt_Some). done.
        -- rewrite list_insert_ge by (by apply lookup_ge_None). by rewrite Hj.
      * rewrite decide_False by (intros [? ?]; congruence).
        by rewrite list_lookup_insert_ne.
    + rewrite decide_False by (intros [? ?]; congruence).
      by rewrite list_lookup_insert_ne.
  - case_decide as Hd; [|done]. destruct Hd as [<- <-]. by rewrite Hr.
Qed.

Lemma lookup2_insert2_eq g i j v :
  is_Some (lookup2 g i j) → lookup2 (insert2 g i j v) i j = Some v.
Proof.
  intros [a Ha]. rewrite lookup2_insert2, decide_True by done. by rewrite Ha.
Qed.

Lemma lookup2_insert2_ne g i j v i' j' :
  (i, j) ≠ (i', j') → lookup2 (insert2 g i j v) i' j' = lookup2 g i' j'.
Proof.
  intros Hne. rewrite lookup2_insert2, decide_False; [done|].
  intros [-> ->]. done.
Qed.

Lemma shape_insert2 w h g i j v : shape w h g → shape w h (insert2 g i j v).
Proof.
  intros [Hh Hw]. unfold insert2.
  destruct (g !! i) as [r|] eqn:Hr; [|done].
  split; [by rewrite length_insert|].
  apply Forall_insert; [done|]. rewrite length_insert.
  by eapply (proj1 (Forall_lookup _ _) Hw).
Qed.

Lemma shape_lookup2 w h g i j :
  shape w h g → is_Some (lookup2 g i j) ↔ (i < h)%nat ∧ (j < w)%nat.
Proof.
  intros [Hh Hw]. unfold lookup2. split.
  - intros [a Ha]. destruct (g !! i) as [r|] eqn:Hr; [|done]. simpl in Ha.
    split; [rewrite <- Hh; by eapply lookup_lt_Some|].
    rewrite <- (proj1 (Forall_lookup _ _) Hw _ _ Hr). by eapply lookup_lt_Some.
  - intros [Hi Hj]. destruct (lookup_lt_is_Some_2 g i) as [r Hr]; [lia|].
    rewrite Hr. simpl. apply lookup_lt_is_Some.
    by rewrite (proj1 (Forall_lookup _ _) Hw _ _ Hr).
Qed.

End Grids.

Lemma range_lookup n i x : range n !! i = Some x ↔ x = Z.of_nat i ∧ Z.of_nat i < n.
Proof. unfold range. rewrite lookup_seqZ. lia. Qed.

Lemma elem_of_range n x : x ∈ range n ↔ 0 ≤ x < n.
Proof. unfold range. rewrite elem_of_seqZ. lia. Qed.

Lemma length_range n : length (range n) = Z.to_nat n.
Proof. apply length_seqZ. Qed.

(** ** Results of fallible steps *)

Lemma res_bind_Ok {A B} (m : res A) (k : A → res B) b :
  m ≫= k = Ok b ↔ ∃ a, m = Ok a ∧ k a = Ok b.
Proof.
  destruct m as [a| |]; simpl; split; try done.
  - eauto.
  - by intros (? & [= <-] & ?).
  - by intros (? & ? & ?).
  - by intros (? & ? & ?).
Qed.

Lemma key_error_only_bind {A B} (m : res A) (k : A → res B) :
  key_error_only m → (∀ a, m = Ok a → key_error_only (k a)) →
  key_error_only (m ≫= k).
Proof. destruct m; simpl; eauto. Qed.

Lemma key_error_only_required {A} (o : option A) : key_error_only (required o).
Proof. by destruct o. Qed.

Lemma key_error_only_getitem `{Countable K} {V} (d : gmap K V) k :
  key_error_only (getitem d k).
Proof. unfold getitem. by destruct (d !! k). Qed.

Lemma key_error_only_for_each {A S} (l : list A) (body : A → S → res S) s :
  (∀ a s', key_error_only (body a s')) → key_error_only (for_each l body s).
Proof.
  intros Hb. revert s. induction l as [|a l IH]; intros s; simpl; [done|].
  apply key_error_only_bind; [apply Hb|]. intros; apply IH.
Qed.

Lemma key_error_only_comprehension {A B} (f : A → res B) l :
  (∀ a, key_error_only (f a)) → key_error_only (comprehension f l).
Proof.
  intros Hf. induction l as [|a l IH]; simpl; [done|].
  apply key_error_only_bind; [apply Hf|]. intros b _.
  apply key_error_only_bind; [apply IH|]. done.
Qed.

Lemma comprehension_Ok {A B} (f : A → res B) l bs :
  comprehension f l = Ok bs → Forall2 (fun a b => f a = Ok b) l bs.
Proof.
  revert bs. induction l as [|a l IH]; intros bs; simpl.
  - intros [= <-]. constructor.
  - intros (b & Hb & (bs' & Hbs & [= <-])%res_bind_Ok)%res_bind_Ok.
    constructor; auto.
Qed.

(** ** The adjacency table *)

Lemma opposite_involutive d : opposite (opposite d) = d.
Proof. by destruct d. Qed.

Lemma can_connect_Ok A B d c :
  can_connect A B d = Ok c ↔
  ∃ e1 e2, tile_edges A !! dir_key d = Some e1 ∧
           tile_edges B !! dir_key (opposite d) = Some e2 ∧
           c = bool_decide (e1 = e2).
Proof.
  unfold can_connect, getitem.
  destruct (tile_edges A !! dir_key d) as [e1|]; simpl;
    [destruct (tile_edges B !! dir_key (opposite d)) as [e2|]; simpl|].
  - split; [intros [= <-]; eauto | intros (? & ? & [= <-] & [= <-] & ->); done].
  - split; [done | intros (? & ? & _ & ? & _); done].
  - split; [done | intros (? & ? & ? & _); done].
Qed.

Lemma can_connect_opposite A B d :
  can_connect B A (opposite d) = can_connect A B d.
Proof.
  unfold can_connect, getitem. rewrite opposite_involutive.
  destruct (tile_edges A !! dir_key d) as [e1|],
    (tile_edges B !! dir_key (opposite d)) as [e2|]; simpl; try done.
  f_equal. apply bool_decide_ext. split; congruence.
Qed.

Lemma key_error_only_can_connect A B d : key_error_only (can_connect A B d).
Proof.
  unfold can_connect.
  apply key_error_only_bind; [apply key_error_only_getitem|]. intros e1 _.
  apply key_error_only_bind; [apply key_error_only_getitem|]. done.
Qed.

Lemma elem_of_ns_add d' d i e t :
  t ∈ ns_get d' (ns_add d i e) ↔ t ∈ ns_get d' e ∨ (d' = d ∧ t = i).
Proof. destruct d, d'; simpl; set_solver. Qed.

Lemma directions_loop A B ds rules rules' e :
  for_each ds (connect_step A B) rules = Ok rules' →
  rules !! tile_id A = Some e →
  ∃ e', rules' !! tile_id A = Some e' ∧
        (∀ i, i ≠ tile_id A → rules' !! i = rules !! i) ∧
        (∀ d t, t ∈ ns_get d e' ↔
                t ∈ ns_get d e ∨ (d ∈ ds ∧ t = tile_id B ∧ can_connect A B d = Ok true)) ∧
        (∀ d, d ∈ ds → ∃ c, can_connect A B d = Ok c).
Proof.
  revert rules e. induction ds as [|d0 ds IH]; intros rules e; simpl.
  - intros [= <-] He. exists e. split_and!; [done|done| |].
    + intros d t. split; [auto|]. intros [?|(Hd & _)]; [done|]. by apply elem_of_nil in Hd.
    + intros d Hd. by apply elem_of_nil in Hd.
  - intros (r1 & Hstep & Hrest)%res_bind_Ok He.
    unfold connect_step in Hstep.
    apply res_bind_Ok in Hstep as (c & Hc & Hr1).
    assert (∃ e1, r1 !! tile_id A = Some e1 ∧
              (∀ i, i ≠ tile_id A → r1 !! i = rules !! i) ∧
              (∀ d t, t ∈ ns_get d e1 ↔
                 t ∈ ns_get d e ∨ (d = d0 ∧ t = tile_id B ∧ c = true)))
      as (e1 & He1 & Hother1 & Hmem1).
    { destruct c; injection Hr1 as <-.
      - exists (ns_add d0 (tile_id B) e). split_and!.
        + by rewrite lookup_alter_eq, He.
        + intros i Hi. by rewrite lookup_alter_ne.
        + intros d t. rewrite elem_of_ns_add. naive_solver.
      - exists e. split_and!; [done|done|]. naive_solver. }
    destruct (IH _ _ Hrest He1) as (e' & He' & Hother & Hmem & Hok).
    exists e'. split_and!; [done| | |].
    + intros i Hi. rewrite Hother, Hother1; done.
    + intros d t. rewrite Hmem, Hmem1. rewrite elem_of_cons. split.
      * intros [[?|(-> & -> & ->)]|(? & ? & ?)]; auto 6.
      * intros [?|([->|?] & -> & Hcc)]; auto 6.
        left. right. split_and!; [done..|]. congruence.
    + intros d [->|Hd]%elem_of_cons; eauto.
Qed.

Lemma for_each_cons {A S} (a : A) l (body : A → S → res S) s :
  for_each (a :: l) body s = body a s ≫= for_each l body.
Proof. done. Qed.

Lemma elem_of_directions d : d ∈ directions.
Proof. unfold directions. destruct d; set_solver. Qed.

Lemma others_loop A ts rules rules' e :
  for_each ts (fun other r => for_each directions (connect_step A other) r) rules = Ok rules' →
  rules !! tile_id A = Some e →
  ∃ e', rules' !! tile_id A = Some e' ∧
        (∀ i, i ≠ tile_id A → rules' !! i = rules !! i) ∧
        (∀ d t, t ∈ ns_get d e' ↔ t ∈ ns_get d e ∨ linked A d t ts) ∧
        (∀ B d, B ∈ ts → ∃ c, can_connect A B d = Ok c).
Proof.
  revert rules e. induction ts as [|B ts IH]; intros rules e.
  - intros [= <-] He. exists e. split_and!; [done|done| |].
    + intros d t. split; [auto|]. intros [?|(B & HB & _)]; [done|]. by apply elem_of_nil in HB.
    + intros B d HB. by apply elem_of_nil in HB.
  - rewrite for_each_cons. intros (r1 & Hdirs & Hrest)%res_bind_Ok He.
    destruct (directions_loop _ _ _ _ _ _ Hdirs He) as (e1 & He1 & Hother1 & Hmem1 & Hok1).
    destruct (IH _ _ Hrest He1) as (e' & He' & Hother & Hmem & Hok).
    exists e'. split_and!; [done| | |].
    + intros i Hi. rewrite Hother, Hother1; done.
    + intros d t. rewrite Hmem, Hmem1. unfold linked. split.
      * intros [[?|(_ & -> & Hcc)]|(B' & HB' & Hid & Hcc)]; [auto| |].
        -- right. exists B. split_and!; [apply elem_of_cons; by left|done..].
        -- right. exists B'. split_and!; [apply elem_of_cons; by right|done..].
      * intros [?|(B' & [->|HB']%elem_of_cons & Hid & Hcc)]; [auto| |].
        -- left. right. split_and!; [apply elem_of_directions|done..].
        -- right. exists B'. done.
    + intros B' d [->|HB']%elem_of_cons; [|eauto].
      apply Hok1, elem_of_directions.
Qed.

Lemma rules_for_tile_Ok ts A rules rules' :
  rules_for_tile ts A rules = Ok rules' →
  ∃ e, rules' !! tile_id A = Some e ∧
       (∀ i, i ≠ tile_id A → rules' !! i = rules !! i) ∧
       (∀ d t, t ∈ ns_get d e ↔ linked A d t ts) ∧
       (∀ B d, B ∈ ts → ∃ c, can_connect A B d = Ok c).
Proof.
  unfold rules_for_tile. intros Hloop.
  destruct (others_loop _ _ _ _ no_neighbors Hloop) as (e & He & Hother & Hmem & Hok).
  { apply lookup_insert_eq. }
  exists e. split_and!; [done| | |done].
  - intros i Hi. rewrite Hother by done. by rewrite lookup_insert_ne.
  - intros d t. rewrite Hmem. split; [|auto].
    intros [Hin|?]; [|done]. destruct d; simpl in Hin; set_solver.
Qed.

Lemma rules_loop ts l rules rules' :
  for_each l (rules_for_tile ts) rules = Ok rules' →
  (∀ i, i ∉ tile_id <$> l → rules' !! i = rules !! i) ∧
  (∀ A B d, A ∈ l → B ∈ ts → ∃ c, can_connect A B d = Ok c) ∧
  (NoDup (tile_id <$> l) →
   ∀ A, A ∈ l → ∃ e, rules' !! tile_id A = Some e ∧
                     ∀ d t, t ∈ ns_get d e ↔ linked A d t ts).
Proof.
  revert rules. induction l as [|A0 l IH]; intros rules; simpl.
  - intros [= <-]. split_and!; [done| |].
    + intros A B d HA. by apply elem_of_nil in HA.
    + intros _ A HA. by apply elem_of_nil in HA.
  - intros (r1 & Htile & Hrest)%res_bind_Ok.
    destruct (rules_for_tile_Ok _ _ _ _ Htile) as (e0 & He0 & Hother0 & Hmem0 & Hok0).
    destruct (IH _ Hrest) as (Hother & Hok & Hentries).
    split_and!.
    + intros i Hi. apply not_elem_of_cons in Hi as [Hne Hi].
      rewrite Hother, Hother0; done.
    + intros A B d [->|HA]%elem_of_cons HB; eauto.
    + intros [Hfresh Hnd]%NoDup_cons A [->|HA]%elem_of_cons; [|eauto].
      exists e0. split; [|done]. by rewrite Hother.
Qed.

Lemma index_by_id_snoc ts t :
  index_by_id (ts ++ [t]) = <[tile_id t := t]> (index_by_id ts).
Proof. unfold index_by_id. by rewrite foldl_app. Qed.

Lemma index_by_id_lookup ts A :
  NoDup (tile_id <$> ts) → A ∈ ts → index_by_id ts !! tile_id A = Some A.
Proof.
  induction ts as [|t ts IH] using rev_ind; intros Hnd HA.
  - by apply elem_of_nil in HA.
  - rewrite index_by_id_snoc. rewrite fmap_app in Hnd. simpl in Hnd.
    apply NoDup_app in Hnd as (Hnd & Hfresh & _).
    apply elem_of_app in HA as [HA|HA]; [|apply list_elem_of_singleton in HA as ->].
    + rewrite lookup_insert_ne; [by apply IH|].
      intros Heq. apply (Hfresh (tile_id A)).
      * by apply list_elem_of_fmap_2.
      * rewrite Heq. apply list_elem_of_singleton. done.
    + apply lookup_insert_eq.
Qed.

Lemma index_by_id_dom ts i T :
  index_by_id ts !! i = Some T → T ∈ ts ∧ tile_id T = i.
Proof.
  induction ts as [|t ts IH] using rev_ind.
  - unfold index_by_id. simpl. by rewrite lookup_empty.
  - rewrite index_by_id_snoc. destruct (decide (tile_id t = i)) as [<-|Hne].
    + rewrite lookup_insert_eq. intros [= <-]. split; [|done].
      apply elem_of_app. right. by apply list_elem_of_singleton.
    + rewrite lookup_insert_ne by done. intros [HT <-]%IH. split; [|done].
      apply elem_of_app. by left.
Qed.

(** ** Reasoning about computations in [M] *)

#[export] Existing Instance M_ret.
#[export] Existing Instance M_bind.

Section Reasoning.
Context {rng : Type}.
Variable genrand_res53 : rng → N * rng.

Lemma wp_run {A} (m : M rng A) g Q r g' l : wp m g Q → m g = (r, g', l) → Q r l.
Proof. unfold wp. intros H E. by rewrite E in H. Qed.

Lemma wp_mono {A} (m : M rng A) g (Q Q' : res A → list event → Prop) :
  wp m g Q → (∀ r l, Q r l → Q' r l) → wp m g Q'.
Proof. unfold wp. auto. Qed.

Lemma wp_ret {A} (a : A) (g : rng) (Q : res A → list event → Prop) :
  Q (Ok a) [] → wp (mret a) g Q.
Proof. done. Qed.

Lemma wp_lift {A} (r : res A) (g : rng) (Q : res A → list event → Prop) :
  Q r [] → wp (lift r) g Q.
Proof. done. Qed.

Lemma wp_emit e (g : rng) (Q : res unit → list event → Prop) :
  Q (Ok tt) [e] → wp (emit e) g Q.
Proof. done. Qed.

Lemma wp_bind {A B} (m : M rng A) (k : A → M rng B) g (Q : res B → list event → Prop) :
  wp m g (fun r l1 =>
            match r with
            | Ok a => ∀ g1, wp (k a) g1 (fun r' l2 => Q r' (l1 ++ l2))
            | Raise e => Q (Raise e) l1
            | Timeout => Q Timeout l1
            end) →
  wp (m ≫= k) g Q.
Proof.
  unfold wp, mbind, M_bind. destruct (m g) as [[[a|e|] g1] l1]; simpl; [|done..].
  intros H. specialize (H g1). by destruct (k a g1) as [[r' g2] l2].
Qed.

(** [random.random()] lies in [0, 1). *)
Lemma random_range_raw k : (0 <= Z.of_N (k `mod` 2 ^ 53) # 2 ^ 53 < 1)%Q.
Proof.
  pose proof (N.mod_upper_bound k (2 ^ 53)%N ltac:(done)) as Hlt.
  set (m := (k `mod` 2 ^ 53)%N) in *.
  unfold Qle, Qlt. cbn [Qnum Qden]. split.
  - pose proof (N2Z.is_nonneg m). lia.
  - apply N2Z.inj_lt in Hlt.
    change (Z.of_N (2 ^ 53)) with (Z.pos (2 ^ 53)) in Hlt. lia.
Qed.

Lemma wp_random g (Q : res Q → list event → Prop) :
  (∀ r, (0 <= r < 1)%Q → Q (Ok r) []) → wp (random rng genrand_res53) g Q.
Proof.
  intros H. unfold wp, random. destruct (genrand_res53 g) as [k g']. simpl.
  apply H, random_range_raw.
Qed.

(** The rule for a [for] loop: [I done s log] holds of the loop state after
    the elements [done]. *)
Lemma wp_for_loop {A S R} (body : A → S → M rng (flow S R)) (l0 : list A)
    (I : list A → S → list event → Prop)
    (Qr : R → list event → Prop) (Qe : exn → list event → Prop) :
  (∀ pre a suf s lg g,
     l0 = pre ++ a :: suf → I pre s lg →
     wp (body a s) g (fun r l1 =>
       match r with
       | Ok (Next s') => I (pre ++ [a]) s' (lg ++ l1)
       | Ok (Return v) => Qr v (lg ++ l1)
       | Raise e => Qe e (lg ++ l1)
       | Timeout => False
       end)) →
  ∀ s lg g, I [] s lg →
    wp (for_loop l0 body s) g (fun r l1 =>
      match r with
      | Ok (Next s') => I l0 s' (lg ++ l1)
      | Ok (Return v) => Qr v (lg ++ l1)
      | Raise e => Qe e (lg ++ l1)
      | Timeout => False
      end).
Proof.
  intros Hbody.
  assert (∀ l pre s lg g, l0 = pre ++ l → I pre s lg →
            wp (for_loop l body s) g (fun r l1 =>
              match r with
              | Ok (Next s') => I l0 s' (lg ++ l1)
              | Ok (Return v) => Qr v (lg ++ l1)
              | Raise e => Qe e (lg ++ l1)
              | Timeout => False
              end)) as Hgen.
  { induction l as [|a l IH]; intros pre s lg g Hl HI.
    - simpl. apply wp_ret. rewrite app_nil_r in *. by subst.
    - simpl. apply wp_bind.
      eapply wp_mono; [by eapply Hbody|]. simpl.
      intros [[s'|v]|e|] l1 H; try done.
      + intros g1. eapply wp_mono.
        * apply (IH (pre ++ [a]) s' (lg ++ l1)); [|done].
          by rewrite <- app_assoc.
        * simpl. intros r l2. by rewrite !app_assoc.
      + intros g1. apply wp_ret. by rewrite app_nil_r. }
  intros s lg g HI. by apply (Hgen l0 []).
Qed.

End Reasoning.

(** ** The entropy scan *)

Lemma Qltb_true a b : Qltb a b = true ↔ (a < b)%Q.
Proof.
  unfold Qltb. rewrite negb_true_iff, <- not_true_iff_false, Qle_bool_iff.
  split; [apply Qnot_le_lt | apply Qlt_not_le].
Qed.

Lemma Qltb_false a b : Qltb a b = false ↔ (b <= a)%Q.
Proof. unfold Qltb. by rewrite negb_false_iff, Qle_bool_iff. Qed.

(** Noise below one cannot reorder two integer entropies. *)
Lemma entropy_order (a b : nat) (m : Q) :
  (inject_Z (Z.of_nat a) <= m)%Q → (m < inject_Z (Z.of_nat b) + 1)%Q → (a ≤ b)%nat.
Proof.
  intros H1 H2. pose proof (Qle_lt_trans _ _ _ H1 H2) as H.
  change 1%Q with (inject_Z 1) in H. rewrite <- inject_Z_plus in H.
  rewrite <- Zlt_Qlt in H. lia.
Qed.

Section Scan.
Context {rng : Type}.
Variable genrand_res53 : rng → N * rng.
Variable possibilities : list (list (gset Z)).
Variable collapsed : list (list bool).

Lemma scan_inv_ext (P P' : Z → Z → Prop) st :
  (∀ y x, P y x ↔ P' y x) → scan_inv possibilities collapsed P st → scan_inv possibilities collapsed P' st.
Proof.
  intros HP. destruct st as [[m|] [[y x]|]]; simpl; try done.
  - intros (Hs & Hc & Hm & Hall). split_and!; [by apply HP|done|done|].
    intros y' x' H'. by apply Hall, HP.
  - intros Hall y x H. by apply Hall, HP.
Qed.

Lemma scan_cell_spec scanned y x st g :
  scan_inv possibilities collapsed scanned st →
  wp (scan_cell rng genrand_res53 possibilities collapsed y x st) g (fun r l =>
    l = [] ∧
    match r with
    | Ok (Next st') => scan_inv possibilities collapsed (fun y' x' => scanned y' x' ∨ (y' = y ∧ x' = x)) st'
    | Ok (Return v) => v = None ∧ empty_cell possibilities collapsed y x
    | Raise _ => True
    | Timeout => False
    end).
Proof.
  intros Hinv. unfold scan_cell.
  apply wp_bind, wp_lift.
  destruct (get2 collapsed y x) as [c| |] eqn:Hc; [|done|].
  2:{ unfold get2 in Hc. destruct (py_index collapsed y) as [r| |] eqn:Hr; simpl in Hc;
        [by apply py_index_outcome in Hc | done | by apply py_index_outcome in Hr]. }
  intros g1. destruct c.
  { apply wp_ret. split; [done|].
    destruct st as [[m|] [[y0 x0]|]]; simpl in *; try done.
    - destruct Hinv as (Hs & Hc0 & Hm & Hall). split_and!; [by left|done|done|].
      intros y' x' [H'|[-> ->]]; [by apply Hall | by left].
    - intros y' x' [H'|[-> ->]]; [by apply Hinv | done]. }
  apply wp_bind, wp_lift.
  destruct (get2 possibilities y x) as [s| |] eqn:Hs; [|done|].
  2:{ unfold get2 in Hs. destruct (py_index possibilities y) as [r| |] eqn:Hr; simpl in Hs;
        [by apply py_index_outcome in Hs | done | by apply py_index_outcome in Hr]. }
  intros g2. simpl.
  destruct (Z.eqb_spec (Z.of_nat (size s)) 0) as [Hz|Hnz].
  { apply wp_ret. split; [done|]. split; [done|]. split; [done|].
    rewrite Hs. f_equal. apply leibniz_equiv, size_empty_iff. lia. }
  apply wp_bind, wp_random. intros r [Hr0 Hr1] g3.
  set (ewn := (inject_Z (Z.of_nat (size s)) + r * (1 # 10))%Q).
  assert (inject_Z (Z.of_nat (size s)) <= ewn)%Q as Hlo by (unfold ewn; lra).
  assert (ewn < inject_Z (Z.of_nat (size s)) + 1)%Q as Hhi by (unfold ewn; lra).
  destruct (below ewn st.1) eqn:Hb; apply wp_ret; (split; [done|]).
  - simpl. split_and!; [by right|done|exists s; split_and!; [done|lia|done]|].
    intros y' x' [H'|[-> ->]]; [|right; eauto].
    destruct st as [[m|] [[y0 x0]|]]; simpl in *; try done.
    + destruct Hinv as (_ & _ & _ & Hall).
      apply Qltb_true in Hb.
      destruct (Hall _ _ H') as [?|(? & s' & ? & Hm)]; [by left|right].
      split; [done|]. exists s'. split; [done|]. lra.
    + left. by apply Hinv.
  - destruct st as [[m|] [[y0 x0]|]]; simpl in *; try done.
    destruct Hinv as (Hsc & Hc0 & Hm & Hall). apply Qltb_false in Hb.
    split_and!; [by left|done|done|].
    intros y' x' [H'|[-> ->]]; [by apply Hall|].
    right. split; [done|]. exists s. split; [done|]. lra.
Qed.

Lemma scan_row_spec ys y st g :
  scan_inv possibilities collapsed (fun y' x' => y' ∈ ys ∧ 0 ≤ x' < columns possibilities) st →
  wp (for_loop (range (columns possibilities))
        (scan_cell rng genrand_res53 possibilities collapsed y) st) g (fun r l =>
    l = [] ∧
    match r with
    | Ok (Next st') => scan_inv possibilities collapsed (fun y' x' => y' ∈ ys ++ [y] ∧ 0 ≤ x' < columns possibilities) st'
    | Ok (Return v) => v = None ∧ ∃ x, 0 ≤ x < columns possibilities ∧ empty_cell possibilities collapsed y x
    | Raise _ => True
    | Timeout => False
    end).
Proof.
  intros Hinv.
  pose (I := fun (pre : list Z) (st : option Q * option (Z * Z)) (lg : list event) =>
               lg = [] ∧
               scan_inv possibilities collapsed (fun y' x' => (y' ∈ ys ∧ 0 ≤ x' < columns possibilities) ∨ (y' = y ∧ x' ∈ pre)) st).
  eapply wp_mono.
  - apply (wp_for_loop _ (range (columns possibilities)) I
             (fun v lg => lg = [] ∧ v = None ∧ ∃ x, 0 ≤ x < columns possibilities ∧ empty_cell possibilities collapsed y x)
             (fun _ lg => lg = [])) with (lg := []).
    + intros pre a suf s lg g' Hsplit [-> Hs].
      eapply wp_mono; [by apply scan_cell_spec|]. simpl.
      intros [[s'|v]|e|] l1 [-> H]; try done.
      * split; [done|]. eapply scan_inv_ext; [|exact H]. simpl.
        intros y' x'. rewrite elem_of_app, list_elem_of_singleton. naive_solver.
      * split; [done|]. destruct H as [-> H]. split; [done|]. exists a. split; [|done].
        apply elem_of_range. rewrite Hsplit. rewrite elem_of_app, elem_of_cons. auto.
    + split; [done|]. eapply scan_inv_ext; [|exact Hinv]. simpl.
      intros y' x'. rewrite elem_of_nil. naive_solver.
  - simpl. intros [[s'|v]|e|] l1; try done.
    intros [-> H]. split; [done|]. eapply scan_inv_ext; [|exact H]. simpl.
    intros y' x'. rewrite elem_of_app, list_elem_of_singleton, elem_of_range. naive_solver.
Qed.

(** What [_find_min_entropy_cell] returns: a cell of minimum entropy among
    the unresolved ones, or [None] when it meets an unresolved cell without
    candidates or when no cell is unresolved. *)
Lemma find_min_entropy_cell_spec g :
  wp (_find_min_entropy_cell rng genrand_res53 possibilities collapsed) g (fun r l =>
    l = [] ∧
    match r with
    | Ok (Some (y, x)) =>
        in_scan possibilities y x ∧ get2 collapsed y x = Ok false ∧
        ∃ s, get2 possibilities y x = Ok s ∧ size s ≠ 0%nat ∧
             ∀ y' x', in_scan possibilities y' x' → get2 collapsed y' x' = Ok false →
                      ∃ s', get2 possibilities y' x' = Ok s' ∧ (size s ≤ size s')%nat
    | Ok None =>
        (∃ y x, in_scan possibilities y x ∧ empty_cell possibilities collapsed y x) ∨
        (∀ y x, in_scan possibilities y x → get2 collapsed y x = Ok true)
    | Raise _ => True
    | Timeout => False
    end).
Proof.
  unfold _find_min_entropy_cell. apply wp_bind.
  pose (I := fun (pre : list Z) (st : option Q * option (Z * Z)) (lg : list event) =>
               lg = [] ∧ scan_inv possibilities collapsed (fun y' x' => y' ∈ pre ∧ 0 ≤ x' < columns possibilities) st).
  eapply wp_mono.
  - apply (wp_for_loop _ (range (Z.of_nat (length possibilities))) I
             (fun v lg => lg = [] ∧ v = None ∧ ∃ y x, in_scan possibilities y x ∧ empty_cell possibilities collapsed y x)
             (fun _ lg => lg = [])) with (lg := []).
    + intros pre y suf st lg g' Hsplit [-> Hst].
      apply wp_bind, wp_lift.
      assert (y ∈ range (Z.of_nat (length possibilities))) as Hy.
      { rewrite Hsplit, elem_of_app, elem_of_cons. auto. }
      apply elem_of_range in Hy.
      destruct (py_index possibilities 0) as [row0| |] eqn:Hrow;
        [|done|by apply py_index_outcome in Hrow].
      assert (Z.of_nat (length row0) = columns possibilities) as ->.
      { unfold columns. revert Hrow. clear.
        destruct possibilities; [done|]. by intros [= ->]. }
      intros g1. eapply wp_mono; [by apply scan_row_spec|]. simpl.
      intros [[s'|v]|e|] l1 [-> H]; try done.
      split; [done|]. destruct H as [-> (x & Hx & H)]. split; [done|].
      by exists y, x.
    + split; [done|]. simpl. intros y x [Hy _]. by apply elem_of_nil in Hy.
  - simpl. intros [[st|v]|e|] l1; try done.
    + intros [-> Hst] g1. apply wp_ret. split; [done|].
      assert (scan_inv possibilities collapsed (in_scan possibilities) st) as Hst'.
      { eapply scan_inv_ext; [|exact Hst]. intros y x. simpl.
        rewrite elem_of_range. unfold in_scan. naive_solver. }
      destruct st as [[m|] [[y x]|]]; simpl in *; try done.
      * destruct Hst' as (Hin & Hc & (s & Hs & Hnz & Hm) & Hall).
        split_and!; [done..|]. exists s. split_and!; [done..|].
        intros y' x' Hin' Hc'.
        destruct (Hall _ _ Hin') as [Ht|(_ & s' & Hs' & Hm')]; [congruence|].
        exists s'. split; [done|]. by eapply entropy_order.
      * by right.
    + intros (-> & -> & H) g1. apply wp_ret. split; [done|]. by left.
Qed.

End Scan.

(** ** The weighted draw *)

Lemma py_index_elem_of {A} (l : list A) i a : py_index l i = Ok a → a ∈ l.
Proof.
  unfold py_index. destruct (_ <? 0); [done|].
  destruct (l !! _) eqn:Hl; [|done]. intros [= <-].
  by eapply list_elem_of_lookup_2.
Qed.

Lemma bisect_loop_outcome fuel a x lo hi :
  (Z.to_nat (hi - lo) ≤ fuel)%nat → bisect_loop fuel a x lo hi ≠ Timeout.
Proof.
  revert lo hi. induction fuel as [|fuel IH]; intros lo hi Hfuel; simpl.
  - destruct (Z.ltb_spec lo hi); [lia|done].
  - destruct (Z.ltb_spec lo hi) as [Hlt|]; [|done].
    pose proof (Z.div_mod (lo + hi) 2 ltac:(done)) as Hdiv.
    pose proof (Z.mod_pos_bound (lo + hi) 2 ltac:(done)) as Hmod.
    destruct (py_index a ((lo + hi) `div` 2)) as [am| |] eqn:Ham; simpl;
      [|done|by apply py_index_outcome in Ham].
    destruct (Qltb x am); apply IH; lia.
Qed.

Section Draw.
Context {rng : Type}.
Variable genrand_res53 : rng → N * rng.

Lemma choices_spec {A} (population : list A) weights g :
  wp (choices rng genrand_res53 population weights) g (fun r l =>
    l = [] ∧
    match r with
    | Ok a => a ∈ population
    | Raise _ => True
    | Timeout => False
    end).
Proof.
  unfold choices. destruct (negb _); [by apply wp_lift|].
  apply wp_bind, wp_lift.
  destruct (py_index (accumulate weights) (-1)) as [total| |] eqn:Ht;
    [|done|by apply py_index_outcome in Ht].
  intros g1. destruct (Qle_bool total 0); [by apply wp_lift|].
  apply wp_bind, wp_random. intros r _ g2.
  apply wp_bind, wp_lift.
  destruct (bisect _ _ _ _) as [i| |] eqn:Hi; [|done|].
  2:{ by apply bisect_loop_outcome in Hi. }
  intros g3. apply wp_lift.
  destruct (py_index population i) as [a| |] eqn:Ha;
    [|done|by apply py_index_outcome in Ha].
  split; [done|]. by eapply py_index_elem_of.
Qed.

Variable self : WFCGenerator.
Hypothesis tile_by_id_built : tile_by_id self = index_by_id (tiles self).

Lemma collapse_cell_spec (possible_tiles : gset Z) g :
  wp (_collapse_cell rng genrand_res53 self possible_tiles) g (fun r l =>
    l = [] ∧
    match r with
    | Ok chosen => chosen ∈ possible_tiles
    | Raise _ => True
    | Timeout => False
    end).
Proof.
  unfold _collapse_cell. apply wp_bind, wp_lift.
  destruct (comprehension _ _) as [ts| |] eqn:Hts; [|done|].
  2:{ pose proof (key_error_only_comprehension (getitem (tile_by_id self))
                    (elements possible_tiles)
                    (fun a => key_error_only_getitem _ a)) as H.
      by rewrite Hts in H. }
  intros g1. apply wp_bind.
  eapply wp_mono; [apply choices_spec|]. simpl.
  intros [chosen|e|] l [-> H]; try done.
  intros g2. apply wp_ret. split; [done|].
  apply comprehension_Ok in Hts.
  apply list_elem_of_lookup_1 in H as [n Hn].
  destruct (Forall2_lookup_r _ _ _ _ _ Hts Hn) as (tid & Htid & Hget).
  unfold getitem in Hget. destruct (tile_by_id self !! tid) as [T|] eqn:HT; [|done].
  injection Hget as ->. rewrite tile_by_id_built in HT.
  apply index_by_id_dom in HT as [_ ->].
  apply elem_of_elements. by eapply list_elem_of_lookup_2.
Qed.

End Draw.

(** ** Propagation *)

Lemma get2_outcome {A} (g : list (list A)) y x : get2 g y x ≠ Timeout.
Proof.
  unfold get2. destruct (py_index g y) as [r| |] eqn:Hr; simpl;
    [apply py_index_outcome | done | by apply py_index_outcome in Hr].
Qed.

Lemma set2_outcome {A} (g : list (list A)) y x v : set2 g y x v ≠ Timeout.
Proof.
  unfold set2. destruct (py_index g y) as [r| |] eqn:Hr; simpl;
    [|done|by apply py_index_outcome in Hr].
  destruct (py_setitem r x v) as [r'| |] eqn:Hr'; simpl.
  - unfold py_setitem. by destruct (_ || _).
  - done.
  - unfold py_setitem in Hr'. by destruct (_ || _).
Qed.

Lemma get2_lookup2 {A} (g : list (list A)) y x :
  0 ≤ y → 0 ≤ x →
  get2 g y x = match lookup2 g (Z.to_nat y) (Z.to_nat x) with
               | Some a => Ok a
               | None => Raise IndexError
               end.
Proof.
  intros Hy Hx. unfold get2, lookup2. rewrite (py_index_nonneg g y) by done.
  destruct (g !! Z.to_nat y) as [r|]; simpl; [|done]. by apply py_index_nonneg.
Qed.

Lemma sum_list_with_insert {A} (f : A → nat) (l : list A) i a b :
  l !! i = Some a →
  (sum_list_with f (<[i := b]> l) + f a = sum_list_with f l + f b)%nat.
Proof.
  revert i. induction l as [|c l IH]; intros [|i]; simpl; try done.
  - intros [= ->]. lia.
  - intros Hl. specialize (IH _ Hl). lia.
Qed.

Lemma total_size_insert2 (p : list (list (gset Z))) i j s s' :
  lookup2 p i j = Some s →
  (total_size (insert2 p i j s') + size s = total_size p + size s')%nat.
Proof.
  unfold lookup2, insert2, total_size. destruct (p !! i) as [r|] eqn:Hr; [|done].
  simpl. intros Hj.
  pose proof (sum_list_with_insert (sum_list_with size) p i r (<[j := s']> r) Hr) as H1.
  pose proof (sum_list_with_insert size r j s s' Hj) as H2. lia.
Qed.

Section Propagation.
Context {rng : Type}.
Variable self : WFCGenerator.
Variable collapsed : list (list bool).
Variables width height : Z.

Lemma supported_mono current d s s' : s' ⊆ s → supported self current d s → supported self current d s'.
Proof. intros Hsub Hs t' Ht'. apply Hs. set_solver. Qed.

Lemma writes_lookup2 p p' :
  rtc (write collapsed) p p' →
  ∀ i j,
    match lookup2 p i j with
    | Some s => ∃ s', lookup2 p' i j = Some s' ∧ s' ⊆ s ∧ (s ≠ ∅ → s' ≠ ∅) ∧
                      (lookup2 collapsed i j = Some true → s' = s)
    | None => lookup2 p' i j = None
    end.
Proof.
  induction 1 as [p|p p1 p' Hw _ IH]; intros i j.
  - destruct (lookup2 p i j) as [s|]; [|done]. exists s. done.
  - destruct Hw as (i0 & j0 & s0 & s1 & Hc & Hs0 & Hsub & Hne & _ & ->).
    specialize (IH i j). rewrite lookup2_insert2 in IH.
    case_decide as Hd.
    + destruct Hd as [-> ->]. rewrite Hs0 in *. simpl in IH.
      destruct IH as (s' & Hs' & Hsub' & Hne' & Hcoll).
      exists s'. split_and!; [done|set_solver|auto|]. intros; congruence.
    + done.
Qed.

Lemma writes_shape w h p p' : rtc (write collapsed) p p' → shape w h p → shape w h p'.
Proof.
  induction 1 as [p|p p1 p' Hw _ IH]; [done|]. intros Hs. apply IH.
  destruct Hw as (i0 & j0 & s0 & s1 & _ & _ & _ & _ & _ & ->).
  by apply shape_insert2.
Qed.

Lemma writes_get2 p p' y x s :
  rtc (write collapsed) p p' → 0 ≤ y → 0 ≤ x → get2 p y x = Ok s →
  ∃ s', get2 p' y x = Ok s' ∧ s' ⊆ s.
Proof.
  intros Hw Hy Hx Hs. apply get2_Ok in Hs; [|done..].
  pose proof (writes_lookup2 _ _ Hw (Z.to_nat y) (Z.to_nat x)) as H.
  rewrite Hs in H. destruct H as (s' & Hs' & Hsub & _).
  exists s'. split; [|done]. by apply get2_Ok.
Qed.

Lemma writes_total_size p p' : rtc (write collapsed) p p' → (total_size p' ≤ total_size p)%nat.
Proof.
  induction 1 as [p|p p1 p' Hw _ IH]; [done|].
  destruct Hw as (i0 & j0 & s0 & s1 & _ & Hs0 & _ & _ & Hlt & ->).
  pose proof (total_size_insert2 _ _ _ _ s1 Hs0). lia.
Qed.

Lemma valid_for_neighbor_loop d l acc valid :
  for_each l
    (fun current_tile_id valid =>
       e ← getitem (adjacency_rules self) current_tile_id;
       Ok (valid ∪ ns_get d e)) acc = Ok valid →
  ∀ t', t' ∈ valid →
    t' ∈ acc ∨ ∃ t e, t ∈ l ∧ adjacency_rules self !! t = Some e ∧ t' ∈ ns_get d e.
Proof.
  revert acc. induction l as [|t l IH]; intros acc; simpl.
  - intros [= <-]. auto.
  - intros (acc' & (e & He & [= <-])%res_bind_Ok & Hrest)%res_bind_Ok t' Ht'.
    unfold getitem in He. destruct (adjacency_rules self !! t) as [e0|] eqn:Hr; [|done].
    injection He as ->.
    destruct (IH _ Hrest _ Ht') as [[?|?]%elem_of_union|(t0 & e0 & ? & ? & ?)].
    + by left.
    + right. exists t, e. split_and!; [apply elem_of_cons; by left|done..].
    + right. exists t0, e0. split_and!; [apply elem_of_cons; by right|done..].
Qed.

Lemma valid_for_neighbor_Ok current d valid :
  valid_for_neighbor self current d = Ok valid → supported self current d valid.
Proof.
  intros H t' Ht'. destruct (valid_for_neighbor_loop _ _ _ _ H _ Ht')
    as [?|(t & e & Ht & ? & ?)]; [set_solver|].
  exists t, e. split_and!; [|done..]. by apply elem_of_elements.
Qed.

Lemma valid_for_neighbor_outcome current d : valid_for_neighbor self current d ≠ Timeout.
Proof.
  unfold valid_for_neighbor. intros H.
  pose proof (key_error_only_for_each (elements current)
    (fun current_tile_id valid =>
       e ← getitem (adjacency_rules self) current_tile_id;
       Ok (valid ∪ ns_get d e)) ∅) as Hk.
  rewrite H in Hk. apply Hk. intros a s'.
  apply key_error_only_bind; [apply key_error_only_getitem|done].
Qed.

Lemma visited_writes current p p' n :
  rtc (write collapsed) p p' → visited self collapsed width height current p n → visited self collapsed width height current p' n.
Proof.
  destruct n as [[nx ny] d]. intros Hw Hv Hx Hy Hc.
  destruct (Hv Hx Hy Hc) as (s & Hs & Hsup).
  destruct (writes_get2 _ _ ny nx _ Hw ltac:(lia) ltac:(lia) Hs) as (s' & Hs' & Hsub).
  exists s'. split; [done|]. by eapply supported_mono.
Qed.

Lemma visit_neighbor_spec current n p stack g :
  wp (visit_neighbor rng self collapsed width height current n (p, stack)) g (fun r l =>
    Forall (propagation_write collapsed width height) l ∧
    match r with
    | Ok (Next (p', stack')) =>
        rtc (write collapsed) p p' ∧
        (2 * total_size p' + length stack' ≤ 2 * total_size p + length stack)%nat ∧
        visited self collapsed width height current p' n
    | Ok (Return b) => b = false ∧ l = []
    | Raise _ => True
    | Timeout => False
    end).
Proof.
  destruct n as [[nx ny] d]. unfold visit_neighbor.
  destruct (_ || _) eqn:Hoob.
  { apply wp_ret. split; [done|]. split_and!; [done|done|].
    intros ? ?. exfalso. revert Hoob. rewrite !orb_true_iff.
    rewrite !Z.ltb_lt, !Z.leb_le. lia. }
  rewrite !orb_false_iff in Hoob. rewrite !Z.ltb_ge, !Z.leb_gt in Hoob.
  destruct Hoob as (((Hx0 & Hx1) & Hy0) & Hy1).
  apply wp_bind, wp_lift.
  destruct (get2 collapsed ny nx) as [c| |] eqn:Hc; [|done|by apply get2_outcome in Hc].
  intros g1. destruct c.
  { apply wp_ret. split; [done|]. split_and!; [done|done|]. intros _ _ ?. congruence. }
  apply wp_bind, wp_lift.
  destruct (valid_for_neighbor self current d) as [valid| |] eqn:Hv;
    [|done|by apply valid_for_neighbor_outcome in Hv].
  apply valid_for_neighbor_Ok in Hv.
  intros g2. apply wp_bind, wp_lift.
  destruct (get2 p ny nx) as [old| |] eqn:Hold; [|done|by apply get2_outcome in Hold].
  intros g3. simpl.
  destruct (Z.eqb_spec (Z.of_nat (size (old ∩ valid))) 0) as [|Hnz];
    [by apply wp_ret|].
  destruct (Z.ltb_spec (Z.of_nat (size (old ∩ valid))) (Z.of_nat (size old))) as [Hlt|Hge].
  - apply wp_bind, wp_lift.
    destruct (set2 p ny nx (old ∩ valid)) as [p'| |] eqn:Hset;
      [|done|by apply set2_outcome in Hset].
    apply set2_Ok in Hset as [_ ->]; [|done..].
    intros g4. apply wp_bind, wp_emit. intros g5. apply wp_ret.
    assert (old ∩ valid ≠ ∅) as Hne.
    { intros Heq. rewrite Heq, size_empty in Hnz. done. }
    split.
    + simpl. constructor; [|done]. simpl. split_and!; try done; lia.
    + apply get2_Ok in Hold as Hold'; [|done..].
      apply get2_Ok in Hc; [|done..].
      split_and!.
      * apply rtc_once. exists (Z.to_nat ny), (Z.to_nat nx), old, (old ∩ valid).
        split_and!; [done|done|set_solver|done|lia|done].
      * pose proof (total_size_insert2 _ _ _ _ (old ∩ valid) Hold'). simpl. lia.
      * intros _ _ _. exists (old ∩ valid). split.
        -- apply get2_Ok; [done..|]. apply lookup2_insert2_eq. by rewrite Hold'.
        -- eapply supported_mono; [|done]. set_solver.
  - apply wp_ret. split; [done|]. split_and!; [done|done|].
    intros _ _ _. exists old. split; [done|].
    assert (old ∩ valid = old) as Heq.
    { apply set_subseteq_size_eq; [set_solver|lia]. }
    eapply supported_mono; [|done]. set_solver.
Qed.

Lemma visit_neighbors_spec current cx cy p stack g :
  wp (for_loop (neighbors cx cy)
        (visit_neighbor rng self collapsed width height current) (p, stack)) g (fun r l =>
    Forall (propagation_write collapsed width height) l ∧
    match r with
    | Ok (Next (p', stack')) =>
        rtc (write collapsed) p p' ∧
        (2 * total_size p' + length stack' ≤ 2 * total_size p + length stack)%nat ∧
        Forall (visited self collapsed width height current p') (neighbors cx cy)
    | Ok (Return b) => b = false
    | Raise _ => True
    | Timeout => False
    end).
Proof.
  pose (I := fun (pre : list (Z * Z * direction))
                 (st : list (list (gset Z)) * list (Z * Z)) (lg : list event) =>
               Forall (propagation_write collapsed width height) lg ∧ rtc (write collapsed) p st.1 ∧
               (2 * total_size st.1 + length st.2 ≤ 2 * total_size p + length stack)%nat ∧
               Forall (visited self collapsed width height current st.1) pre).
  eapply wp_mono.
  - apply (wp_for_loop _ (neighbors cx cy) I
             (fun b lg => Forall (propagation_write collapsed width height) lg ∧ b = false)
             (fun _ lg => Forall (propagation_write collapsed width height) lg)) with (lg := []).
    + intros pre n suf [p1 stack1] lg g' _ (Hlg & Hw & Hm & Hv). simpl in *.
      eapply wp_mono; [apply visit_neighbor_spec|]. simpl.
      intros [[[p2 stack2]|b]|e|] l1 [Hl1 H]; try done.
      * destruct H as (Hw2 & Hm2 & Hv2). unfold I. simpl.
        split_and!; [by apply Forall_app|by etrans|lia|].
        apply Forall_app. split; [|by constructor].
        eapply Forall_impl; [exact Hv|]. intros n'. by apply visited_writes.
      * destruct H as [-> ->]. by rewrite app_nil_r.
      * by apply Forall_app.
    + unfold I. simpl. split_and!; try done; lia.
  - simpl. intros [[[p2 stack2]|b]|e|] l1; done.
Qed.

(** What [_propagate]'s loop does: only writes of the kind [write], enough
    fuel, and the neighbours of the cell on top of the stack end up
    supported self by that cell's candidates. *)
Lemma propagate_loop_spec fuel p stack g :
  (2 * total_size p + length stack ≤ fuel)%nat →
  wp (propagate_loop rng self fuel collapsed width height p stack) g (fun r l =>
    Forall (propagation_write collapsed width height) l ∧
    match r with
    | Ok (b, p') =>
        b = true →
        rtc (write collapsed) p p' ∧
        match stack with
        | [] => True
        | (cx, cy) :: _ =>
            ∀ current, get2 p cy cx = Ok current →
                       Forall (visited self collapsed width height current p') (neighbors cx cy)
        end
    | Raise _ => True
    | Timeout => False
    end).
Proof.
  revert p stack g. induction fuel as [|fuel IH]; intros p stack g Hfuel.
  - destruct stack as [|[cx cy] stack']; simpl in *; [|lia].
    apply wp_ret. done.
  - destruct stack as [|[cx cy] stack']; simpl in *.
    { apply wp_ret. done. }
    apply wp_bind, wp_lift.
    destruct (get2 p cy cx) as [current| |] eqn:Hcur; [|done|by apply get2_outcome in Hcur].
    intros g1. apply wp_bind.
    eapply wp_mono; [apply visit_neighbors_spec|]. simpl.
    intros [[[p1 stack1]|b]|e|] l1 [Hl1 H]; try done.
    + destruct H as (Hw & Hm & Hv). intros g2.
      eapply wp_mono; [apply IH; lia|]. simpl.
      intros [[b p']|e|] l2 [Hl2 H2]; try done; (split; [by apply Forall_app|]); [|done].
      intros ->. destruct (H2 eq_refl) as [Hw2 _]. split; [by etrans|].
      intros current' [= <-].
      eapply Forall_impl; [exact Hv|]. intros n. by apply visited_writes.
    + intros g2. apply wp_ret. rewrite app_nil_r. split; [done|]. by subst.
Qed.

Lemma propagate_spec p x y g :
  wp (_propagate rng self p collapsed x y width height) g (fun r l =>
    Forall (propagation_write collapsed width height) l ∧
    match r with
    | Ok (b, p') =>
        b = true →
        rtc (write collapsed) p p' ∧
        ∀ current, get2 p y x = Ok current →
                   Forall (visited self collapsed width height current p') (neighbors x y)
    | Raise _ => True
    | Timeout => False
    end).
Proof.
  unfold _propagate. eapply wp_mono; [apply propagate_loop_spec; simpl; lia|].
  simpl. intros [[b p']|e|] l; done.
Qed.

End Propagation.

(** ** The main loop *)

Lemma fully_collapsed_false (c : list (list bool)) :
  _is_fully_collapsed c = false → ∃ i j, lookup2 c i j = Some false.
Proof.
  unfold _is_fully_collapsed, lookup2. induction c as [|r c IH]; simpl; [done|].
  destruct (forallb (fun b => b) r) eqn:Hr; simpl.
  - intros (i & j & H)%IH. by exists (S i), j.
  - intros _. exists 0%nat. simpl. clear IH.
    induction r as [|b r IHr]; simpl in *; [done|].
    destruct b; simpl in *.
    + destruct (IHr Hr) as [j Hj]. by exists (S j).
    + by exists 0%nat.
Qed.

Lemma fully_collapsed_true (c : list (list bool)) i j b :
  _is_fully_collapsed c = true → lookup2 c i j = Some b → b = true.
Proof.
  unfold _is_fully_collapsed, lookup2. intros Hall.
  destruct (c !! i) as [r|] eqn:Hr; simpl; [|done]. intros Hb.
  apply list_elem_of_lookup_2, list_elem_of_In in Hr, Hb.
  rewrite forallb_forall in Hall. specialize (Hall _ Hr).
  rewrite forallb_forall in Hall. by apply Hall.
Qed.

Lemma adjacent_neighbors d i j i' j' :
  adjacent d i j i' j' →
  (Z.of_nat j', Z.of_nat i', d) ∈ neighbors (Z.of_nat j) (Z.of_nat i).
Proof.
  unfold neighbors. destruct d; simpl; intros [-> ->]; rewrite ?Nat2Z.inj_succ.
  - replace (Z.of_nat i') with (Z.succ (Z.of_nat i') - 1) at 1 by lia. set_solver.
  - replace (Z.succ (Z.of_nat i)) with (Z.of_nat i + 1) by lia. set_solver.
  - replace (Z.succ (Z.of_nat j)) with (Z.of_nat j + 1) by lia. set_solver.
  - replace (Z.of_nat j') with (Z.succ (Z.of_nat j') - 1) at 1 by lia. set_solver.
Qed.

Lemma adjacent_opposite d i j i' j' :
  adjacent d i j i' j' → adjacent (opposite d) i' j' i j.
Proof. destruct d; simpl; naive_solver. Qed.

Lemma adjacent_ne d i j i' j' : adjacent d i j i' j' → (i, j) ≠ (i', j').
Proof. destruct d; simpl; intros [? ?] [= ? ?]; lia. Qed.

Lemma singleton_eq_inv (a b : Z) : ({[a]} : gset Z) = {[b]} → a = b.
Proof.
  intros H. assert (a ∈ ({[b]} : gset Z)) as Ha by (rewrite <- H; by apply elem_of_singleton).
  by apply elem_of_singleton in Ha.
Qed.

Section Solver.
Context {rng : Type}.
Variable genrand_res53 : rng → N * rng.
Variable self : WFCGenerator.
Variables width height : Z.

(** Collapsing cell [(i, j)] to [chosen] and propagating keeps the state
    well formed. *)
Lemma solver_inv_step p c i j s chosen p2 :
  solver_inv self width height p c →
  lookup2 c i j = Some false → lookup2 p i j = Some s → chosen ∈ s →
  rtc (write (insert2 c i j true)) (insert2 p i j {[chosen]}) p2 →
  (∀ d i' j' s', adjacent d i j i' j' →
                 lookup2 (insert2 c i j true) i' j' = Some false →
                 lookup2 p2 i' j' = Some s' → supported self {[chosen]} d s') →
  solver_inv self width height p2 (insert2 c i j true).
Proof.
  intros [Hsp Hsc Hids Hne Hsing Hadj] Hc Hs Hchosen Hw Hnew.
  set (c1 := insert2 c i j true) in *. set (p1 := insert2 p i j {[chosen]}) in *.
  assert (∀ i' j', lookup2 p1 i' j' =
            if decide (i = i' ∧ j = j') then Some {[chosen]} else lookup2 p i' j') as Hp1.
  { intros i' j'. unfold p1. rewrite lookup2_insert2. case_decide; [|done]. by rewrite Hs. }
  assert (∀ i' j', lookup2 c1 i' j' =
            if decide (i = i' ∧ j = j') then Some true else lookup2 c i' j') as Hc1.
  { intros i' j'. unfold c1. rewrite lookup2_insert2. case_decide; [|done]. by rewrite Hc. }
  pose proof (writes_lookup2 _ _ _ Hw) as Hp2.
  assert (∀ i' j' s2, lookup2 p2 i' j' = Some s2 →
            ∃ s1, lookup2 p1 i' j' = Some s1 ∧ s2 ⊆ s1 ∧ (s1 ≠ ∅ → s2 ≠ ∅) ∧
                  (lookup2 c1 i' j' = Some true → s2 = s1)) as Hback.
  { intros i' j' s2 Hs2. specialize (Hp2 i' j').
    destruct (lookup2 p1 i' j') as [s1|]; [|congruence].
    destruct Hp2 as (s2' & Hs2' & ?). exists s1. rewrite Hs2 in Hs2'.
    injection Hs2' as <-. done. }
  assert (∀ i' j' s1, lookup2 p1 i' j' = Some s1 →
            ∃ s0, lookup2 p i' j' = Some s0 ∧ s1 ⊆ s0 ∧ s1 ≠ ∅ ∨
                  lookup2 p i' j' = Some s1 ∧ s0 = s1) as Hback1.
  { intros i' j' s1. rewrite Hp1. case_decide as Hd.
    - destruct Hd as [<- <-]. intros [= <-]. exists s. left.
      split_and!; [done|set_solver|set_solver].
    - intros ?. exists s1. by right. }
  split.
  - eapply writes_shape; [done|]. by apply shape_insert2.
  - by apply shape_insert2.
  - intros i' j' s2 (s1 & Hs1 & Hsub & _)%Hback.
    destruct (Hback1 _ _ _ Hs1) as (s0 & [(Hs0 & ? & _)|(Hs0 & _)]).
    + specialize (Hids _ _ _ Hs0). set_solver.
    + specialize (Hids _ _ _ Hs0). set_solver.
  - intros Hall i' j' s2 (s1 & Hs1 & _ & Hne2 & _)%Hback. apply Hne2.
    destruct (Hback1 _ _ _ Hs1) as (s0 & [(_ & _ & ?)|(Hs0 & _)]); [done|].
    by eapply Hne.
  - intros i' j'. rewrite Hc1. intros Hcoll.
    assert (∃ t, lookup2 p1 i' j' = Some {[t]}) as [t Ht].
    { rewrite Hp1. case_decide; [by exists chosen|]. by apply Hsing. }
    exists t. specialize (Hp2 i' j'). rewrite Ht in Hp2.
    destruct Hp2 as (s2 & Hs2 & _ & _ & Heq). rewrite Hs2. f_equal. apply Heq.
    by rewrite Hc1.
  - intros Hsym d i0 j0 i' j' t s' Hadj0 Hcoll Ht Hs'.
    destruct (Hback _ _ _ Ht) as (st & Hst & _ & _ & Hteq).
    specialize (Hteq Hcoll). subst st.
    destruct (Hback _ _ _ Hs') as (s1' & Hs1' & Hsub' & _ & Heq').
    rewrite Hc1 in Hcoll. rewrite Hp1 in Hst. case_decide as Hd.
    + destruct Hd as [<- <-]. apply (inj Some) in Hst.
      apply singleton_eq_inv in Hst as <-.
      destruct (lookup2 c1 i' j') as [[|]|] eqn:Hc'.
      * (* the neighbour was collapsed before: use the symmetry of the table *)
        rewrite (Heq' eq_refl) in *. clear Heq'.
        rewrite Hc1 in Hc'. rewrite Hp1 in Hs1'.
        pose proof (adjacent_ne _ _ _ _ _ Hadj0) as Hne0.
        rewrite decide_False in Hc' by (intros [? ?]; congruence).
        rewrite decide_False in Hs1' by (intros [? ?]; congruence).
        destruct (Hsing _ _ Hc') as [t' Ht']. rewrite Hs1' in Ht'. apply (inj Some) in Ht' as ->.
        pose proof (Hadj Hsym _ _ _ _ _ _ _ (adjacent_opposite _ _ _ _ _ Hadj0)
                      Hc' Hs1' Hs chosen Hchosen) as (t0 & e' & Ht0' & He' & Hin).
        apply elem_of_singleton in Ht0' as ->.
        intros t1 Ht1. apply elem_of_singleton in Ht1 as ->.
        destruct (Hsym _ _ _ _ He' Hin) as (ea & Hea & Hin').
        exists chosen, ea. split_and!; [by apply elem_of_singleton|done|done].
      * by eapply Hnew.
      * exfalso. pose proof (proj1 (shape_lookup2 _ _ _ i' j' ltac:(by eapply writes_shape; [done|apply shape_insert2])) ltac:(by eexists)) as Hin.
        pose proof (proj2 (shape_lookup2 _ _ c1 i' j' ltac:(by apply shape_insert2)) Hin) as [? ?].
        congruence.
    + destruct (Hback1 _ _ _ Hs1') as (s0' & Hcase).
      assert (∃ s0, lookup2 p i' j' = Some s0 ∧ s' ⊆ s0) as (s0 & Hs0 & Hsub0).
      { destruct Hcase as [(? & Hsub1 & _)|(? & _)]; [exists s0'|exists s1']; (split; [done|]).
        - clear -Hsub' Hsub1. set_solver.
        - done. }
      eapply supported_mono; [done|]. by eapply Hadj.
Qed.

End Solver.

Section Loop.
Context {rng : Type}.
Variable genrand_res53 : rng → N * rng.
Variable self : WFCGenerator.
Variables width height : Z.
Hypothesis tile_by_id_built : tile_by_id self = index_by_id (tiles self).

Lemma on_unresolved_insert2 c y x e :
  0 ≤ y → 0 ≤ x →
  on_unresolved width height (insert2 c (Z.to_nat y) (Z.to_nat x) true) e →
  on_unresolved width height c e ∧
  match e with
  | SetPossibilities y' x' _ | SetCollapsed y' x' => (y', x') ≠ (y, x)
  end.
Proof.
  intros Hy Hx.
  assert (∀ y' x', 0 ≤ y' → 0 ≤ x' →
            get2 (insert2 c (Z.to_nat y) (Z.to_nat x) true) y' x' = Ok false →
            get2 c y' x' = Ok false ∧ (y', x') ≠ (y, x)) as Hget.
  { intros y' x' Hy' Hx'. rewrite !get2_Ok by done. rewrite lookup2_insert2.
    case_decide as Hd.
    - by destruct (lookup2 c (Z.to_nat y) (Z.to_nat x)).
    - intros ?. split; [done|]. intros [= -> ->]. by apply Hd. }
  destruct e as [y' x' v|y' x']; simpl; intros (Hy' & Hx' & Hc);
    destruct (Hget y' x' ltac:(lia) ltac:(lia) Hc); done.
Qed.

Lemma columns_shape (p : list (list (gset Z))) y x :
  shape (Z.to_nat width) (Z.to_nat height) p →
  in_scan p y x → 0 ≤ y < height ∧ 0 ≤ x < width.
Proof.
  intros [Hh Hw] [Hy Hx]. unfold columns in Hx.
  destruct p as [|r p]; [lia|]. apply Forall_cons in Hw as [Hr _].
  simpl in *. lia.
Qed.

Lemma shape_in_scan (p : list (list (gset Z))) (i j : nat) :
  shape (Z.to_nat width) (Z.to_nat height) p →
  (i < Z.to_nat height)%nat → (j < Z.to_nat width)%nat →
  in_scan p (Z.of_nat i) (Z.of_nat j).
Proof.
  intros [Hh Hw] Hi Hj. unfold in_scan, columns.
  destruct p as [|r p]; simpl in *; [lia|].
  apply Forall_cons in Hw as [Hr _]. lia.
Qed.

Lemma propagation_write_nonempty c e :
  propagation_write c width height e → nonempty_write e.
Proof. destruct e; simpl; [|done]. by intros (_ & _ & _ & ?). Qed.

Lemma propagation_write_unresolved c e :
  propagation_write c width height e → on_unresolved width height c e.
Proof. destruct e; simpl; [|done]. by intros (? & ? & ? & _). Qed.

Lemma collapse_final_nil : collapse_final [].
Proof. intros l1 y x l2 H. by destruct l1. Qed.

Lemma collapse_final_step c y x t lp lrest :
  0 ≤ y → 0 ≤ x →
  Forall (propagation_write (insert2 c (Z.to_nat y) (Z.to_nat x) true) width height) lp →
  Forall (on_unresolved width height (insert2 c (Z.to_nat y) (Z.to_nat x) true)) lrest →
  collapse_final lrest →
  collapse_final (SetPossibilities y x {[t]} :: SetCollapsed y x :: lp ++ lrest).
Proof.
  intros Hy Hx Hlp Hlrest Hfin l1 y0 x0 l2 Hsplit.
  destruct l1 as [|e1 l1]; [done|]. injection Hsplit as <- Hsplit.
  destruct l1 as [|e2 l1].
  - injection Hsplit as <- <- <-. split; [by exists [], t|].
    intros y' x' v [Hin|Hin]%elem_of_app.
    + rewrite Forall_forall in Hlp. specialize (Hlp _ Hin). simpl in Hlp.
      destruct Hlp as (Hy' & Hx' & Hc & _).
      apply get2_Ok in Hc; [|lia..]. rewrite lookup2_insert2 in Hc.
      intros [= -> ->]. rewrite decide_True in Hc by done.
      by destruct (lookup2 c (Z.to_nat y) (Z.to_nat x)).
    + rewrite Forall_forall in Hlrest. specialize (Hlrest _ Hin).
      by apply on_unresolved_insert2 in Hlrest as [_ ?].
  - injection Hsplit as <- Hsplit.
    apply app_eq_app in Hsplit as [l [[-> Hl]|[-> Hl]]].
    + destruct l as [|e l].
      * simpl in Hl. symmetry in Hl.
        destruct (Hfin [] _ _ _ Hl) as [(l0 & t0 & H0) _]. by destruct l0.
      * injection Hl as <- _. rewrite Forall_app in Hlp. destruct Hlp as [_ Hlp].
        apply Forall_cons in Hlp as [[] _].
    + destruct (Hfin _ _ _ _ Hl) as [(l0 & t0 & ->) Hl2]. split; [|done].
      exists (SetPossibilities y x {[t]} :: SetCollapsed y x :: lp ++ l0), t0.
      simpl. by rewrite <- app_assoc.
Qed.

Lemma main_loop_spec max_iterations fuel p c iterations g :
  solver_inv self width height p c →
  (Z.to_nat (max_iterations - iterations) ≤ fuel)%nat →
  wp (main_loop rng genrand_res53 self fuel width height max_iterations p c iterations) g
    (fun r l =>
       Forall nonempty_write l ∧ Forall (on_unresolved width height c) l ∧ collapse_final l ∧
       match r with
       | Ok (Next e) =>
           solver_inv self width height (end_possibilities e) (end_collapsed e) ∧
           iterations ≤ end_iterations e ≤ Z.max iterations max_iterations ∧
           (_is_fully_collapsed (end_collapsed e) = true ∨
            max_iterations ≤ end_iterations e ∨
            ∃ i j, lookup2 (end_possibilities e) i j = Some ∅)
       | Ok (Return ex) => ∃ x y, ex = ReturnNone_Contradiction x y
       | Raise _ => True
       | Timeout => False
       end).
Proof.
  revert p c iterations g. induction fuel as [|fuel IH]; intros p c iterations g Hinv Hfuel.
  all: simpl; destruct (_is_fully_collapsed c) eqn:Hfull; simpl.
  all: try (apply wp_ret; split_and!;
            [done|done|apply collapse_final_nil|done|simpl; lia|simpl; lia|by left]).
  all: destruct (Z.ltb_spec iterations max_iterations) as [Hlt|Hge].
  all: try (apply wp_ret; split_and!;
            [done|done|apply collapse_final_nil|done|simpl; lia|simpl; lia|
             right; left; simpl; lia]).
  { lia. }
  apply wp_bind.
  eapply wp_mono; [apply find_min_entropy_cell_spec|]. simpl.
  intros [[[y x]|]|e|] l0 [-> Hmin]; try done;
    try (split_and!; [done|done|apply collapse_final_nil|done]).
  2:{ intros g1. apply wp_ret. split_and!; [done|done|apply collapse_final_nil|done|
        simpl; lia|simpl; lia|]. right. right. simpl.
      destruct Hmin as [(y & x & Hin & Hc & Hp)|Hall].
      - destruct Hin as [Hy Hx]. apply get2_Ok in Hp; [|lia..]. eauto.
      - exfalso. destruct (fully_collapsed_false _ Hfull) as (i & j & Hij).
        destruct Hinv as [Hsp Hsc _ _ _ _].
        pose proof (proj1 (shape_lookup2 _ _ _ i j Hsc) ltac:(by eexists)) as [Hi Hj].
        pose proof (shape_in_scan _ _ _ Hsp Hi Hj) as Hin.
        specialize (Hall _ _ Hin). apply get2_Ok in Hall; [|lia..].
        rewrite !Nat2Z.id in Hall. congruence. }
  destruct Hmin as (Hin & Hc & s & Hs & Hnz & _).
  pose proof Hinv as [Hsp Hsc _ _ _ _].
  pose proof (columns_shape _ _ _ Hsp Hin) as [Hy Hx].
  intros g1. apply wp_bind, wp_lift. rewrite Hs.
  intros g2. apply wp_bind.
  eapply wp_mono; [by apply collapse_cell_spec|]. simpl.
  intros [chosen|e|] l0 [-> Hchosen]; try done;
    try (split_and!; [done|done|apply collapse_final_nil|done]).
  intros g3. apply wp_bind, wp_lift.
  destruct (set2 p y x {[chosen]}) as [p1| |] eqn:Hp1;
    [|split_and!; [done|done|apply collapse_final_nil|done]|by apply set2_outcome in Hp1].
  apply set2_Ok in Hp1 as [_ ->]; [|lia..].
  intros g4. apply wp_bind, wp_emit.
  assert (on_unresolved width height c (SetPossibilities y x {[chosen]})) as Hev1 by done.
  assert (nonempty_write (SetPossibilities y x {[chosen]})) as Hev2.
  { simpl. set_solver. }
  intros g5. apply wp_bind, wp_lift.
  destruct (set2 c y x true) as [c1| |] eqn:Hc1; [| |by apply set2_outcome in Hc1].
  2:{ simpl. split_and!; [by constructor|by constructor| |done].
      intros [|? [|? ?]] ? ? ? ?; done. }
  apply set2_Ok in Hc1 as [_ ->]; [|lia..].
  intros g6. apply wp_bind, wp_emit.
  intros g7. apply wp_bind.
  set (i := Z.to_nat y) in *. set (j := Z.to_nat x) in *.
  set (c1 := insert2 c i j true). set (p1 := insert2 p i j {[chosen]}).
  apply get2_Ok in Hs as Hs'; [|lia..]. apply get2_Ok in Hc as Hc'; [|lia..].
  fold i j in Hs', Hc'.
  eapply wp_mono; [apply propagate_spec|]. simpl.
  intros [[b p2]|e|] lp [Hlp Hprop].
  3:{ done. }
  2:{ split_and!.
      - constructor; [done|]. constructor; [done|].
        eapply Forall_impl; [exact Hlp|]. apply propagation_write_nonempty.
      - constructor; [done|]. constructor; [done|].
        eapply Forall_impl; [exact Hlp|]. intros ev Hev.
        apply (on_unresolved_insert2 c y x ev); [lia..|].
        by apply propagation_write_unresolved.
      - pose proof (collapse_final_step c y x chosen lp [] ltac:(lia) ltac:(lia)
                      Hlp ltac:(done) collapse_final_nil) as H.
        by rewrite app_nil_r in H.
      - done. }
  assert (Forall nonempty_write lp) as Hlp1.
  { eapply Forall_impl; [exact Hlp|]. apply propagation_write_nonempty. }
  assert (Forall (on_unresolved width height c) lp) as Hlp2.
  { eapply Forall_impl; [exact Hlp|]. intros ev Hev.
    apply (on_unresolved_insert2 c y x ev); [lia..|].
    by apply propagation_write_unresolved. }
  intros g8. destruct b.
  2:{ apply wp_ret. rewrite app_nil_r. split_and!.
      - by do 2 (constructor; [done|]).
      - by do 2 (constructor; [done|]).
      - pose proof (collapse_final_step c y x chosen lp [] ltac:(lia) ltac:(lia)
                      Hlp ltac:(done) collapse_final_nil) as H.
        by rewrite app_nil_r in H.
      - eauto. }
  destruct (Hprop eq_refl) as [Hw Hvis].
  assert (solver_inv self width height p2 c1) as Hinv2.
  { eapply solver_inv_step; [done..|].
    intros d i' j' s' Hadj Hc1' Hs2'.
    assert (get2 p1 y x = Ok {[chosen]}) as Hcur.
    { apply get2_Ok; [lia..|]. apply lookup2_insert2_eq. exists s. exact Hs'. }
    specialize (Hvis _ Hcur). rewrite Forall_forall in Hvis.
    pose proof (adjacent_neighbors _ _ _ _ _ Hadj) as Hn.
    unfold i, j in Hn. rewrite !Z2Nat.id in Hn by lia.
    specialize (Hvis _ Hn). simpl in Hvis.
    pose proof (proj1 (shape_lookup2 _ _ c1 i' j'
                        ltac:(by apply shape_insert2)) ltac:(by eexists)) as [Hi' Hj'].
    destruct Hvis as (s'' & Hs'' & Hsup); [lia|lia| |].
    - apply get2_Ok; [lia..|]. by rewrite !Nat2Z.id.
    - apply get2_Ok in Hs''; [|lia..]. rewrite !Nat2Z.id in Hs''.
      rewrite Hs2' in Hs''. by apply (inj Some) in Hs'' as <-. }
  eapply wp_mono; [apply IH; [done|lia]|]. simpl.
  intros r lrest (Hr1 & Hr2 & Hr3 & Hr).
  split_and!.
  - constructor; [done|]. constructor; [done|]. by apply Forall_app.
  - constructor; [done|]. constructor; [done|]. apply Forall_app. split; [done|].
    eapply Forall_impl; [exact Hr2|]. intros ev Hev.
    by apply (on_unresolved_insert2 c y x ev); [lia..|].
  - apply (collapse_final_step c); [lia|lia|done..].
  - destruct r as [[e|ex]|e|]; try done.
    destruct Hr as (? & ? & ?). split_and!; [done|lia|lia|done].
Qed.

End Loop.

(** ** The whole of [generate] *)

Lemma comprehension_range {B} (f : Z → res B) n bs :
  comprehension f (range n) = Ok bs →
  length bs = Z.to_nat n ∧ ∀ i b, bs !! i = Some b → f (Z.of_nat i) = Ok b.
Proof.
  intros H%comprehension_Ok. split.
  - rewrite <- (Forall2_length _ _ _ H). apply length_range.
  - intros i b Hb. destruct (Forall2_lookup_r _ _ _ _ _ H Hb) as (y & Hy & Hf).
    apply range_lookup in Hy as [-> _]. done.
Qed.

Lemma final_grid_Ok p width height grid :
  final_grid p width height = Ok grid →
  shape (Z.to_nat width) (Z.to_nat height) grid ∧
  ∀ i j v, lookup2 grid i j = Some v → ∃ s, lookup2 p i j = Some s ∧ v ∈ s.
Proof.
  unfold final_grid. intros [Hlen Hrows]%comprehension_range. split.
  - split; [done|]. apply Forall_lookup. intros i r Hr.
    by apply Hrows, comprehension_range in Hr as [? _].
  - intros i j v. unfold lookup2 at 1. destruct (grid !! i) as [r|] eqn:Hr; [|done].
    simpl. intros Hv. apply Hrows, comprehension_range in Hr as [_ Hr].
    apply Hr in Hv. apply res_bind_Ok in Hv as (s & Hs & Hv).
    apply get2_Ok in Hs; [|lia..]. rewrite !Nat2Z.id in Hs.
    exists s. split; [done|]. apply elem_of_elements. by eapply py_index_elem_of.
Qed.

Section Generate.
Context {rng : Type}.
Variable genrand_res53 : rng → N * rng.
Variable seed_rng : Z → rng.
Variable self : WFCGenerator.
Variables width height : Z.
Hypothesis tile_by_id_built : tile_by_id self = index_by_id (tiles self).

Lemma lookup2_initial_possibilities i j s :
  lookup2 (initial_possibilities self width height) i j = Some s → s = all_tile_ids self.
Proof.
  unfold lookup2, initial_possibilities. rewrite list_lookup_fmap.
  destruct (range height !! i); simpl; [|done]. rewrite list_lookup_fmap.
  destruct (range width !! j); simpl; [|done]. by intros [= <-].
Qed.

Lemma lookup2_initial_collapsed i j b :
  lookup2 (initial_collapsed width height) i j = Some b → b = false.
Proof.
  unfold lookup2, initial_collapsed. rewrite list_lookup_fmap.
  destruct (range height !! i); simpl; [|done].
  by intros [-> _]%lookup_replicate.
Qed.

Lemma solver_inv_initial :
  solver_inv self width height
    (initial_possibilities self width height) (initial_collapsed width height).
Proof.
  split.
  - split.
    + unfold initial_possibilities. by rewrite length_fmap, length_range.
    + unfold initial_possibilities. apply Forall_fmap, Forall_forall. intros y _.
      simpl. by rewrite length_fmap, length_range.
  - split.
    + unfold initial_collapsed. by rewrite length_fmap, length_range.
    + unfold initial_collapsed. apply Forall_fmap, Forall_forall. intros y _.
      simpl. by rewrite length_replicate.
  - by intros i j s ->%lookup2_initial_possibilities.
  - by intros Hne i j s ->%lookup2_initial_possibilities.
  - by intros i j ?%lookup2_initial_collapsed.
  - by intros _ d i j i' j' t s' _ ?%lookup2_initial_collapsed.
Qed.

Lemma wp_reseed s g (Q : res unit → list event → Prop) :
  Q (Ok tt) [] → wp (reseed rng seed_rng s) g Q.
Proof. done. Qed.

(** What a run of [generate] leaves behind: well-formed writes, and on
    success a fully collapsed, well-formed state from which the grid was
    read. *)
Lemma generate_spec seed g :
  wp (generate rng genrand_res53 seed_rng self width height seed) g (fun r l =>
    Forall nonempty_write l ∧
    Forall (on_unresolved width height (initial_collapsed width height)) l ∧
    collapse_final l ∧
    match r with
    | Ok (ReturnGrid grid) =>
        ∃ p c, solver_inv self width height p c ∧ _is_fully_collapsed c = true ∧
               final_grid p width height = Ok grid
    | Ok (ReturnNone_Contradiction _ _) => True
    | Ok (ReturnNone_MaxIterations n) => n = width * height * 100
    | Raise _ => True
    | Timeout => False
    end).
Proof.
  unfold generate. apply wp_bind.
  assert (∀ Q : res unit → list event → Prop, Q (Ok tt) [] →
            wp (match seed with Some s => reseed rng seed_rng s | None => mret tt end) g Q)
    as Hseed by (intros Q HQ; by destruct seed).
  apply Hseed. intros g0. apply wp_bind.
  eapply wp_mono; [apply main_loop_spec; [done|apply solver_inv_initial|lia]|].
  simpl. intros [[e|ex]|e|] l (Hl1 & Hl2 & Hl3 & Hr); try done.
  - destruct Hr as (Hinv & Hit & Hend). intros g1. unfold after_loop.
    destruct (Z.leb_spec (width * height * 100) (end_iterations e)) as [Hcap|Hcap].
    + apply wp_ret. by rewrite app_nil_r.
    + apply wp_bind, wp_lift.
      destruct (final_grid _ _ _) as [grid| |] eqn:Hgrid.
      * intros g2. apply wp_ret. simpl. rewrite app_nil_r. split_and!; [done..|].
        exists (end_possibilities e), (end_collapsed e). split_and!; [done| |done].
        destruct Hend as [?|[?|(i & j & Hempty)]]; [done|lia|exfalso].
        apply final_grid_Ok in Hgrid as [Hshape Hcells].
        destruct Hinv as [Hsp _ _ _ _ _].
        pose proof (proj1 (shape_lookup2 _ _ _ i j Hsp) ltac:(by eexists)) as Hij.
        apply (shape_lookup2 _ _ _ i j Hshape) in Hij as [v Hv].
        destruct (Hcells _ _ _ Hv) as (s & Hs & Hvs). rewrite Hempty in Hs.
        apply (inj Some) in Hs as <-. by apply not_elem_of_empty in Hvs.
      * by rewrite app_nil_r.
      * exfalso. revert Hgrid. unfold final_grid. clear.
        generalize (end_possibilities e). intros p H.
        assert (∀ {A B} (f : A → res B) l,
                  (∀ a, f a ≠ Timeout) → comprehension f l ≠ Timeout) as Hc.
        { intros A B f l Hf. induction l as [|a l IH]; simpl; [done|].
          destruct (f a) eqn:Hfa; simpl; [|done|by apply Hf in Hfa].
          by destruct (comprehension f l). }
        revert H. apply Hc. intros y. apply Hc. intros x.
        destruct (get2 p y x) as [s| |] eqn:Hs; simpl;
          [apply py_index_outcome|done|by apply get2_outcome in Hs].
  - intros g1. apply wp_ret. rewrite app_nil_r. split_and!; [done..|].
    by destruct Hr as (x & y & ->).
Qed.

End Generate.

(** ** Generators built by [WFCGenerator.__init__] *)

Lemma init_Ok data self :
  WFCGenerator_init data = Ok self →
  tile_by_id self = index_by_id (tiles self) ∧
  _compute_adjacency_rules (tiles self) = Ok (adjacency_rules self) ∧
  ∃ defs, cd_tiles data = Some defs ∧
          Forall2 (fun d t => Tile_init d = Ok t) defs (tiles self).
Proof.
  unfold WFCGenerator_init.
  intros (info & _ & (defs & Hdefs & (ts & Hts & (rules & Hrules & [= <-])%res_bind_Ok)
                        %res_bind_Ok)%res_bind_Ok)%res_bind_Ok.
  simpl. split_and!; [done|done|]. exists defs. split.
  - by destruct (cd_tiles data) as [?|]; [injection Hdefs as ->|].
  - by apply comprehension_Ok.
Qed.

Lemma init_outcome data : key_error_only (WFCGenerator_init data).
Proof.
  unfold WFCGenerator_init.
  apply key_error_only_bind; [apply key_error_only_required|]. intros info _.
  apply key_error_only_bind; [apply key_error_only_required|]. intros defs _.
  apply key_error_only_bind.
  { apply key_error_only_comprehension. intros d. unfold Tile_init.
    apply key_error_only_bind; [apply key_error_only_required|]. intros ? _.
    apply key_error_only_bind; [apply key_error_only_required|]. intros ? _.
    apply key_error_only_bind; [apply key_error_only_required|]. done. }
  intros ts _. apply key_error_only_bind; [|done].
  apply key_error_only_for_each. intros A rules.
  apply key_error_only_for_each. intros B rules'.
  apply key_error_only_for_each. intros d rules''.
  unfold connect_step. apply key_error_only_bind; [apply key_error_only_can_connect|].
  by intros [].
Qed.

Section Built.
Variable self : WFCGenerator.
Hypothesis rules_built : _compute_adjacency_rules (tiles self) = Ok (adjacency_rules self).

Lemma built_can_connect A B d :
  A ∈ tiles self → B ∈ tiles self → ∃ c, can_connect A B d = Ok c.
Proof.
  intros HA HB. destruct (rules_loop _ _ _ _ rules_built) as (_ & Hok & _). eauto.
Qed.

Lemma built_domain i e :
  adjacency_rules self !! i = Some e → ∃ A, A ∈ tiles self ∧ tile_id A = i.
Proof.
  intros He. destruct (rules_loop _ _ _ _ rules_built) as (Hother & _ & _).
  destruct (decide (i ∈ tile_id <$> tiles self)) as [Hin|Hnin].
  - apply list_elem_of_fmap in Hin as (A & -> & HA). eauto.
  - rewrite Hother in He by done. by rewrite lookup_empty in He.
Qed.

Hypothesis unique_ids : NoDup (tile_id <$> tiles self).

Lemma built_entry A :
  A ∈ tiles self →
  ∃ e, adjacency_rules self !! tile_id A = Some e ∧
       ∀ d t, t ∈ ns_get d e ↔ linked A d t (tiles self).
Proof.
  intros HA. destruct (rules_loop _ _ _ _ rules_built) as (_ & _ & Hentries). eauto.
Qed.

Lemma unique_tile A B : A ∈ tiles self → B ∈ tiles self → tile_id A = tile_id B → A = B.
Proof.
  intros [i Hi]%list_elem_of_lookup_1 [j Hj]%list_elem_of_lookup_1 Heq.
  assert (i = j) as ->; [|congruence].
  eapply NoDup_lookup; [exact unique_ids| |].
  - rewrite list_lookup_fmap, Hi. done.
  - rewrite list_lookup_fmap, Hj. simpl. by rewrite Heq.
Qed.

Lemma built_member A B d :
  A ∈ tiles self → B ∈ tiles self →
  ∃ e, adjacency_rules self !! tile_id A = Some e ∧
       (tile_id B ∈ ns_get d e ↔ can_connect A B d = Ok true).
Proof.
  intros HA HB. destruct (built_entry A HA) as (e & He & Hmem).
  exists e. split; [done|]. rewrite Hmem. split.
  - intros (B' & HB' & Hid & Hcc). by rewrite <- (unique_tile _ _ HB' HB Hid).
  - intros Hcc. by exists B.
Qed.

Lemma built_symmetric : table_symmetric self.
Proof.
  intros a b d eb Hb Ha.
  destruct (built_domain _ _ Hb) as (B & HB & <-).
  destruct (built_entry B HB) as (eb' & Hb' & Hmem). rewrite Hb in Hb'.
  injection Hb' as <-. apply Hmem in Ha as (A & HA & <- & Hcc).
  rewrite can_connect_opposite in Hcc.
  destruct (built_member A B d HA HB) as (ea & Hea & Hiff).
  exists ea. split; [done|]. by apply Hiff.
Qed.

End Built.

Lemma for_each_Ok_intro {A S} (l : list A) (body : A → S → res S) s :
  (∀ a s', a ∈ l → ∃ s'', body a s' = Ok s'') → ∃ s', for_each l body s = Ok s'.
Proof.
  revert s. induction l as [|a l IH]; intros s Hbody; simpl; [eauto|].
  destruct (Hbody a s) as [s1 ->]; [apply elem_of_cons; by left|]. simpl.
  apply IH. intros a' s' Ha'. apply Hbody, elem_of_cons. by right.
Qed.

Lemma comprehension_Ok_intro {A B} (f : A → res B) l (P : B → Prop) :
  (∀ a, a ∈ l → ∃ b, f a = Ok b ∧ P b) →
  ∃ bs, comprehension f l = Ok bs ∧ Forall P bs.
Proof.
  induction l as [|a l IH]; intros Hf; simpl; [by exists []|].
  destruct (Hf a) as (b & -> & Hb); [apply elem_of_cons; by left|]. simpl.
  destruct IH as (bs & -> & Hbs).
  { intros a' Ha'. apply Hf, elem_of_cons. by right. }
  simpl. exists (b :: bs). split; [done|]. by constructor.
Qed.

Lemma init_complete data : complete data → ∃ self, WFCGenerator_init data = Ok self.
Proof.
  intros [[info Hinfo] (defs & Hdefs & Hall)]. unfold WFCGenerator_init.
  rewrite Hinfo, Hdefs. simpl.
  destruct (comprehension_Ok_intro Tile_init defs
              (fun t => ∀ d, is_Some (tile_edges t !! dir_key d))) as (ts & -> & Hts).
  { intros td Htd. rewrite Forall_forall in Hall.
    destruct (Hall _ Htd) as ([i Hi] & [n Hn] & e & He & Hlabels).
    unfold Tile_init. rewrite Hi, Hn, He. simpl. eauto. }
  simpl. rewrite Forall_forall in Hts. unfold _compute_adjacency_rules.
  destruct (for_each_Ok_intro ts (rules_for_tile ts) ∅) as [rules ->]; [|simpl; eauto].
  intros A rules HA. apply for_each_Ok_intro. intros B rules' HB.
  apply for_each_Ok_intro. intros d rules'' _. unfold connect_step, can_connect, getitem.
  destruct (Hts _ HA d) as [e1 ->]. destruct (Hts _ HB (opposite d)) as [e2 ->]. simpl.
  destruct (bool_decide (e1 = e2)); eauto.
Qed.

(** ** Properties of the catalog *)

Lemma wp_result_writes {rng A} (m : M rng A) g (Q : res A → list event → Prop) :
  wp m g Q → Q (result (m g)) (writes (m g)).
Proof. done. Qed.

(** C4. Compatibility is symmetric under [opposite]: for tiles A and B of a
    built catalog with unique identifiers (A = B included) and every
    direction d, A connects to B in direction d exactly when B connects to A
    in the opposite direction; and B is in rules[A][d] exactly when A
    connects to B in direction d, hence exactly when A is in
    rules[B][opposite d]. *)
Theorem adjacency_symmetric data self A B d :
  WFCGenerator_init data = Ok self →
  NoDup (tile_id <$> tiles self) →
  A ∈ tiles self → B ∈ tiles self →
  (∃ c, can_connect A B d = Ok c ∧ can_connect B A (opposite d) = Ok c) ∧
  ∃ eA eB,
    adjacency_rules self !! tile_id A = Some eA ∧
    adjacency_rules self !! tile_id B = Some eB ∧
    (tile_id B ∈ ns_get d eA ↔ can_connect A B d = Ok true) ∧
    (tile_id B ∈ ns_get d eA ↔ tile_id A ∈ ns_get (opposite d) eB).
Proof.
  intros (_ & Hrules & _)%init_Ok Hnd HA HB. split.
  - destruct (built_can_connect self Hrules A B d HA HB) as [c Hc].
    exists c. by rewrite can_connect_opposite.
  - destruct (built_member self Hrules Hnd A B d HA HB) as (eA & HeA & HiffA).
    destruct (built_member self Hrules Hnd B A (opposite d) HB HA) as (eB & HeB & HiffB).
    exists eA, eB. split_and!; [done..|].
    by rewrite HiffA, HiffB, can_connect_opposite.
Qed.

Lemma adjacency_symmetric_witness :
  (∃ c, can_connect grass_tile water_tile north = Ok c ∧
        can_connect water_tile grass_tile (opposite north) = Ok c) ∧
  ∃ eA eB,
    adjacency_rules (generator_of grass_water) !! tile_id grass_tile = Some eA ∧
    adjacency_rules (generator_of grass_water) !! tile_id water_tile = Some eB ∧
    (tile_id water_tile ∈ ns_get north eA ↔
     can_connect grass_tile water_tile north = Ok true) ∧
    (tile_id water_tile ∈ ns_get north eA ↔
     tile_id grass_tile ∈ ns_get (opposite north) eB).
Proof.
  apply (adjacency_symmetric grass_water (generator_of grass_water)
           grass_tile water_tile north).
  - vm_compute. reflexivity.
  - apply (bool_decide_unpack _). vm_compute. reflexivity.
  - vm_compute. apply elem_of_cons. by left.
  - vm_compute. apply elem_of_cons. right. apply elem_of_cons. by left.
Defined.

Lemma init_Ok_complete data self : WFCGenerator_init data = Ok self → complete data.
Proof.
  intros Hinit. pose proof (init_Ok _ _ Hinit) as (_ & Hrules & defs & Hdefs & Hts).
  split.
  - unfold WFCGenerator_init in Hinit. by destruct (cd_tileset data).
  - exists defs. split; [done|]. apply Forall_forall. intros td Htd.
    apply list_elem_of_lookup_1 in Htd as [n Hn].
    destruct (Forall2_lookup_l _ _ _ _ _ Hts Hn) as (T & HT & Hinit_T).
    apply list_elem_of_lookup_2 in HT.
    unfold Tile_init in Hinit_T. unfold complete_tile.
    destruct (td_id td) as [i|]; [|done]. destruct (td_name td) as [nm|]; [|done].
    destruct (td_edges td) as [e|]; [|done]. simpl in Hinit_T. injection Hinit_T as <-.
    split_and!; [by eexists|by eexists|]. exists e. split; [done|]. intros d.
    destruct (built_can_connect self Hrules _ _ d HT HT) as [c Hc].
    apply can_connect_Ok in Hc as (e1 & _ & He1 & _). by exists e1.
Qed.

Lemma missing_label_incomplete data defs td d :
  cd_tiles data = Some defs → td ∈ defs →
  td_edges td ≫= (.!! dir_key d) = None → ¬ complete data.
Proof.
  intros Hdefs Htd Hmiss (_ & defs' & Hdefs' & Hall).
  rewrite Hdefs in Hdefs'. injection Hdefs' as <-.
  rewrite Forall_forall in Hall. destruct (Hall _ Htd) as (_ & _ & e & He & Hd).
  rewrite He in Hmiss. simpl in Hmiss. destruct (Hd d) as [? ?]. congruence.
Qed.

(** C7, as the code has it.  Catalog construction succeeds exactly when the
    document has every key [__init__] reads (tileset, tiles, and for each
    tile its id, name, edges and the four direction labels), and otherwise
    fails eagerly with [KeyError] without yielding a generator.  Identifiers
    and weights are not inspected. *)
Theorem catalog_construction_outcome data :
  (complete data ∧ ∃ self, WFCGenerator_init data = Ok self) ∨
  (¬ complete data ∧ WFCGenerator_init data = Raise KeyError).
Proof.
  pose proof (init_outcome data) as Hout.
  destruct (WFCGenerator_init data) as [self|e|] eqn:Hinit; simpl in Hout; [| |done].
  - left. split; [by eapply init_Ok_complete|by exists self].
  - right. subst e. split; [|done]. intros (self & Hself)%init_complete. congruence.
Qed.

(** C7 fails as stated: a catalog with two tiles of the same identifier, and
    one with weights 0 and -1, are both constructed. *)
Lemma duplicate_ids_and_bad_weights_accepted :
  (tile_id <$> tiles (generator_of duplicate_ids_catalog) = [1; 1] ∧
   WFCGenerator_init duplicate_ids_catalog = Ok (generator_of duplicate_ids_catalog)) ∧
  (tile_weight <$> tiles (generator_of zero_weight_catalog) = [0%Q; (-1)%Q] ∧
   WFCGenerator_init zero_weight_catalog = Ok (generator_of zero_weight_catalog)).
Proof. vm_compute. done. Qed.

(** ** Properties of the solver *)

Section Claims.
Context {rng : Type}.
Variable genrand_res53 : rng → N * rng.
Variable seed_rng : Z → rng.

(** The fuel of the model always suffices: a run ends by returning or by
    raising. *)
Lemma generate_terminates data self width height seed g :
  WFCGenerator_init data = Ok self →
  result (generate rng genrand_res53 seed_rng self width height seed g) ≠ Timeout.
Proof.
  intros (Hbuilt & _ & _)%init_Ok Hrun.
  pose proof (wp_result_writes _ _ _
                (generate_spec genrand_res53 seed_rng self width height Hbuilt seed g))
    as (_ & _ & _ & Hpost).
  by rewrite Hrun in Hpost.
Qed.

(** C1. Validity: in a grid that [generate] returns, for a catalog with
    unique identifiers, the tiles of any two horizontally or vertically
    adjacent cells connect: the first tile's edge label towards the
    neighbour equals the neighbour's label on the opposite edge. *)
Theorem generate_valid data self width height seed g grid d i j i' j' a b :
  WFCGenerator_init data = Ok self →
  NoDup (tile_id <$> tiles self) →
  result (generate rng genrand_res53 seed_rng self width height seed g)
    = Ok (ReturnGrid grid) →
  adjacent d i j i' j' →
  lookup2 grid i j = Some a → lookup2 grid i' j' = Some b →
  ∃ A B, tile_by_id self !! a = Some A ∧ tile_by_id self !! b = Some B ∧
         can_connect A B d = Ok true.
Proof.
  intros (Hbuilt & Hrules & _)%init_Ok Hnd Hrun Hadj Ha Hb.
  pose proof (wp_result_writes _ _ _
                (generate_spec genrand_res53 seed_rng self width height Hbuilt seed g))
    as (_ & _ & _ & Hpost).
  rewrite Hrun in Hpost. destruct Hpost as (p & c & Hinv & Hfull & Hgrid).
  apply final_grid_Ok in Hgrid as [_ Hcells].
  destruct (Hcells _ _ _ Ha) as (sa & Hsa & Hina).
  destruct (Hcells _ _ _ Hb) as (sb & Hsb & Hinb).
  destruct Hinv as [Hsp Hsc Hids _ Hsing Hadjacent].
  assert (lookup2 c i j = Some true) as Hca.
  { pose proof (proj1 (shape_lookup2 _ _ _ i j Hsp) ltac:(by eexists)) as Hij.
    apply (shape_lookup2 _ _ _ i j Hsc) in Hij as [bb Hbb].
    by rewrite (fully_collapsed_true _ _ _ _ Hfull Hbb) in Hbb. }
  destruct (Hsing _ _ Hca) as (t & Ht). rewrite Hsa in Ht. apply (inj Some) in Ht as ->.
  apply elem_of_singleton in Hina as ->.
  destruct (Hadjacent (built_symmetric self Hrules Hnd) _ _ _ _ _ _ _
              Hadj Hca Hsa Hsb b Hinb) as (t' & e & ->%elem_of_singleton & He & Hbe).
  destruct (built_domain self Hrules _ _ He) as (A & HA & <-).
  destruct (built_entry self Hrules Hnd A HA) as (e' & He' & Hmem).
  rewrite He in He'. injection He' as <-.
  apply Hmem in Hbe as (B & HB & <- & Hcc).
  exists A, B. rewrite Hbuilt. split_and!; [by apply index_by_id_lookup..|done].
Qed.

(** C2. Totality: a grid that [generate] returns has [height] rows of [width]
    cells (row-major: the row index comes first), and every cell holds the
    identifier of a tile of the catalog. *)
Theorem generate_total data self width height seed g grid :
  WFCGenerator_init data = Ok self →
  result (generate rng genrand_res53 seed_rng self width height seed g)
    = Ok (ReturnGrid grid) →
  length grid = Z.to_nat height ∧
  Forall (fun row => length row = Z.to_nat width ∧
                     Forall (fun v => ∃ T, T ∈ tiles self ∧ tile_id T = v) row) grid.
Proof.
  intros (Hbuilt & _ & _)%init_Ok Hrun.
  pose proof (wp_result_writes _ _ _
                (generate_spec genrand_res53 seed_rng self width height Hbuilt seed g))
    as (_ & _ & _ & Hpost).
  rewrite Hrun in Hpost. destruct Hpost as (p & c & Hinv & _ & Hgrid).
  apply final_grid_Ok in Hgrid as [[Hlen Hrows] Hcells]. split; [done|].
  apply Forall_lookup. intros i row Hrow. split.
  - by apply (proj1 (Forall_lookup _ _) Hrows i row).
  - apply Forall_lookup. intros j v Hv.
    destruct (Hcells i j v) as (s & Hs & Hin).
    { unfold lookup2. by rewrite Hrow. }
    apply (inv_ids _ _ _ _ _ Hinv) in Hs. apply Hs in Hin.
    unfold all_tile_ids in Hin. apply elem_of_list_to_set in Hin.
    apply list_elem_of_fmap in Hin as (T & -> & HT). eauto.
Qed.

(** With an explicit seed [generate] starts with [random.seed(seed)], so the
    state the [random] module was in before the call plays no part in the
    run.  What two runs in two interpreters may still differ in (the order in
    which a set is iterated, binary64 arithmetic) lies outside the model. *)
Remark seeded_run_ignores_prior_state self width height seed g1 g2 :
  generate rng genrand_res53 seed_rng self width height (Some seed) g1 =
  generate rng genrand_res53 seed_rng self width height (Some seed) g2.
Proof. reflexivity. Qed.

(** C8. The main loop is capped.  Run with a cap [max_iterations] from any
    well-formed state, it makes at most [max_iterations - iterations]
    further iterations, its counter never exceeds the cap, and when the
    counter has reached the cap at the end of the loop the rest of
    [generate] returns [None] through the "Max iterations reached" exit and
    builds no grid, whether or not every cell is collapsed.  [generate] runs
    this loop from the counter 0 with the cap [width * height * 100]: when
    its loop ends with the counter at that cap, the call returns [None]
    through the same exit. *)
Theorem main_loop_iteration_cap data self width height max_iterations p c iterations g
    seed g0 :
  WFCGenerator_init data = Ok self →
  solver_inv self width height p c →
  let loop := main_loop rng genrand_res53 self (Z.to_nat (max_iterations - iterations))
                width height max_iterations p c iterations g in
  let cap := width * height * 100 in
  let loop0 := main_loop rng genrand_res53 self (Z.to_nat cap) width height cap
                 (initial_possibilities self width height)
                 (initial_collapsed width height) 0
                 match seed with Some s => seed_rng s | None => g0 end in
  (result loop ≠ Timeout ∧
   ∀ e, result loop = Ok (Next e) →
        iterations ≤ end_iterations e ≤ Z.max iterations max_iterations ∧
        (max_iterations ≤ end_iterations e →
         ∀ g', after_loop rng width height max_iterations e g' =
               (Ok (ReturnNone_MaxIterations max_iterations), g', []))) ∧
  (∀ e, result loop0 = Ok (Next e) → cap ≤ end_iterations e →
        result (generate rng genrand_res53 seed_rng self width height seed g0)
          = Ok (ReturnNone_MaxIterations cap) ∧
        returned (ReturnNone_MaxIterations cap) = None).
Proof.
  intros (Hbuilt & _ & _)%init_Ok Hinv loop cap loop0.
  assert (∀ m e g', m ≤ end_iterations e →
            after_loop rng width height m e g' = (Ok (ReturnNone_MaxIterations m), g', []))
    as Hafter.
  { intros m e g' Hm. unfold after_loop.
    by destruct (Z.leb_spec m (end_iterations e)); [|lia]. }
  split.
  - pose proof (wp_result_writes _ _ _
      (main_loop_spec genrand_res53 self width height Hbuilt max_iterations
         (Z.to_nat (max_iterations - iterations)) p c iterations g Hinv ltac:(lia)))
      as (_ & _ & _ & Hpost).
    fold loop in Hpost. split.
    + intros Ht. by rewrite Ht in Hpost.
    + intros e He. rewrite He in Hpost. destruct Hpost as (_ & Hit & _).
      split; [done|]. intros Hcap g'. by apply Hafter.
  - intros e He Hcap. split; [|done].
    unfold generate, result, mbind, M_bind. fold cap.
    assert ((match seed with Some s => reseed rng seed_rng s | None => mret tt end) g0
            = (Ok tt, match seed with Some s => seed_rng s | None => g0 end, []))
      as -> by (by destruct seed).
    fold loop0. unfold result in He. destruct loop0 as [[r g1] l]. simpl in He. subst r.
    by rewrite Hafter.
Qed.

(** C9. The noise added to an entropy is less than one, and the cell that
    [_find_min_entropy_cell] selects is unresolved and has the smallest
    number of candidates of all unresolved cells. *)
Theorem find_min_entropy_cell_minimal possibilities collapsed g y x :
  result (_find_min_entropy_cell rng genrand_res53 possibilities collapsed g)
    = Ok (Some (y, x)) →
  (∀ g', ∃ r, result (random rng genrand_res53 g') = Ok r ∧
              (0 <= r * (1 # 10) < 1)%Q) ∧
  get2 collapsed y x = Ok false ∧
  ∃ s, get2 possibilities y x = Ok s ∧
       ∀ y' x', in_scan possibilities y' x' → get2 collapsed y' x' = Ok false →
                ∃ s', get2 possibilities y' x' = Ok s' ∧ (size s ≤ size s')%nat.
Proof.
  intros Hrun. split.
  - intros g'. unfold random, result. destruct (genrand_res53 g') as [k g'']. simpl.
    eexists. split; [done|]. pose proof (random_range_raw k). lra.
  - pose proof (wp_result_writes _ _ _
      (find_min_entropy_cell_spec genrand_res53 possibilities collapsed g)) as [_ Hpost].
    rewrite Hrun in Hpost. destruct Hpost as (_ & Hc & s & Hs & _ & Hmin). eauto.
Qed.

End Claims.

(** ** Running the solver on concrete catalogs

    The draws stay symbolic: every step that does not depend on a draw is
    computed, and a comparison that depends on one is split in two cases. *)

Section Runs.
Context {rng : Type}.
Variable genrand_res53 : rng → N * rng.
Variable seed_rng : Z → rng.

Lemma main_loop_unfold self fuel width height max_iterations p c iterations :
  main_loop rng genrand_res53 self (S fuel) width height max_iterations p c iterations =
  if negb (_is_fully_collapsed c) && (iterations <? max_iterations) then
    min_cell ← _find_min_entropy_cell rng genrand_res53 p c;
    match min_cell with
    | None =>
        mret (Next {| end_possibilities := p; end_collapsed := c;
                      end_iterations := iterations + 1 |})
    | Some (y, x) =>
        cell ← lift (get2 p y x);
        chosen_tile ← _collapse_cell rng genrand_res53 self cell;
        p ← lift (set2 p y x {[chosen_tile]});
        _ ← emit (SetPossibilities y x {[chosen_tile]});
        c ← lift (set2 c y x true);
        _ ← emit (SetCollapsed y x);
        '(ok, p) ← _propagate rng self p c x y width height;
        if ok : bool then
          main_loop rng genrand_res53 self fuel width height max_iterations p c
            (iterations + 1)
        else mret (Return (ReturnNone_Contradiction x y))
    end
  else mret (Next {| end_possibilities := p; end_collapsed := c;
                     end_iterations := iterations |}).
Proof. reflexivity. Qed.

Lemma wp_lift_eq {A} (r r' : res A) g (Q : res A → list event → Prop) :
  r = r' → Q r' [] → wp (lift r : M rng A) g Q.
Proof. by intros ->. Qed.

Lemma wp_if_eq {A} (b b' : bool) (m1 m2 : M rng A) g (Q : res A → list event → Prop) :
  b = b' → wp (if b' then m1 else m2) g Q → wp (if b then m1 else m2) g Q.
Proof. by intros ->. Qed.

Lemma wp_for_loop_eq {A S R} (l l' : list A) (body : A → S → M rng (flow S R)) s g Q :
  l = l' → wp (for_loop l' body s) g Q → wp (for_loop l body s) g Q.
Proof. by intros ->. Qed.

Lemma wp_eq {A} (m : M rng A) g x (Q : res A → list event → Prop) :
  m g = x → Q x.1.1 x.2 → wp m g Q.
Proof. intros <-. done. Qed.

Lemma bisect_one cum x : bisect cum x 0 0 = Ok 0.
Proof. reflexivity. Qed.

Lemma bisect_two a1 a2 x : bisect [a1; a2] x 0 1 = Ok (if Qltb x a1 then 0 else 1).
Proof. unfold bisect. simpl. by destruct (Qltb x a1). Qed.

Lemma wp_bisect_eq (c c' : list Q) x (hi hi' : Z) g (Q : res Z → list event → Prop) :
  c = c' → hi = hi' →
  wp (lift (bisect c' x 0 hi') : M rng Z) g Q → wp (lift (bisect c x 0 hi) : M rng Z) g Q.
Proof. by intros -> ->. Qed.

Ltac wp_step :=
  lazymatch goal with
  | |- wp (mbind _ _) _ _ => apply wp_bind
  | |- wp (lift (bisect ?c ?x 0 ?hi)) _ _ =>
      let c' := eval vm_compute in c in
      let hi' := eval vm_compute in hi in
      apply (wp_bisect_eq c c' x hi hi'); [vm_compute; reflexivity..|];
      first [rewrite bisect_one | rewrite bisect_two]
  | |- wp (lift ?r) _ _ =>
      lazymatch r with
      | context [Qltb ?x ?y] => destruct (Qltb x y) eqn:?
      | _ =>
        let v := eval vm_compute in r in
        apply (wp_lift_eq r v); [vm_compute; reflexivity|]; cbv beta iota
      end
  | |- wp (mret _) _ _ => apply wp_ret; cbv beta iota
  | |- wp (random _ _) _ _ => apply wp_random; intros ?r ?Hr; cbv beta iota
  | |- wp (emit _) _ _ => apply wp_emit; cbv beta iota
  | |- wp (for_loop ?l _ _) _ _ =>
      let v := eval vm_compute in l in
      apply (wp_for_loop_eq l v); [vm_compute; reflexivity|]; cbn [for_loop]
  | |- wp (scan_cell _ _ _ _ _ _ _) _ _ => unfold scan_cell at 1
  | |- wp (_find_min_entropy_cell _ _ _ _) _ _ => unfold _find_min_entropy_cell at 1
  | |- wp (_collapse_cell _ _ _ _) _ _ => unfold _collapse_cell at 1
  | |- wp (choices _ _ _ _) _ _ => unfold choices at 1; cbv zeta
  | |- wp (main_loop _ _ _ (S _) _ _ _ _ _ _) _ _ => rewrite main_loop_unfold
  | |- wp (_propagate ?a1 ?a2 ?a3 ?a4 ?a5 ?a6 ?a7 ?a8) ?g _ =>
      let v := eval vm_compute in (_propagate a1 a2 a3 a4 a5 a6 a7 a8 g) in
      apply (wp_eq _ g v); [vm_compute; reflexivity|]; cbn [fst snd]
  | |- wp (if ?b then _ else _) _ _ =>
      lazymatch b with
      | context [below _ (Some _, _).1] => destruct b eqn:?
      | context [Qltb _ _] => destruct b eqn:?
      | _ =>
        let v := eval vm_compute in b in
        lazymatch v with
        | true => apply (wp_if_eq b true); [vm_compute; reflexivity|]
        | false => apply (wp_if_eq b false); [vm_compute; reflexivity|]
        end; cbv iota
      end
  | |- wp (match ?x with _ => _ end) _ _ => progress (cbn [fst snd below]; cbv beta iota)
  | |- ∀ _ : rng, _ => intros ?g; cbv beta
  end.

Ltac wp_call lem :=
  eapply wp_mono; [apply lem; auto|]; cbv beta;
  let r := fresh "r" in let l := fresh "l" in let H := fresh "H" in
  intros r l [-> H].

Local Abbreviation gw := (generator_of grass_water).

Lemma scan_one_cell g :
  wp (_find_min_entropy_cell rng genrand_res53 [[ {[0; 1]} ]] [[false]]) g
    (fun r l => l = [] ∧ r = Ok (Some (0, 0))).
Proof. repeat wp_step; auto. Qed.

Lemma scan_two_cells g :
  wp (_find_min_entropy_cell rng genrand_res53 [[ {[0; 1]}; {[0; 1]} ]] [[false; false]]) g
    (fun r l => l = [] ∧ (r = Ok (Some (0, 0)) ∨ r = Ok (Some (0, 1)))).
Proof. repeat wp_step; auto. Qed.

Lemma scan_right_cell a g :
  a = 0 ∨ a = 1 →
  wp (_find_min_entropy_cell rng genrand_res53 [[ {[a]}; {[a]} ]] [[true; false]]) g
    (fun r l => l = [] ∧ r = Ok (Some (0, 1))).
Proof. intros [->| ->]; repeat wp_step; auto. Qed.

Lemma scan_left_cell a g :
  a = 0 ∨ a = 1 →
  wp (_find_min_entropy_cell rng genrand_res53 [[ {[a]}; {[a]} ]] [[false; true]]) g
    (fun r l => l = [] ∧ r = Ok (Some (0, 0))).
Proof. intros [->| ->]; repeat wp_step; auto. Qed.

Lemma collapse_both g :
  wp (_collapse_cell rng genrand_res53 gw {[0; 1]}) g
    (fun r l => l = [] ∧ (r = Ok 0 ∨ r = Ok 1)).
Proof. repeat wp_step; auto. Qed.

Lemma collapse_single a g :
  a = 0 ∨ a = 1 →
  wp (_collapse_cell rng genrand_res53 gw {[a]}) g (fun r l => l = [] ∧ r = Ok a).
Proof. intros [-> | ->]; repeat wp_step; auto. Qed.

Lemma loop_right a g :
  a = 0 ∨ a = 1 →
  wp (main_loop rng genrand_res53 gw 199 2 1 200 [[ {[a]}; {[a]} ]] [[true; false]] 1) g
    (fun r _ => r = Ok (Next {| end_possibilities := [[ {[a]}; {[a]} ]];
                                end_collapsed := [[true; true]];
                                end_iterations := 2 |})).
Proof.
  intros Ha. do 3 wp_step. wp_call scan_right_cell. subst r. cbv beta iota. intros g1.
  assert (get2 [[ ({[a]} : gset Z); {[a]} ]] 0 1 = Ok {[a]}) as Hget by done.
  wp_step. apply (wp_lift_eq _ _ _ _ Hget). intros g2.
  wp_step. wp_call collapse_single. subst r. cbv beta iota. intros g3.
  destruct Ha as [-> | ->]; repeat wp_step; reflexivity.
Qed.

Lemma loop_left a g :
  a = 0 ∨ a = 1 →
  wp (main_loop rng genrand_res53 gw 199 2 1 200 [[ {[a]}; {[a]} ]] [[false; true]] 1) g
    (fun r _ => r = Ok (Next {| end_possibilities := [[ {[a]}; {[a]} ]];
                                end_collapsed := [[true; true]];
                                end_iterations := 2 |})).
Proof.
  intros Ha. do 3 wp_step. wp_call scan_left_cell. subst r. cbv beta iota. intros g1.
  assert (get2 [[ ({[a]} : gset Z); {[a]} ]] 0 0 = Ok {[a]}) as Hget by done.
  wp_step. apply (wp_lift_eq _ _ _ _ Hget). intros g2.
  wp_step. wp_call collapse_single. subst r. cbv beta iota. intros g3.
  destruct Ha as [-> | ->]; repeat wp_step; reflexivity.
Qed.

Lemma loop_2x1 g :
  wp (main_loop rng genrand_res53 gw 200 2 1 200
        [[ {[0; 1]}; {[0; 1]} ]] [[false; false]] 0) g
    (fun r _ => ∃ a, (a = 0 ∨ a = 1) ∧
       r = Ok (Next {| end_possibilities := [[ {[a]}; {[a]} ]];
                       end_collapsed := [[true; true]]; end_iterations := 2 |})).
Proof.
  do 3 wp_step. wp_call scan_two_cells.
  destruct H as [-> | ->]; cbv beta iota; intros g1.
  - do 4 wp_step. wp_call collapse_both.
    destruct H as [-> | ->]; cbv beta iota; intros g3; do 15 wp_step.
    + eapply wp_mono; [apply (loop_right 0); auto|]. cbv beta. intros r _ ->. eauto.
    + eapply wp_mono; [apply (loop_right 1); auto|]. cbv beta. intros r _ ->. eauto.
  - do 4 wp_step. wp_call collapse_both.
    destruct H as [-> | ->]; cbv beta iota; intros g3; do 15 wp_step.
    + eapply wp_mono; [apply (loop_left 0); auto|]. cbv beta. intros r _ ->. eauto.
    + eapply wp_mono; [apply (loop_left 1); auto|]. cbv beta. intros r _ ->. eauto.
Qed.

Lemma loop_1x1 g :
  wp (main_loop rng genrand_res53 gw 100 1 1 100 [[ {[0; 1]} ]] [[false]] 0) g
    (fun r _ => ∃ a, (a = 0 ∨ a = 1) ∧
       r = Ok (Next {| end_possibilities := [[ {[a]} ]];
                       end_collapsed := [[true]]; end_iterations := 1 |})).
Proof.
  do 3 wp_step. wp_call scan_one_cell. subst r. cbv beta iota. intros g1.
  do 4 wp_step. wp_call collapse_both.
  destruct H as [-> | ->]; cbv beta iota; intros g3; repeat wp_step; eauto.
Qed.

Lemma wp_seed {A} seed (k : unit → M rng A) g (Q : res A → list event → Prop) :
  (∀ g0, wp (k tt) g0 Q) →
  wp (match seed with Some s => reseed rng seed_rng s | None => mret tt end ≫= k) g Q.
Proof.
  intros H. apply wp_bind. destruct seed; simpl; intros g0; eapply wp_mono; eauto.
  all: intros r l HQ; by rewrite ?app_nil_l.
Qed.

Lemma run_2x1 seed g :
  ∃ a, (a = 0 ∨ a = 1) ∧
       result (generate rng genrand_res53 seed_rng gw 2 1 seed g) = Ok (ReturnGrid [[a; a]]).
Proof.
  apply (wp_result_writes (generate rng genrand_res53 seed_rng gw 2 1 seed) g
           (fun r _ => ∃ a, (a = 0 ∨ a = 1) ∧ r = Ok (ReturnGrid [[a; a]]))).
  unfold generate. apply wp_seed. intros g0. cbv zeta. apply wp_bind.
  eapply wp_mono; [apply loop_2x1|]. cbv beta.
  intros r _ (a & Ha & ->). intros g1. unfold after_loop.
  destruct Ha as [-> | ->]; repeat wp_step; eauto.
Qed.

Lemma run_1x1 seed g :
  ∃ a, (a = 0 ∨ a = 1) ∧
       result (generate rng genrand_res53 seed_rng gw 1 1 seed g) = Ok (ReturnGrid [[a]]).
Proof.
  apply (wp_result_writes (generate rng genrand_res53 seed_rng gw 1 1 seed) g
           (fun r _ => ∃ a, (a = 0 ∨ a = 1) ∧ r = Ok (ReturnGrid [[a]]))).
  unfold generate. apply wp_seed. intros g0. cbv zeta. apply wp_bind.
  eapply wp_mono; [apply loop_1x1|]. cbv beta.
  intros r _ (a & Ha & ->). intros g1. unfold after_loop.
  destruct Ha as [-> | ->]; repeat wp_step; eauto.
Qed.

Lemma run_negative seed g :
  result (generate rng genrand_res53 seed_rng gw (-1) (-1) seed g) = Ok (ReturnGrid []).
Proof. by destruct seed. Qed.

End Runs.

(** ** The concrete scenarios *)

(** C3, as the code has it.  With tile A (id 0, edges "grass") and tile B
    (id 1, edges "water"), every run on a 2×1 grid succeeds and returns a
    grid whose two cells hold the same tile, and every run with
    width × height = 1 succeeds. *)
Theorem grass_water_runs {rng} (genrand_res53 : rng → N * rng) (seed_rng : Z → rng)
    seed g :
  (∃ a, (a = 0 ∨ a = 1) ∧
        result (generate rng genrand_res53 seed_rng (generator_of grass_water) 2 1 seed g)
          = Ok (ReturnGrid [[a; a]])) ∧
  (∀ width height, width * height = 1 →
     ∃ grid,
       result (generate rng genrand_res53 seed_rng (generator_of grass_water)
                 width height seed g) = Ok (ReturnGrid grid)).
Proof.
  split; [apply run_2x1|]. intros width height Hwh.
  destruct (Z.eq_mul_1 _ _ Hwh) as [-> | ->].
  - assert (height = 1) as -> by lia.
    destruct (run_1x1 genrand_res53 seed_rng seed g) as (a & _ & Ha). eauto.
  - assert (height = -1) as -> by lia.
    exists []. apply run_negative.
Qed.

Lemma grass_water_runs_witness :
  ∃ grid, result (generate N lcg lcg_seed (generator_of grass_water) 1 1 (Some 2) 0%N)
          = Ok (ReturnGrid grid).
Proof.
  apply (proj2 (grass_water_runs lcg lcg_seed (Some 2) 0%N) 1 1). reflexivity.
Defined.

(** C3 fails as stated: this run on a 2×1 grid returns the grid [[A, A]]
    and does not end in a contradiction. *)
Lemma grass_water_2x1_succeeds :
  result (generate N lcg lcg_seed (generator_of grass_water) 2 1 (Some 1) 0%N)
    = Ok (ReturnGrid [[0; 0]]) ∧
  ¬ ∃ x y, result (generate N lcg lcg_seed (generator_of grass_water) 2 1 (Some 1) 0%N)
           = Ok (ReturnNone_Contradiction x y).
Proof.
  assert (result (generate N lcg lcg_seed (generator_of grass_water) 2 1 (Some 1) 0%N)
          = Ok (ReturnGrid [[0; 0]])) as H by (vm_compute; reflexivity).
  split; [done|]. intros (x & y & Hxy). rewrite H in Hxy. discriminate.
Qed.

(** C6 at the empty catalog: the scan meets an unresolved cell without
    candidates and returns [None]; [generate] then leaves its loop and
    raises [IndexError] while it builds the grid, instead of reporting a
    contradiction at the cell. *)
Theorem empty_cell_not_reported {rng} (genrand_res53 : rng → N * rng)
    (seed_rng : Z → rng) seed g :
  initial_possibilities (generator_of empty_catalog) 1 1 = [[∅]] ∧
  result (_find_min_entropy_cell rng genrand_res53 [[∅]] (initial_collapsed 1 1) g)
    = Ok None ∧
  result (generate rng genrand_res53 seed_rng (generator_of empty_catalog) 1 1 seed g)
    = Raise IndexError.
Proof. split_and!; [done|done|by destruct seed]. Qed.

(** Without a seed the outcome depends on the state the generator is in. *)
Example unseeded_run_depends_on_state :
  result (generate N lcg lcg_seed (generator_of grass_water) 1 1 None 0%N)
    = Ok (ReturnGrid [[1]]) ∧
  result (generate N lcg lcg_seed (generator_of grass_water) 1 1 None 1%N)
    = Ok (ReturnGrid [[0]]).
Proof. vm_compute. done. Qed.

(** A tile without a "west" label stops the construction. *)
Example missing_label_rejected :
  WFCGenerator_init missing_west_catalog = Raise KeyError.
Proof. vm_compute. reflexivity. Qed.

(** The weights 0 and -1 of this catalog are noticed only by the weighted
    draw, which raises [ValueError] in the middle of a run. *)
Example non_positive_weights_fail_late :
  result (generate N lcg lcg_seed (generator_of zero_weight_catalog) 1 1 (Some 5) 0%N)
    = Raise ValueError.
Proof. vm_compute. reflexivity. Qed.

(** ** The theorems at concrete inputs *)

Lemma generate_valid_witness :
  ∃ A B, tile_by_id (generator_of grass_water) !! 0 = Some A ∧
         tile_by_id (generator_of grass_water) !! 0 = Some B ∧
         can_connect A B east = Ok true.
Proof.
  apply (generate_valid lcg lcg_seed grass_water (generator_of grass_water)
           2 1 (Some 1) 0%N [[0; 0]] east 0%nat 0%nat 0%nat 1%nat 0 0).
  - vm_compute. reflexivity.
  - apply (bool_decide_unpack _). vm_compute. reflexivity.
  - vm_compute. reflexivity.
  - simpl. split; reflexivity.
  - reflexivity.
  - reflexivity.
Defined.

Lemma generate_total_witness :
  length [[0; 0]; [0; 0]] = Z.to_nat 2 ∧
  Forall (fun row => length row = Z.to_nat 2 ∧
                     Forall (fun v => ∃ T, T ∈ tiles (generator_of grass_water) ∧
                                           tile_id T = v) row)
         [[0; 0]; [0; 0]].
Proof.
  apply (generate_total lcg lcg_seed grass_water (generator_of grass_water)
           2 2 (Some 3) 0%N [[0; 0]; [0; 0]]).
  - vm_compute. reflexivity.
  - vm_compute. reflexivity.
Defined.

Lemma main_loop_iteration_cap_witness :
  _is_fully_collapsed [[false; false]; [true; true]] = false ∧
  after_loop N 2 2 2
    {| end_possibilities := [[ {[0]}; {[0]} ]; [ {[0]}; {[0]} ]];
       end_collapsed := [[false; false]; [true; true]];
       end_iterations := 2 |} 0%N
  = (Ok (ReturnNone_MaxIterations 2), 0%N, []).
Proof.
  split; [reflexivity|].
  assert (WFCGenerator_init grass_water = Ok (generator_of grass_water)) as Hinit
    by (vm_compute; reflexivity).
  destruct (main_loop_iteration_cap lcg lcg_seed grass_water (generator_of grass_water)
              2 2 2 (initial_possibilities (generator_of grass_water) 2 2)
              (initial_collapsed 2 2) 0 (lcg_seed 1) None 0%N Hinit
              (solver_inv_initial (generator_of grass_water) 2 2)) as [[_ H] _].
  destruct (H {| end_possibilities := [[ {[0]}; {[0]} ]; [ {[0]}; {[0]} ]];
                 end_collapsed := [[false; false]; [true; true]];
                 end_iterations := 2 |}) as [_ H2].
  - vm_compute. reflexivity.
  - apply H2. simpl. lia.
Defined.

Lemma find_min_entropy_cell_minimal_witness :
  get2 [[false; false]] 0 0 = Ok false ∧
  ∃ s, get2 [[ ({[0; 1]} : gset Z); {[0; 1]} ]] 0 0 = Ok s ∧
       ∀ y' x', in_scan [[ ({[0; 1]} : gset Z); {[0; 1]} ]] y' x' →
                get2 [[false; false]] y' x' = Ok false →
                ∃ s', get2 [[ ({[0; 1]} : gset Z); {[0; 1]} ]] y' x' = Ok s' ∧
                      (size s ≤ size s')%nat.
Proof.
  apply (find_min_entropy_cell_minimal lcg
           [[ {[0; 1]}; {[0; 1]} ]] [[false; false]] 7%N 0 0).
  vm_compute. reflexivity.
Defined.

(** * Further properties of the code *)

(** ** The adjacency table and the index of tiles *)

Lemma for_each_app {A S} (l1 l2 : list A) (body : A → S → res S) s :
  for_each (l1 ++ l2) body s = for_each l1 body s ≫= for_each l2 body.
Proof.
  revert s. induction l1 as [|a l1 IH]; intros s; simpl; [done|].
  destruct (body a s); simpl; auto.
Qed.

(** After the outer loop has run over [l], the table and the index of [l]
    have the same keys, and the entry of an id is computed from the tile the
    index holds for it. *)
Lemma rules_table ts l rules :
  for_each l (rules_for_tile ts) ∅ = Ok rules →
  ∀ i,
    match rules !! i with
    | Some e => ∃ A, index_by_id l !! i = Some A ∧ ∀ d t, t ∈ ns_get d e ↔ linked A d t ts
    | None => index_by_id l !! i = None
    end.
Proof.
  revert rules. induction l as [|a l IH] using rev_ind; intros rules.
  - intros [= <-] i. by rewrite lookup_empty.
  - rewrite for_each_app. intros (r1 & Hr1 & Hstep)%res_bind_Ok. simpl in Hstep.
    assert (rules_for_tile ts a r1 = Ok rules) as Ha
      by (by destruct (rules_for_tile ts a r1)).
    apply rules_for_tile_Ok in Ha as (e & He & Hother & Hlinked & _).
    intros i. rewrite index_by_id_snoc.
    destruct (decide (i = tile_id a)) as [->|Hi].
    + rewrite He, lookup_insert_eq. eauto.
    + rewrite Hother, lookup_insert_ne by done. apply IH, Hr1.
Qed.

Lemma index_by_id_is_Some ts i : is_Some (index_by_id ts !! i) ↔ i ∈ tile_id <$> ts.
Proof.
  rewrite list_elem_of_fmap. split.
  - intros [A HA]. apply index_by_id_dom in HA as [? ?]. eauto.
  - intros (A & -> & HA).
    induction ts as [|b l IH] using rev_ind; [by apply elem_of_nil in HA|].
    rewrite index_by_id_snoc.
    destruct (decide (tile_id A = tile_id b)) as [->|Hne].
    + rewrite lookup_insert_eq. by eexists.
    + rewrite lookup_insert_ne by done. apply IH.
      apply elem_of_app in HA as [?|HA]; [done|].
      apply list_elem_of_singleton in HA. congruence.
Qed.

(** The table and the index have the ids of the catalog as keys. *)
Lemma built_keys data self i :
  WFCGenerator_init data = Ok self →
  (is_Some (adjacency_rules self !! i) ↔ i ∈ all_tile_ids self) ∧
  (is_Some (tile_by_id self !! i) ↔ i ∈ all_tile_ids self).
Proof.
  intros (Hidx & Hrules & _)%init_Ok.
  pose proof (rules_table _ _ _ Hrules i) as Hi. rewrite <- Hidx in Hi.
  assert (is_Some (tile_by_id self !! i) ↔ i ∈ all_tile_ids self) as Hkeys.
  { unfold all_tile_ids. rewrite elem_of_list_to_set, Hidx. apply index_by_id_is_Some. }
  split; [|done]. rewrite <- Hkeys. destruct (adjacency_rules self !! i) as [e|].
  - destruct Hi as (A & -> & _). split; by eexists.
  - rewrite Hi. split; by intros [? ?].
Qed.

(** X1: in a generator built by [__init__], [adjacency_rules] and
    [tile_by_id] have the same keys, namely the ids of the catalog; and
    [adjacency_rules[i][d]] is the set of ids of the catalog tiles that the
    tile [tile_by_id[i]] can connect to in direction [d].  Unique ids are
    not needed. *)
Theorem adjacency_table_entries data self i :
  WFCGenerator_init data = Ok self →
  (is_Some (adjacency_rules self !! i) ↔ i ∈ all_tile_ids self) ∧
  (is_Some (tile_by_id self !! i) ↔ i ∈ all_tile_ids self) ∧
  ∀ e, adjacency_rules self !! i = Some e →
    ∃ A, tile_by_id self !! i = Some A ∧ A ∈ tiles self ∧ tile_id A = i ∧
         ∀ d t, t ∈ ns_get d e ↔
                ∃ B, B ∈ tiles self ∧ tile_id B = t ∧ can_connect A B d = Ok true.
Proof.
  intros Hinit. destruct (built_keys _ _ i Hinit) as [Hk1 Hk2].
  split_and!; [done..|].
  apply init_Ok in Hinit as (Hidx & Hrules & _).
  pose proof (rules_table _ _ _ Hrules i) as Hi. rewrite <- Hidx in Hi.
  intros e He. rewrite He in Hi. destruct Hi as (A & HA & Hlinked).
  exists A. pose proof HA as HA'. rewrite Hidx in HA'.
  apply index_by_id_dom in HA' as [? ?]. split_and!; try done.
Qed.

(** ** Duplicate ids *)

Lemma index_by_id_app_lookup l1 l2 i :
  i ∉ tile_id <$> l2 → index_by_id (l1 ++ l2) !! i = index_by_id l1 !! i.
Proof.
  induction l2 as [|B l2 IH] using rev_ind; intros Hi.
  - by rewrite app_nil_r.
  - rewrite app_assoc, index_by_id_snoc. rewrite fmap_app, elem_of_app in Hi.
    rewrite lookup_insert_ne; [apply IH; tauto|].
    intros <-. apply Hi. right. simpl. by apply list_elem_of_singleton.
Qed.

(** X2: [tile_by_id] keeps, for each id, the last tile of the catalog
    that carries it: an earlier tile with the same id is replaced. *)
Theorem tile_by_id_last data self l1 A l2 :
  WFCGenerator_init data = Ok self →
  tiles self = l1 ++ A :: l2 →
  (∀ B, B ∈ l2 → tile_id B ≠ tile_id A) →
  tile_by_id self !! tile_id A = Some A.
Proof.
  intros (Hidx & _)%init_Ok Htiles Hlast. rewrite Hidx, Htiles.
  rewrite (app_assoc l1 [A] l2 : l1 ++ A :: l2 = (l1 ++ [A]) ++ l2).
  rewrite index_by_id_app_lookup.
  - by rewrite index_by_id_snoc, lookup_insert_eq.
  - intros (B & Heq & HB)%list_elem_of_fmap. by apply (Hlast B).
Qed.

(** ** The entropy scan on rectangular grids *)

Lemma get2_shape {A} w h (g : list (list A)) y x :
  shape w h g → 0 ≤ y < Z.of_nat h → 0 ≤ x < Z.of_nat w →
  ∃ a, get2 g y x = Ok a ∧ lookup2 g (Z.to_nat y) (Z.to_nat x) = Some a.
Proof.
  intros Hg Hy Hx.
  destruct (proj2 (shape_lookup2 _ _ _ (Z.to_nat y) (Z.to_nat x) Hg)) as [a Ha]; [lia|].
  exists a. split; [|done]. apply get2_Ok; [lia..|done].
Qed.

Lemma columns_of_shape w h (p : list (list (gset Z))) :
  shape w h p → p ≠ [] → columns p = Z.of_nat w.
Proof.
  intros [_ Hrows] Hne. destruct p as [|r p]; [done|]. simpl.
  apply Forall_cons in Hrows as [-> _]. done.
Qed.

Lemma in_scan_shape w h (p : list (list (gset Z))) y x :
  shape w h p → in_scan p y x ↔ 0 ≤ y < Z.of_nat h ∧ 0 ≤ x < Z.of_nat w.
Proof.
  intros Hp. unfold in_scan. destruct Hp as [Hlen Hrows].
  destruct p as [|r p]; simpl in *.
  - subst h. simpl. lia.
  - apply Forall_cons in Hrows as [-> _]. subst h. done.
Qed.

Section ScanSafe.
Context {rng : Type}.
Variable genrand_res53 : rng → N * rng.
Variable possibilities : list (list (gset Z)).
Variable collapsed : list (list bool).
Variables w h : nat.
Hypothesis shape_p : shape w h possibilities.
Hypothesis shape_c : shape w h collapsed.

Lemma scan_cell_safe y x st g :
  0 ≤ y < Z.of_nat h → 0 ≤ x < Z.of_nat w →
  wp (scan_cell rng genrand_res53 possibilities collapsed y x st) g (fun r l =>
    match r with
    | Ok _ => True
    | _ => False
    end).
Proof.
  intros Hy Hx. unfold scan_cell.
  destruct (get2_shape _ _ _ _ _ shape_c Hy Hx) as (c & -> & _).
  destruct (get2_shape _ _ _ _ _ shape_p Hy Hx) as (s & -> & _).
  apply wp_bind, wp_lift. intros g1. destruct c; [by apply wp_ret|].
  apply wp_bind, wp_lift. intros g2. simpl.
  destruct (Z.of_nat (size s) =? 0); [by apply wp_ret|].
  apply wp_bind, (wp_random genrand_res53). intros r _ g3.
  by destruct (below _ _); apply wp_ret.
Qed.

Lemma find_min_entropy_cell_safe g :
  wp (_find_min_entropy_cell rng genrand_res53 possibilities collapsed) g (fun r l =>
    match r with
    | Ok _ => True
    | _ => False
    end).
Proof.
  unfold _find_min_entropy_cell. apply wp_bind.
  eapply wp_mono.
  - apply (wp_for_loop _ (range (Z.of_nat (length possibilities)))
             (fun _ _ _ => True) (fun _ _ => True) (fun _ _ => False)) with (lg := []);
      [|done].
    intros pre y suf st lg g' Hsplit _.
    assert (y ∈ range (Z.of_nat (length possibilities))) as Hy
      by (rewrite Hsplit, elem_of_app, elem_of_cons; auto).
    apply elem_of_range in Hy.
    assert (length possibilities = h) as Hlen by apply shape_p.
    assert (∃ row0, py_index possibilities 0 = Ok row0 ∧ length row0 = w)
      as (row0 & -> & Hw).
    { destruct (lookup_lt_is_Some_2 possibilities 0%nat) as [row0 Hrow0]; [lia|].
      exists row0. split; [by apply py_index_Ok|].
      destruct shape_p as [_ Hrows]. by apply (Forall_lookup_1 _ _ _ _ Hrows Hrow0). }
    apply wp_bind, wp_lift. intros g1. rewrite Hw.
    eapply wp_mono.
    + apply (wp_for_loop _ (range (Z.of_nat w))
               (fun _ _ _ => True) (fun _ _ => True) (fun _ _ => False)) with (lg := []);
        [|done].
      intros pre' x suf' st' lg' g'' Hsplit' _.
      assert (x ∈ range (Z.of_nat w)) as Hx
        by (rewrite Hsplit', elem_of_app, elem_of_cons; auto).
      apply elem_of_range in Hx.
      eapply wp_mono; [apply scan_cell_safe; [lia|done]|].
      simpl. by intros [[?|?]|?|] ?.
    + simpl. by intros [[?|?]|?|] ?.
  - simpl. intros [[st|v]|e|] l1; try done; intros _ g1; by apply wp_ret.
Qed.

End ScanSafe.

Lemma wp_and {rng A} (m : M rng A) g (Q1 Q2 : res A → list event → Prop) :
  wp m g Q1 → wp m g Q2 → wp m g (fun r l => Q1 r l ∧ Q2 r l).
Proof. by split. Qed.

(** What the scan returns on two rectangular grids of the same shape. *)
Lemma find_min_entropy_cell_shape_spec {rng} (genrand_res53 : rng → N * rng)
    w h possibilities collapsed g :
  shape w h possibilities → shape w h collapsed →
  wp (_find_min_entropy_cell rng genrand_res53 possibilities collapsed) g (fun r l =>
    l = [] ∧
    match r with
    | Ok (Some (y, x)) =>
        ∃ i j s, y = Z.of_nat i ∧ x = Z.of_nat j ∧
          lookup2 collapsed i j = Some false ∧ lookup2 possibilities i j = Some s ∧
          s ≠ ∅ ∧
          ∀ i' j' s', lookup2 collapsed i' j' = Some false →
                      lookup2 possibilities i' j' = Some s' → (size s ≤ size s')%nat
    | Ok None =>
        (∃ i j, lookup2 collapsed i j = Some false ∧ lookup2 possibilities i j = Some ∅) ∨
        (∀ i j b, lookup2 collapsed i j = Some b → b = true)
    | _ => False
    end).
Proof.
  intros Hp Hc.
  eapply wp_mono;
    [apply wp_and; [apply find_min_entropy_cell_spec|
                    apply (find_min_entropy_cell_safe genrand_res53 _ _ _ _ Hp Hc)]|].
  cbv beta. intros r l [[-> H] Hsafe]. split; [done|].
  destruct r as [[[y x]|]| |]; [| |done..].
  - destruct H as (Hin & Hcyx & s & Hs & Hnz & Hmin).
    apply (in_scan_shape _ _ _ _ _ Hp) in Hin as [Hy Hx].
    exists (Z.to_nat y), (Z.to_nat x), s.
    rewrite !Z2Nat.id by lia. split_and!; [done..| | | |].
    + apply get2_Ok in Hcyx; [done|lia..].
    + apply get2_Ok in Hs; [done|lia..].
    + intros ->. by rewrite size_empty in Hnz.
    + intros i' j' s' Hc' Hs'.
      assert (is_Some (lookup2 collapsed i' j')) as Hij by by eexists.
      apply (shape_lookup2 _ _ _ _ _ Hc) in Hij.
      destruct (Hmin (Z.of_nat i') (Z.of_nat j')) as (s'' & Hs'' & Hle).
      * apply (in_scan_shape _ _ _ _ _ Hp). lia.
      * apply get2_Ok; [lia..|]. by rewrite !Nat2Z.id.
      * apply get2_Ok in Hs''; [|lia..]. rewrite !Nat2Z.id in Hs''. congruence.
  - destruct H as [(y & x & Hin & Hcyx & Hs)|Hall].
    + apply (in_scan_shape _ _ _ _ _ Hp) in Hin as [Hy Hx].
      left. exists (Z.to_nat y), (Z.to_nat x).
      split; [apply get2_Ok in Hcyx|apply get2_Ok in Hs]; done || lia.
    + right. intros i j b Hb.
      assert (is_Some (lookup2 collapsed i j)) as Hij by by eexists.
      apply (shape_lookup2 _ _ _ _ _ Hc) in Hij.
      specialize (Hall (Z.of_nat i) (Z.of_nat j)).
      rewrite get2_Ok, !Nat2Z.id in Hall by lia.
      rewrite Hall in Hb; [congruence|]. apply (in_scan_shape _ _ _ _ _ Hp). lia.
Qed.

(** X3: on rectangular grids of the same shape [_find_min_entropy_cell]
    raises nothing, and it returns [None] exactly when no cell is
    unresolved or some unresolved cell has no candidate left: the caller
    cannot tell the two apart. *)
Theorem find_min_entropy_cell_none {rng} (genrand_res53 : rng → N * rng)
    w h possibilities collapsed g :
  shape w h possibilities → shape w h collapsed →
  let r := result (_find_min_entropy_cell rng genrand_res53 possibilities collapsed g) in
  (∃ v, r = Ok v) ∧
  (r = Ok None ↔
   (∀ i j b, lookup2 collapsed i j = Some b → b = true) ∨
   (∃ i j, lookup2 collapsed i j = Some false ∧ lookup2 possibilities i j = Some ∅)).
Proof.
  intros Hp Hc r.
  pose proof (wp_result_writes _ g _
    (find_min_entropy_cell_shape_spec genrand_res53 _ _ _ _ g Hp Hc)) as [_ H].
  fold r in H. destruct r as [[[y x]|]| |]; [| |done..].
  - split; [by eexists|]. split; [done|]. intros Hcase. exfalso.
    destruct H as (i & j & s & -> & -> & Hcij & Hs & Hne & Hmin).
    destruct Hcase as [Hall|(i' & j' & Hc' & Hs')].
    + by apply Hall in Hcij.
    + specialize (Hmin _ _ _ Hc' Hs'). rewrite size_empty in Hmin.
      apply Hne, leibniz_equiv, size_empty_iff. lia.
  - split; [by eexists|]. split; [|done]. intros _. destruct H; auto.
Qed.


(** X4: the random noise only breaks ties.  On two rectangular grids of
    the same shape, an unresolved cell whose set of candidates is not empty
    and strictly smaller than the set of every other unresolved cell is the
    one [_find_min_entropy_cell] returns, whatever the generator yields. *)
Theorem find_min_entropy_cell_strict_minimum {rng} (genrand_res53 : rng → N * rng)
    w h possibilities collapsed g i j s :
  shape w h possibilities → shape w h collapsed →
  lookup2 collapsed i j = Some false → lookup2 possibilities i j = Some s → s ≠ ∅ →
  (∀ i' j' s', (i', j') ≠ (i, j) → lookup2 collapsed i' j' = Some false →
               lookup2 possibilities i' j' = Some s' → (size s < size s')%nat) →
  result (_find_min_entropy_cell rng genrand_res53 possibilities collapsed g)
    = Ok (Some (Z.of_nat i, Z.of_nat j)).
Proof.
  intros Hp Hc Hcij Hs Hne Hstrict.
  pose proof (wp_result_writes _ g _
    (find_min_entropy_cell_shape_spec genrand_res53 _ _ _ _ g Hp Hc)) as [_ H].
  destruct (result _) as [[[y x]|]| |]; [| |done..].
  - destruct H as (i0 & j0 & s0 & -> & -> & Hc0 & Hs0 & Hne0 & Hmin).
    destruct (decide ((i0, j0) = (i, j))) as [[= -> ->]|Hdiff]; [done|].
    specialize (Hstrict _ _ _ Hdiff Hc0 Hs0). specialize (Hmin _ _ _ Hcij Hs). lia.
  - exfalso. destruct H as [(i' & j' & Hc' & Hs')|Hall].
    + destruct (decide ((i', j') = (i, j))) as [[= -> ->]|Hdiff]; [congruence|].
      specialize (Hstrict _ _ _ Hdiff Hc' Hs'). rewrite size_empty in Hstrict. lia.
    + by apply Hall in Hcij.
Qed.

(** ** The weighted draw, outcome by outcome *)

Lemma length_running_sums acc ws : length (running_sums acc ws) = length ws.
Proof. revert acc. induction ws; intros acc; simpl; auto. Qed.

Lemma length_accumulate ws : length (accumulate ws) = length ws.
Proof. destruct ws; simpl; [done|]. by rewrite length_running_sums. Qed.

Lemma last_running_sums acc ws t :
  last (running_sums acc ws) = Some t → (t == acc + foldr Qplus 0 ws)%Q.
Proof.
  revert acc. induction ws as [|w ws IH]; intros acc; simpl; [done|].
  destruct ws as [|w1 ws].
  - simpl. intros [= <-]. ring.
  - intros H. change (last (running_sums (acc + w) (w1 :: ws)) = Some t) in H.
    apply IH in H. rewrite H. simpl. ring.
Qed.

Lemma last_accumulate ws t :
  last (accumulate ws) = Some t → (t == foldr Qplus 0 ws)%Q.
Proof.
  destruct ws as [|w ws]; [done|]. simpl. destruct ws as [|w1 ws].
  - simpl. intros [= <-]. ring.
  - intros H. change (last (running_sums w (w1 :: ws)) = Some t) in H.
    by apply last_running_sums in H.
Qed.

Lemma py_index_last {A} (l : list A) :
  py_index l (-1) = match last l with
                    | Some a => Ok a
                    | None => Raise IndexError
                    end.
Proof.
  unfold py_index, norm_index. simpl.
  destruct l as [|a l] using rev_ind; [done|].
  rewrite last_snoc, length_app. simpl.
  destruct (Z.ltb_spec (-1 + Z.of_nat (length l + 1)) 0); [lia|].
  replace (Z.to_nat (-1 + Z.of_nat (length l + 1))) with (length l) by lia.
  by rewrite lookup_app_r, Nat.sub_diag by lia.
Qed.

(** [bisect] ends between its bounds, whatever the list holds. *)
Lemma bisect_loop_range fuel a x lo hi :
  0 ≤ lo ≤ hi → hi ≤ Z.of_nat (length a) →
  (Z.to_nat (hi - lo) ≤ fuel)%nat →
  ∃ i, bisect_loop fuel a x lo hi = Ok i ∧ lo ≤ i ≤ hi.
Proof.
  revert lo hi. induction fuel as [|fuel IH]; intros lo hi Hlo Hhi Hfuel; simpl.
  - destruct (Z.ltb_spec lo hi); [lia|]. exists lo. split; [done|lia].
  - destruct (Z.ltb_spec lo hi) as [Hlt|Hge]; [|exists lo; split; [done|lia]].
    pose proof (Z.div_mod (lo + hi) 2 ltac:(done)) as Hdiv.
    pose proof (Z.mod_pos_bound (lo + hi) 2 ltac:(done)) as Hmod.
    set (mid := (lo + hi) `div` 2) in *.
    destruct (lookup_lt_is_Some_2 a (Z.to_nat mid)) as [am Ham]; [lia|].
    rewrite (proj2 (py_index_Ok a mid am ltac:(lia)) Ham). simpl.
    destruct (Qltb x am).
    + destruct (IH lo mid) as (i & Hi & Hrange); [lia..|]. exists i. split; [done|lia].
    + destruct (IH (mid + 1) hi) as (i & Hi & Hrange); [lia..|]. exists i. split; [done|lia].
Qed.

Section DrawOutcome.
Context {rng : Type}.
Variable genrand_res53 : rng → N * rng.

(** [random.choices] with one weight per element: it raises [IndexError]
    on an empty population and [ValueError] on a total that is not positive;
    an element it returns belongs to the population. *)
Lemma choices_outcome {A} (population : list A) weights g :
  length population = length weights →
  wp (choices rng genrand_res53 population weights) g (fun r l =>
    match r with
    | Ok a => a ∈ population ∧ (0 < foldr Qplus 0 weights)%Q
    | Raise e =>
        (population = [] ∧ e = IndexError) ∨
        (population ≠ [] ∧ e = ValueError ∧ (foldr Qplus 0 weights <= 0)%Q)
    | Timeout => False
    end).
Proof.
  intros Hlen. unfold choices.
  rewrite length_accumulate, <- Hlen, Z.eqb_refl. simpl.
  apply wp_bind, wp_lift. rewrite py_index_last.
  destruct (last (accumulate weights)) as [total|] eqn:Hlast.
  2:{ left. split; [|done]. apply last_None in Hlast.
      apply (f_equal length) in Hlast. rewrite length_accumulate, <- Hlen in Hlast.
      by apply nil_length_inv. }
  assert (population ≠ []) as Hne.
  { intros ->. destruct weights; [done|]. done. }
  pose proof (last_accumulate _ _ Hlast) as Htotal.
  intros g1. destruct (Qle_bool total 0) eqn:Hle.
  { apply wp_lift. right. apply Qle_bool_iff in Hle. split_and!; [done..|].
    by rewrite <- Htotal. }
  assert (0 < total)%Q as Hpos.
  { apply Qnot_le_lt. intros H%Qle_bool_iff. congruence. }
  apply wp_bind, wp_random. intros r _ g2.
  set (n := length population) in *.
  assert (n ≠ 0%nat) as Hn by (unfold n; by destruct population).
  destruct (bisect_loop_range (Z.to_nat (Z.of_nat n - 1 - 0)) (accumulate weights)
              (r * total) 0 (Z.of_nat n - 1))
    as (i & Hi & Hrange); [lia|rewrite length_accumulate; lia|lia|].
  apply wp_bind, wp_lift. unfold bisect. rewrite Hi. intros g3.
  destruct (lookup_lt_is_Some_2 population (Z.to_nat i)) as [a Ha]; [lia|].
  apply wp_lift. rewrite (proj2 (py_index_Ok population i a ltac:(lia)) Ha).
  split; [by eapply list_elem_of_lookup_2|by rewrite <- Htotal].
Qed.

Variable self : WFCGenerator.

Lemma comprehension_getitem (l : list Z) :
  match comprehension (getitem (tile_by_id self)) l with
  | Ok ts => Forall2 (fun i T => tile_by_id self !! i = Some T) l ts
  | Raise e => e = KeyError ∧ ∃ i, i ∈ l ∧ tile_by_id self !! i = None
  | Timeout => False
  end.
Proof.
  induction l as [|i l IH]; simpl; [by constructor|].
  destruct (tile_by_id self !! i) as [T|] eqn:HT.
  all: assert (getitem (tile_by_id self) i = from_option Ok (Raise KeyError)
                 (tile_by_id self !! i)) as -> by (unfold getitem; by destruct (_ !! i)).
  all: rewrite HT; simpl.
  - destruct (comprehension _ l) as [ts|e|]; simpl; [|destruct IH as [-> (j & ? & ?)]|done].
    + by constructor.
    + split; [done|]. exists j. split; [by right|done].
  - split; [done|]. exists i. split; [by left|done].
Qed.

(** The ways [_collapse_cell] ends. *)
Lemma collapse_cell_cases (possible_tiles : gset Z) g :
  wp (_collapse_cell rng genrand_res53 self possible_tiles) g (fun r _ =>
    match r with
    | Ok c =>
        (∀ i, i ∈ possible_tiles → is_Some (tile_by_id self !! i)) ∧
        (0 < total_weight self possible_tiles)%Q ∧
        ∃ i T, i ∈ possible_tiles ∧ tile_by_id self !! i = Some T ∧ tile_id T = c
    | Raise KeyError => ∃ i, i ∈ possible_tiles ∧ tile_by_id self !! i = None
    | Raise IndexError =>
        (∀ i, i ∈ possible_tiles → is_Some (tile_by_id self !! i)) ∧ possible_tiles = ∅
    | Raise ValueError =>
        (∀ i, i ∈ possible_tiles → is_Some (tile_by_id self !! i)) ∧
        possible_tiles ≠ ∅ ∧ (total_weight self possible_tiles <= 0)%Q
    | Timeout => False
    end).
Proof.
  unfold _collapse_cell. apply wp_bind, wp_lift.
  pose proof (comprehension_getitem (elements possible_tiles)) as Hts.
  destruct (comprehension _ _) as [ts|e|]; [|destruct Hts as [-> (i & Hi & ?)]|done].
  2:{ exists i. by rewrite <- elem_of_elements. }
  assert (∀ i, i ∈ possible_tiles → is_Some (tile_by_id self !! i)) as Hknown.
  { intros i Hi%elem_of_elements. apply list_elem_of_lookup_1 in Hi as [k Hk].
    destruct (Forall2_lookup_l _ _ _ _ _ Hts Hk) as (T & _ & ->). by eexists. }
  assert (weight_of self <$> elements possible_tiles = tile_weight <$> ts) as Hweights.
  { clear -Hts. induction Hts as [|i T l ts HT _ IH]; [done|]. simpl.
    unfold weight_of at 1. rewrite HT. simpl. by f_equal. }
  unfold total_weight. rewrite Hweights.
  intros g1. apply wp_bind.
  eapply wp_mono; [apply choices_outcome; by rewrite length_fmap|]. simpl.
  intros [chosen|e|] l; [| |done].
  - intros (Hin & Hpos) g2. apply wp_ret. split_and!; [done..|].
    apply list_elem_of_lookup_1 in Hin as [k Hk].
    destruct (Forall2_lookup_r _ _ _ _ _ Hts Hk) as (i & Hi & HT).
    exists i, chosen. split_and!; [|done..].
    apply elem_of_elements. by eapply list_elem_of_lookup_2.
  - intros [[-> ->]|(Hne & -> & Hle)].
    + split; [done|]. apply Forall2_nil_inv_r in Hts.
      by apply elements_empty_iff, leibniz_equiv in Hts.
    + split_and!; [done| |done]. intros ->. rewrite elements_empty in Hts.
      by apply Forall2_nil_inv_l in Hts.
Qed.

End DrawOutcome.

(** X5: [_collapse_cell] raises [KeyError] exactly when a candidate id
    is not a key of [tile_by_id], and [IndexError] exactly when the set of
    candidates is empty.  A [ValueError] can only come from [random.choices],
    that is, for a non-empty set of known ids.  An id it returns is the id of
    the tile that [tile_by_id] holds for one of the candidates. *)
Theorem collapse_cell_outcome {rng} (genrand_res53 : rng → N * rng) self
    (possible_tiles : gset Z) g :
  let r := result (_collapse_cell rng genrand_res53 self possible_tiles g) in
  let known := ∀ i, i ∈ possible_tiles → is_Some (tile_by_id self !! i) in
  (r = Raise KeyError ↔ ∃ i, i ∈ possible_tiles ∧ tile_by_id self !! i = None) ∧
  (r = Raise IndexError ↔ possible_tiles = ∅) ∧
  (r = Raise ValueError → known ∧ possible_tiles ≠ ∅) ∧
  (∀ c, r = Ok c →
     known ∧ possible_tiles ≠ ∅ ∧
     ∃ i T, i ∈ possible_tiles ∧ tile_by_id self !! i = Some T ∧ tile_id T = c) ∧
  r ≠ Timeout.
Proof.
  intros r known.
  pose proof (wp_result_writes _ g _
    (collapse_cell_cases genrand_res53 self possible_tiles g)) as H.
  cbv beta in H. fold r in H.
  assert (∀ i, i ∈ possible_tiles → tile_by_id self !! i = None → known → False) as Hk.
  { intros i Hi Hnone Hall. apply Hall in Hi as [? ?]. congruence. }
  assert (∀ i, i ∈ possible_tiles → possible_tiles = ∅ → False) as He.
  { intros i Hi ->. by apply not_elem_of_empty in Hi. }
  destruct r as [c|[]|]; [| | | |done].
  - destruct H as (Hknown & _ & i & T & Hi & HT & Hc). split_and!; try done.
    + split; [done|]. intros (j & Hj & Hnone). exfalso. eauto.
    + split; [done|]. intros ->. exfalso. eauto.
    + intros c' [= <-]. split_and!; [done| |by eauto]. intros ->. eauto.
  - destruct H as (i & Hi & Hnone). split_and!; try done.
    + split; [by eauto|done].
    + split; [done|]. intros ->. exfalso. eauto.
  - destruct H as [Hknown ->]. split_and!; try done.
    split; [done|]. intros (j & Hj & _). by apply not_elem_of_empty in Hj.
  - destruct H as (Hknown & Hne & _). split_and!; try done.
    split; [done|]. intros (j & Hj & Hnone). exfalso. eauto.
Qed.

(** ** Propagation: what changes, and the fixpoint it reaches *)

Section PropagationFrame.
Context {rng : Type}.
Variable self : WFCGenerator.
Variable collapsed : list (list bool).
Variables width height : Z.

(** One neighbour visit either leaves the state alone, or narrows the
    neighbour to its candidates that the table allows, pushes it and logs
    the assignment, or finds that no candidate is allowed. *)
Lemma visit_neighbor_cases current nx ny d p stack g :
  wp (visit_neighbor rng self collapsed width height current (nx, ny, d) (p, stack)) g
    (fun r l =>
       match r with
       | Ok (Next (p', stack')) =>
           (p' = p ∧ stack' = stack ∧ l = []) ∨
           (∃ old valid,
              0 ≤ nx < width ∧ 0 ≤ ny < height ∧ get2 collapsed ny nx = Ok false ∧
              valid_for_neighbor self current d = Ok valid ∧ get2 p ny nx = Ok old ∧
              p' = insert2 p (Z.to_nat ny) (Z.to_nat nx) (old ∩ valid) ∧
              stack' = (nx, ny) :: stack ∧ l = [SetPossibilities ny nx (old ∩ valid)])
       | Ok (Return b) =>
           b = false ∧ l = [] ∧
           ∃ old valid,
             0 ≤ nx < width ∧ 0 ≤ ny < height ∧ get2 collapsed ny nx = Ok false ∧
             valid_for_neighbor self current d = Ok valid ∧ get2 p ny nx = Ok old ∧
             old ∩ valid = ∅
       | Raise _ => True
       | Timeout => False
       end).
Proof.
  unfold visit_neighbor.
  destruct (_ || _) eqn:Hoob; [apply wp_ret; by left|].
  rewrite !orb_false_iff in Hoob. rewrite !Z.ltb_ge, !Z.leb_gt in Hoob.
  destruct Hoob as (((Hx0 & Hx1) & Hy0) & Hy1).
  apply wp_bind, wp_lift.
  destruct (get2 collapsed ny nx) as [c| |] eqn:Hc; [|done|by apply get2_outcome in Hc].
  intros g1. destruct c; [apply wp_ret; by left|].
  apply wp_bind, wp_lift.
  destruct (valid_for_neighbor self current d) as [valid| |] eqn:Hv;
    [|done|by apply valid_for_neighbor_outcome in Hv].
  intros g2. apply wp_bind, wp_lift.
  destruct (get2 p ny nx) as [old| |] eqn:Hold; [|done|by apply get2_outcome in Hold].
  intros g3. simpl.
  destruct (Z.eqb_spec (Z.of_nat (size (old ∩ valid))) 0) as [Hz|Hnz].
  { apply wp_ret. split_and!; [done..|]. exists old, valid. split_and!; try done.
    apply leibniz_equiv, size_empty_iff. lia. }
  destruct (Z.of_nat (size (old ∩ valid)) <? Z.of_nat (size old)); [|apply wp_ret; by left].
  apply wp_bind, wp_lift.
  destruct (set2 p ny nx (old ∩ valid)) as [p'| |] eqn:Hset;
    [|done|by apply set2_outcome in Hset].
  apply set2_Ok in Hset as [_ ->]; [|done..].
  intros g4. apply wp_bind, wp_emit. intros g5. apply wp_ret.
  right. exists old, valid. split_and!; done.
Qed.

(** The cells a run of the inner loop changes, pushes and logs are the
    same, and they are neighbours of the current cell. *)
Lemma visit_neighbors_frame current cx cy p stack g :
  wp (for_loop (neighbors cx cy)
        (visit_neighbor rng self collapsed width height current) (p, stack)) g (fun r l =>
    match r with
    | Ok (Next (p', stack')) =>
        (∀ c, c ∈ stack' ↔ c ∈ stack ∨ ∃ v, SetPossibilities c.2 c.1 v ∈ l) ∧
        (∀ i j, lookup2 p' i j ≠ lookup2 p i j →
                ∃ v, SetPossibilities (Z.of_nat i) (Z.of_nat j) v ∈ l) ∧
        (∀ ny nx v, SetPossibilities ny nx v ∈ l →
                    0 ≤ nx ∧ 0 ≤ ny ∧ ∃ d, (nx, ny, d) ∈ neighbors cx cy)
    | Ok (Return b) => b = false
    | Raise _ => True
    | Timeout => False
    end).
Proof.
  pose (I := fun (pre : list (Z * Z * direction))
                 (st : list (list (gset Z)) * list (Z * Z)) (lg : list event) =>
    (∀ c, c ∈ st.2 ↔ c ∈ stack ∨ ∃ v, SetPossibilities c.2 c.1 v ∈ lg) ∧
    (∀ i j, lookup2 st.1 i j ≠ lookup2 p i j →
            ∃ v, SetPossibilities (Z.of_nat i) (Z.of_nat j) v ∈ lg) ∧
    (∀ ny nx v, SetPossibilities ny nx v ∈ lg →
                0 ≤ nx ∧ 0 ≤ ny ∧ ∃ d, (nx, ny, d) ∈ pre)).
  eapply wp_mono.
  - apply (wp_for_loop _ (neighbors cx cy) I (fun b _ => b = false) (fun _ _ => True))
      with (lg := []).
    + intros pre [[nx ny] d] suf [p1 stack1] lg g' _ (Hstack & Hchg & Hlog). simpl in *.
      eapply wp_mono; [apply visit_neighbor_cases|]. simpl.
      intros [[[p2 stack2]|b]|e|] l1 H; try done; [|by destruct H].
      destruct H as [(-> & -> & ->)|(old & valid & Hx & Hy & _ & _ & _ & -> & -> & ->)].
      2: set (new := old ∩ valid).
      * rewrite app_nil_r. split_and!; [done..|].
        intros ny' nx' v Hin. destruct (Hlog _ _ _ Hin) as (? & ? & d' & Hd').
        split_and!; [done..|]. exists d'. apply elem_of_app. by left.
      * split_and!; simpl.
        -- intros c. rewrite elem_of_cons, Hstack. split.
           ++ intros [->|[?|(v & Hv)]]; [right|by left|right].
              ** exists new. apply elem_of_app. right. by apply list_elem_of_singleton.
              ** exists v. apply elem_of_app. by left.
           ++ intros [?|(v & [Hv|Hv%list_elem_of_singleton]%elem_of_app)]; [by auto| |].
              ** right. right. by exists v.
              ** left. injection Hv as <- <- _. by destruct c.
        -- intros i j Hne. rewrite lookup2_insert2 in Hne. case_decide as Hd.
           ++ destruct Hd as [<- <-]. exists new. apply elem_of_app. right.
              rewrite !Z2Nat.id by lia. by apply list_elem_of_singleton.
           ++ destruct (Hchg _ _ Hne) as [v Hv]. exists v. apply elem_of_app. by left.
        -- intros ny' nx' v [Hin|Hin%list_elem_of_singleton]%elem_of_app.
           ++ destruct (Hlog _ _ _ Hin) as (? & ? & d' & Hd').
              split_and!; [done..|]. exists d'. apply elem_of_app. by left.
           ++ injection Hin as -> -> _. split_and!; [lia..|]. exists d.
              apply elem_of_app. right. by apply list_elem_of_singleton.
    + unfold I. simpl. split_and!.
      * intros c. split; [by left|]. intros [?|(v & Hv)]; [done|].
        by apply elem_of_nil in Hv.
      * intros i j Hne. done.
      * intros ny nx v Hv. by apply elem_of_nil in Hv.
  - simpl. intros [[[p2 stack2]|b]|e|] l1; done.
Qed.

Lemma neighbors_ne cx cy nx ny d : (nx, ny, d) ∈ neighbors cx cy → (nx, ny) ≠ (cx, cy).
Proof.
  unfold neighbors. rewrite !elem_of_cons, elem_of_nil.
  intros H. repeat destruct H as [H|H]; try done.
  all: injection H as -> -> _; intros Heq; injection Heq; lia.
Qed.

Lemma get2_same {A} (p p' : list (list A)) y x :
  0 ≤ y → 0 ≤ x →
  lookup2 p' (Z.to_nat y) (Z.to_nat x) = lookup2 p (Z.to_nat y) (Z.to_nat x) →
  get2 p' y x = get2 p y x.
Proof. intros Hy Hx H. by rewrite !get2_lookup2, H by done. Qed.

(** Cells that left the stack agree with their neighbours; when the stack
    is empty all cells that were ever on it do. *)
Lemma propagate_loop_fixpoint fuel p stack (T : list (Z * Z)) g :
  (2 * total_size p + length stack ≤ fuel)%nat →
  (∀ c, c ∈ stack → c ∈ T) →
  (∀ c, c ∈ T → 0 ≤ c.1 ∧ 0 ≤ c.2 ∧
                (c ∈ stack ∨ arc_consistent self collapsed width height p c.1 c.2)) →
  wp (propagate_loop rng self fuel collapsed width height p stack) g (fun r l =>
    match r with
    | Ok (true, p') =>
        ∀ c, c ∈ T ∨ (∃ v, SetPossibilities c.2 c.1 v ∈ l) →
             arc_consistent self collapsed width height p' c.1 c.2
    | _ => True
    end).
Proof.
  revert p stack T g. induction fuel as [|fuel IH]; intros p stack T g Hfuel Hsub HT.
  - destruct stack as [|[cx cy] stack']; simpl in *; [|lia].
    apply wp_ret. intros c [Hc|(v & Hv)]; [|by apply elem_of_nil in Hv].
    destruct (HT _ Hc) as (_ & _ & [Hin|?]); [by apply elem_of_nil in Hin|done].
  - destruct stack as [|[cx cy] stack']; simpl in *.
    { apply wp_ret. intros c [Hc|(v & Hv)]; [|by apply elem_of_nil in Hv].
      destruct (HT _ Hc) as (_ & _ & [Hin|?]); [by apply elem_of_nil in Hin|done]. }
    apply wp_bind, wp_lift.
    destruct (get2 p cy cx) as [current| |] eqn:Hcur; [|done..].
    intros g1. apply wp_bind.
    eapply wp_mono;
      [apply wp_and; [apply visit_neighbors_spec|apply visit_neighbors_frame]|].
    simpl. intros [[[p1 stack1]|b]|e|] l1 [[Hl1 H] Hframe]; try done.
    2:{ intros g2. apply wp_ret. by subst. }
    destruct H as (Hw & Hm & Hv). destruct Hframe as (Hstack & Hchg & Hlog).
    destruct (HT (cx, cy)) as (Hcx & Hcy & _); [apply Hsub; by left|]. simpl in *.
    intros g2.
    eapply wp_mono;
      [apply (IH p1 stack1 (T ++ omap (fun e => match e with
                                                 | SetPossibilities ny nx _ => Some (nx, ny)
                                                 | SetCollapsed _ _ => None
                                                 end) l1)); [lia| |]|].
    + intros c [Hc|(v & Hin)]%Hstack; apply elem_of_app.
      * left. apply Hsub. by right.
      * right. apply list_elem_of_omap. eexists. split; [exact Hin|]. by destruct c.
    + assert (∀ c, (∃ v, SetPossibilities c.2 c.1 v ∈ l1) → c ∈ stack1) as Hpushed.
      { intros c Hc. apply Hstack. by right. }
      intros c [Hc|Hc]%elem_of_app.
      2:{ apply list_elem_of_omap in Hc as (e & He & Hc).
          destruct e as [ny nx v|]; [|done]. injection Hc as <-.
          destruct (Hlog _ _ _ He) as (? & ? & _). split_and!; [done..|].
          left. apply Hpushed. by exists v. }
      destruct (HT _ Hc) as (Hc1 & Hc2 & Hcase). split_and!; [done..|].
      destruct (decide (lookup2 p1 (Z.to_nat c.2) (Z.to_nat c.1) =
                        lookup2 p (Z.to_nat c.2) (Z.to_nat c.1))) as [Hsame|Hdiff].
      2:{ left. apply Hpushed. apply Hchg in Hdiff. by rewrite !Z2Nat.id in Hdiff by lia. }
      apply get2_same in Hsame; [|done..].
      destruct Hcase as [[->|Hin]%elem_of_cons|(cur & Hcur' & Hvis)].
      * right. exists current. simpl in *. split; [by rewrite Hsame|done].
      * left. apply Hstack. by left.
      * right. exists cur. split; [by rewrite Hsame|].
        eapply Forall_impl; [exact Hvis|]. intros n. by apply visited_writes.
    + simpl. intros [[[] p']|e|] l2 Hcons; try done.
      intros c [Hc|(v & [Hin|Hin]%elem_of_app)]; apply Hcons.
      * left. apply elem_of_app. by left.
      * left. apply elem_of_app. right. apply list_elem_of_omap.
        eexists. split; [exact Hin|]. by destruct c.
      * right. by exists v.
Qed.

(** A cell whose set a run of the loop changed was assigned by it. *)
Lemma propagate_loop_frame fuel p stack g :
  wp (propagate_loop rng self fuel collapsed width height p stack) g (fun r l =>
    match r with
    | Ok (true, p') =>
        ∀ i j, lookup2 p' i j ≠ lookup2 p i j →
               ∃ v, SetPossibilities (Z.of_nat i) (Z.of_nat j) v ∈ l
    | _ => True
    end).
Proof.
  revert p stack g. induction fuel as [|fuel IH]; intros p stack g.
  - destruct stack as [|[cx cy] stack']; simpl; [by apply wp_ret|by apply wp_lift].
  - destruct stack as [|[cx cy] stack']; simpl; [by apply wp_ret|].
    apply wp_bind, wp_lift.
    destruct (get2 p cy cx) as [current| |] eqn:Hcur; [|done..].
    intros g1. apply wp_bind.
    eapply wp_mono; [apply visit_neighbors_frame|].
    simpl. intros [[[p1 stack1]|b]|e|] l1 Hframe; try done.
    2:{ intros g2. apply wp_ret. by subst. }
    destruct Hframe as (_ & Hchg & _). intros g2.
    eapply wp_mono; [apply IH|]. simpl. intros [[[] p']|e|] l2 Hchg2; try done.
    intros i j Hne.
    destruct (decide (lookup2 p1 i j = lookup2 p i j)) as [Hsame|Hdiff].
    + rewrite <- Hsame in Hne. destruct (Hchg2 _ _ Hne) as [v Hin].
      exists v. apply elem_of_app. by right.
    + destruct (Hchg _ _ Hdiff) as [v Hin]. exists v. apply elem_of_app. by left.
Qed.

End PropagationFrame.

(** X7: when [_propagate] returns [True], every cell keeps a subset
    of its candidates, a non-empty set stays non-empty, and a cell whose set
    changed is unresolved and lies inside the [width] by [height] window;
    nothing is added to the grid or removed from it. *)
Theorem propagate_shrinks {rng} self p collapsed x y width height (g : rng) p' :
  result (_propagate rng self p collapsed x y width height g) = Ok (true, p') →
  ∀ i j,
    match lookup2 p i j with
    | Some s =>
        ∃ s', lookup2 p' i j = Some s' ∧ s' ⊆ s ∧ (s ≠ ∅ → s' ≠ ∅) ∧
              (s' ≠ s → lookup2 collapsed i j = Some false ∧
                        Z.of_nat i < height ∧ Z.of_nat j < width)
    | None => lookup2 p' i j = None
    end.
Proof.
  intros Hr i j.
  pose proof (wp_result_writes _ g _
    (wp_and _ _ _ _ (propagate_spec self collapsed width height p x y g)
                    (propagate_loop_frame self collapsed width height
                       (2 * total_size p + 2) p [(x, y)] g)))
    as H.
  cbv beta in H.
  change (propagate_loop rng self (2 * total_size p + 2) collapsed width height p [(x, y)])
    with (_propagate rng self p collapsed x y width height) in H.
  rewrite Hr in H. destruct H as [[Hlog H] Hframe].
  destruct (H eq_refl) as [Hw _].
  pose proof (writes_lookup2 _ _ _ Hw i j) as Hij.
  destruct (lookup2 p i j) as [s|] eqn:Hs; [|done].
  destruct Hij as (s' & Hs' & Hsub & Hne & _). exists s'. split_and!; [done..|].
  intros Hdiff. destruct (Hframe i j) as [v Hv]; [congruence|].
  rewrite Forall_forall in Hlog. apply Hlog in Hv. simpl in Hv.
  destruct Hv as (? & ? & Hc & _). apply get2_Ok in Hc; [|lia..].
  rewrite !Nat2Z.id in Hc. split_and!; [done|lia..].
Qed.

(** X8: when [_propagate], started at a cell with non-negative
    coordinates as [generate] does, returns [True], it has reached a
    fixpoint: the start cell and every cell it assigned agree with their
    neighbours, that is, each candidate left in an unresolved neighbour
    inside the window is allowed by the table next to some candidate left in
    the cell. *)
Theorem propagate_fixpoint {rng} self p collapsed x y width height (g : rng) p' :
  0 ≤ x → 0 ≤ y →
  let run := _propagate rng self p collapsed x y width height g in
  result run = Ok (true, p') →
  arc_consistent self collapsed width height p' x y ∧
  ∀ ny nx v, SetPossibilities ny nx v ∈ writes run →
             arc_consistent self collapsed width height p' nx ny.
Proof.
  intros Hx Hy run Hr.
  pose proof (wp_result_writes _ g _
    (propagate_loop_fixpoint self collapsed width height
       (2 * total_size p + 2) p [(x, y)] [(x, y)] g ltac:(simpl; lia) ltac:(done)
       ltac:(intros c ->%list_elem_of_singleton; simpl;
             split_and!; [done..|left; by apply list_elem_of_singleton]))) as H.
  cbv beta in H.
  change (propagate_loop rng self (2 * total_size p + 2) collapsed width height p [(x, y)])
    with (_propagate rng self p collapsed x y width height) in H.
  fold run in H. rewrite Hr in H. split.
  - apply (H (x, y)). left. by apply list_elem_of_singleton.
  - intros ny nx v Hv. apply (H (nx, ny)). right. by exists v.
Qed.

(** ** Propagation loses no valid completion *)

Lemma neighbors_adjacent cx cy nx ny d :
  (nx, ny, d) ∈ neighbors cx cy → 0 ≤ cx → 0 ≤ cy → 0 ≤ nx → 0 ≤ ny →
  adjacent d (Z.to_nat cy) (Z.to_nat cx) (Z.to_nat ny) (Z.to_nat nx).
Proof.
  unfold neighbors. rewrite !elem_of_cons, elem_of_nil.
  intros H ? ? ? ?. repeat destruct H as [H|H]; try done.
  all: injection H as -> -> ->; simpl; lia.
Qed.

Lemma valid_for_neighbor_complete self current d valid t e :
  valid_for_neighbor self current d = Ok valid →
  t ∈ current → adjacency_rules self !! t = Some e → ns_get d e ⊆ valid.
Proof.
  unfold valid_for_neighbor. intros H Ht%elem_of_elements He. revert H.
  generalize (∅ : gset Z). induction (elements current) as [|t0 l IH]; intros acc.
  { by apply elem_of_nil in Ht. }
  simpl. intros (acc' & (e0 & He0 & [= <-])%res_bind_Ok & Hrest)%res_bind_Ok.
  assert (∀ l acc acc', 
    for_each l (fun current_tile_id valid =>
                  e ← getitem (adjacency_rules self) current_tile_id;
                  Ok (valid ∪ ns_get d e)) acc = Ok acc' → acc ⊆ acc') as Hgrow.
  { clear. intros l. induction l as [|t l IH]; intros acc acc'; simpl.
    - by intros [= <-].
    - intros (acc1 & (e & _ & [= <-])%res_bind_Ok & Hrest)%res_bind_Ok.
      apply IH in Hrest. set_solver. }
  apply elem_of_cons in Ht as [->|Ht].
  - unfold getitem in He0. rewrite He in He0. injection He0 as <-.
    apply Hgrow in Hrest. set_solver.
  - by eapply IH.
Qed.

Section PropagationSound.
Context {rng : Type}.
Variable self : WFCGenerator.
Variable collapsed : list (list bool).
Variables width height : Z.
Variable G : list (list Z).
Hypothesis shape_G : shape (Z.to_nat width) (Z.to_nat height) G.
Hypothesis valid_G : valid_assignment self G.

Lemma visit_neighbor_sound current cx cy nx ny d p stack g a :
  (nx, ny, d) ∈ neighbors cx cy → 0 ≤ cx → 0 ≤ cy →
  lookup2 G (Z.to_nat cy) (Z.to_nat cx) = Some a → a ∈ current → within G p →
  wp (visit_neighbor rng self collapsed width height current (nx, ny, d) (p, stack)) g
    (fun r l =>
       match r with
       | Ok (Next (p', _)) => within G p'
       | Ok (Return _) => False
       | Raise _ => True
       | Timeout => False
       end).
Proof.
  intros Hn Hcx Hcy Ha Hcur Hin.
  eapply wp_mono; [apply visit_neighbor_cases|]. cbv beta.
  assert (∀ old valid,
    0 ≤ nx < width → 0 ≤ ny < height →
    valid_for_neighbor self current d = Ok valid → get2 p ny nx = Ok old →
    ∃ b, lookup2 G (Z.to_nat ny) (Z.to_nat nx) = Some b ∧ b ∈ old ∩ valid) as Hb.
  { intros old valid Hx Hy Hvalid Hold.
    destruct (proj2 (shape_lookup2 _ _ _ (Z.to_nat ny) (Z.to_nat nx) shape_G)) as [b Hb];
      [lia|].
    exists b. split; [done|]. apply elem_of_intersection. split.
    - destruct (Hin _ _ _ Hb) as (s & Hs & Hbs). apply get2_Ok in Hold; [|lia..]. congruence.
    - destruct (valid_G d _ _ _ _ a b (neighbors_adjacent _ _ _ _ _ Hn Hcx Hcy
                  ltac:(lia) ltac:(lia)) Ha Hb) as (e & He & Hbe).
      by apply (valid_for_neighbor_complete _ _ _ _ _ _ Hvalid Hcur He). }
  intros [[[p' stack']|b]|e|] l; [| |done..].
  - intros [(-> & _)|(old & valid & Hx & Hy & _ & Hvalid & Hold & -> & _)]; [done|].
    destruct (Hb _ _ Hx Hy Hvalid Hold) as (b & HGb & Hbin).
    intros i j v Hv. rewrite lookup2_insert2. case_decide as Hd.
    + destruct Hd as [<- <-]. apply get2_Ok in Hold; [|lia..]. rewrite Hold. simpl.
      exists (old ∩ valid). split; [done|]. congruence.
    + by apply Hin.
  - intros (_ & _ & old & valid & Hx & Hy & _ & Hvalid & Hold & Hempty).
    destruct (Hb _ _ Hx Hy Hvalid Hold) as (b' & _ & Hbin).
    rewrite Hempty in Hbin. by apply not_elem_of_empty in Hbin.
Qed.

Lemma visit_neighbors_sound current cx cy p stack g a :
  0 ≤ cx → 0 ≤ cy →
  lookup2 G (Z.to_nat cy) (Z.to_nat cx) = Some a → a ∈ current → within G p →
  wp (for_loop (neighbors cx cy)
        (visit_neighbor rng self collapsed width height current) (p, stack)) g (fun r l =>
    match r with
    | Ok (Next (p', _)) => within G p'
    | Ok (Return _) => False
    | Raise _ => True
    | Timeout => False
    end).
Proof.
  intros Hcx Hcy Ha Hcur Hin.
  eapply wp_mono.
  - apply (wp_for_loop _ (neighbors cx cy) (fun _ st _ => within G st.1)
             (fun _ _ => False) (fun _ _ => True)) with (lg := []); [|done].
    intros pre [[nx ny] d] suf [p1 stack1] lg g' Hsplit Hin1. simpl in Hin1.
    eapply wp_mono;
      [apply (visit_neighbor_sound current cx cy nx ny d p1 stack1 g' a); try done|].
    + rewrite Hsplit. apply elem_of_app. right. by left.
    + cbv beta. by intros [[[p2 stack2]|b]|e|] l1.
  - cbv beta. by intros [[[p2 stack2]|b]|e|] l1.
Qed.

Lemma propagate_loop_sound fuel p stack g :
  (2 * total_size p + length stack ≤ fuel)%nat →
  within G p →
  (∀ c, c ∈ stack → 0 ≤ c.1 < width ∧ 0 ≤ c.2 < height) →
  wp (propagate_loop rng self fuel collapsed width height p stack) g (fun r l =>
    match r with
    | Ok (true, p') => within G p'
    | Ok (false, _) => False
    | Raise _ => True
    | Timeout => False
    end).
Proof.
  revert p stack g. induction fuel as [|fuel IH]; intros p stack g Hfuel Hin Hstack.
  - destruct stack as [|[cx cy] stack']; simpl in *; [by apply wp_ret|lia].
  - destruct stack as [|[cx cy] stack']; simpl in *; [by apply wp_ret|].
    destruct (Hstack (cx, cy)) as [Hcx Hcy]; [by left|]. simpl in *.
    apply wp_bind, wp_lift.
    destruct (get2 p cy cx) as [current| |] eqn:Hcur; [|done|by apply get2_outcome in Hcur].
    destruct (proj2 (shape_lookup2 _ _ _ (Z.to_nat cy) (Z.to_nat cx) shape_G)) as [a Ha];
      [lia|].
    assert (a ∈ current) as Hacur.
    { destruct (Hin _ _ _ Ha) as (s & Hs & Has).
      apply get2_Ok in Hcur; [|lia..]. congruence. }
    intros g1. apply wp_bind.
    eapply wp_mono;
      [apply wp_and; [apply wp_and; [apply visit_neighbors_spec|
                                     apply visit_neighbors_frame]|
                      apply (visit_neighbors_sound current cx cy p stack' g1 a);
                        [lia|lia|done..]]|].
    cbv beta. intros [[[p1 stack1]|b]|e|] l1 [[[Hl1 H] Hframe] Hsound]; try done.
    destruct H as (_ & Hm & _). destruct Hframe as (Hst & _ & _).
    intros g2. apply IH; [simpl in *; lia|done|].
    intros c [Hc|(v & Hv)]%Hst; [apply Hstack; by right|].
    rewrite Forall_forall in Hl1. apply Hl1 in Hv. simpl in Hv. lia.
Qed.

End PropagationSound.


(** ** Runs that raise neither [KeyError] nor [IndexError] *)

Lemma set2_lookup2 {A} (g : list (list A)) y x v :
  0 ≤ y → 0 ≤ x → is_Some (lookup2 g (Z.to_nat y) (Z.to_nat x)) →
  set2 g y x v = Ok (insert2 g (Z.to_nat y) (Z.to_nat x) v).
Proof.
  intros Hy Hx [a Ha]. unfold lookup2 in Ha. unfold set2, insert2.
  destruct (g !! Z.to_nat y) as [r|] eqn:Hr; [|done]. simpl in Ha.
  rewrite (proj2 (py_index_Ok g y r Hy) Hr). simpl.
  rewrite (proj2 (py_setitem_Ok r x v (<[Z.to_nat x := v]> r) Hx)). 2:{
    split; [|done]. by eapply lookup_lt_Some. }
  simpl. apply py_setitem_Ok; [done|]. split; [|done]. by eapply lookup_lt_Some.
Qed.

Lemma collapsed_count_insert2 c i j :
  lookup2 c i j = Some false →
  collapsed_count (insert2 c i j true) = S (collapsed_count c).
Proof.
  unfold lookup2, insert2, collapsed_count. intros H.
  destruct (c !! i) as [r|] eqn:Hr; [|done]. simpl in H.
  pose proof (sum_list_with_insert
    (sum_list_with (fun b : bool => if b then 1%nat else 0%nat)) c i r
    (<[j := true]> r) Hr) as H1.
  pose proof (sum_list_with_insert (fun b : bool => if b then 1%nat else 0%nat)
    r j false true H) as H2.
  cbv beta iota in H2. lia.
Qed.

Lemma collapsed_count_bound w h c :
  shape w h c →
  (collapsed_count c ≤ w * h)%nat ∧
  (_is_fully_collapsed c = true → collapsed_count c = (w * h)%nat).
Proof.
  intros [<- Hrows]. unfold collapsed_count, _is_fully_collapsed.
  induction Hrows as [|r c Hr _ IH]; simpl; [split; intros; lia|].
  assert ((sum_list_with (fun b : bool => if b then 1 else 0) r ≤ w)%nat ∧
          (forallb (fun b => b) r = true →
           sum_list_with (fun b : bool => if b then 1 else 0)%nat r = w)) as [Hle Heq].
  { subst w. clear. induction r as [|[] r [IH1 IH2]]; simpl; [done| |].
    - split; [lia|]. intros ?. rewrite IH2; done.
    - split; [lia|done]. }
  destruct IH as [IH1 IH2]. split; [lia|].
  intros [Hr1 Hc]%andb_true_iff. rewrite Heq, IH2 by done. lia.
Qed.

Section PropagationSafe.
Context {rng : Type}.
Variable self : WFCGenerator.
Variable collapsed : list (list bool).
Variables width height : Z.
Hypothesis shape_c : shape (Z.to_nat width) (Z.to_nat height) collapsed.

Lemma valid_for_neighbor_known current d :
  (∀ t, t ∈ current → is_Some (adjacency_rules self !! t)) →
  ∃ valid, valid_for_neighbor self current d = Ok valid.
Proof.
  intros Hknown. unfold valid_for_neighbor. apply for_each_Ok_intro.
  intros t valid Ht%elem_of_elements. destruct (Hknown _ Ht) as [e He].
  unfold getitem. rewrite He. simpl. eauto.
Qed.

Lemma known_ids_writes p p' :
  rtc (write collapsed) p p' → known_ids self p → known_ids self p'.
Proof.
  intros Hw Hk i j s' t Hs' Ht.
  pose proof (writes_lookup2 _ _ _ Hw i j) as H.
  destruct (lookup2 p i j) as [s|] eqn:Hs; [|congruence].
  destruct H as (s'' & Hs'' & Hsub & _). rewrite Hs' in Hs''. injection Hs'' as <-.
  apply (Hk i j s t Hs). set_solver.
Qed.

Lemma visit_neighbor_safe current n p stack g :
  shape (Z.to_nat width) (Z.to_nat height) p →
  (∀ t, t ∈ current → is_Some (adjacency_rules self !! t)) →
  wp (visit_neighbor rng self collapsed width height current n (p, stack)) g (fun r l =>
    match r with
    | Ok _ => True
    | _ => False
    end).
Proof.
  intros Hp Hknown. destruct n as [[nx ny] d]. unfold visit_neighbor.
  destruct (_ || _) eqn:Hoob; [by apply wp_ret|].
  rewrite !orb_false_iff in Hoob. rewrite !Z.ltb_ge, !Z.leb_gt in Hoob.
  destruct Hoob as (((Hx0 & Hx1) & Hy0) & Hy1).
  destruct (get2_shape _ _ _ ny nx shape_c) as (c & -> & _); [lia..|].
  apply wp_bind, wp_lift. intros g1. destruct c; [by apply wp_ret|].
  destruct (valid_for_neighbor_known current d Hknown) as [valid ->].
  apply wp_bind, wp_lift. intros g2.
  destruct (get2_shape _ _ _ ny nx Hp) as (old & -> & Hold); [lia..|].
  apply wp_bind, wp_lift. intros g3. simpl.
  destruct (_ =? 0); [by apply wp_ret|]. destruct (_ <? _); [|by apply wp_ret].
  rewrite set2_lookup2 by (done || by eexists).
  apply wp_bind, wp_lift. intros g4. apply wp_bind, wp_emit. intros g5. by apply wp_ret.
Qed.

Lemma visit_neighbors_safe current cx cy p stack g :
  shape (Z.to_nat width) (Z.to_nat height) p →
  (∀ t, t ∈ current → is_Some (adjacency_rules self !! t)) →
  wp (for_loop (neighbors cx cy)
        (visit_neighbor rng self collapsed width height current) (p, stack)) g (fun r l =>
    match r with
    | Ok _ => True
    | _ => False
    end).
Proof.
  intros Hp Hknown.
  eapply wp_mono.
  - apply (wp_for_loop _ (neighbors cx cy)
             (fun _ st _ => shape (Z.to_nat width) (Z.to_nat height) st.1)
             (fun _ _ => True) (fun _ _ => False)) with (lg := []); [|done].
    intros pre n suf [p1 stack1] lg g' _ Hp1. simpl in Hp1.
    eapply wp_mono;
      [apply wp_and; [apply visit_neighbor_spec|by apply visit_neighbor_safe]|].
    simpl. intros [[[p2 stack2]|b]|e|] l1 [[_ H] Hsafe]; try done.
    destruct H as (Hw & _). simpl. by eapply writes_shape.
  - simpl. by intros [[[p2 stack2]|b]|e|] l1.
Qed.

Lemma propagate_loop_safe fuel p stack g :
  (2 * total_size p + length stack ≤ fuel)%nat →
  shape (Z.to_nat width) (Z.to_nat height) p → known_ids self p →
  (∀ c, c ∈ stack → 0 ≤ c.1 < width ∧ 0 ≤ c.2 < height) →
  wp (propagate_loop rng self fuel collapsed width height p stack) g (fun r l =>
    match r with
    | Ok _ => True
    | _ => False
    end).
Proof.
  revert p stack g. induction fuel as [|fuel IH]; intros p stack g Hfuel Hp Hk Hstack.
  - destruct stack as [|[cx cy] stack']; simpl in *; [by apply wp_ret|lia].
  - destruct stack as [|[cx cy] stack']; simpl in *; [by apply wp_ret|].
    destruct (Hstack (cx, cy)) as [Hcx Hcy]; [by left|]. simpl in *.
    destruct (get2_shape _ _ _ cy cx Hp) as (current & -> & Hcur); [lia..|].
    apply wp_bind, wp_lift. intros g1. apply wp_bind.
    eapply wp_mono;
      [apply wp_and; [apply wp_and; [apply visit_neighbors_spec|
                                     apply visit_neighbors_frame]|
                      apply visit_neighbors_safe; [done|]]|].
    { intros t Ht. by eapply Hk. }
    simpl. intros [[[p1 stack1]|b]|e|] l1 [[[Hl1 H] Hframe] Hsafe]; try done.
    destruct H as (Hw & Hm & _). destruct Hframe as (Hst & _ & _).
    intros g2. apply IH; [lia|by eapply writes_shape|by eapply known_ids_writes|].
    intros c [Hc|(v & Hv)]%Hst; [apply Hstack; by right|].
    rewrite Forall_forall in Hl1. apply Hl1 in Hv. simpl in Hv. lia.
Qed.

Lemma propagate_safe p x y g :
  shape (Z.to_nat width) (Z.to_nat height) p → known_ids self p →
  0 ≤ x < width → 0 ≤ y < height →
  wp (_propagate rng self p collapsed x y width height) g (fun r l =>
    match r with
    | Ok _ => True
    | _ => False
    end).
Proof.
  intros Hp Hk Hx Hy. unfold _propagate.
  apply propagate_loop_safe; [simpl; lia|done..|].
  by intros c ->%list_elem_of_singleton.
Qed.

End PropagationSafe.

Section Safe.
Context {rng : Type}.
Variable genrand_res53 : rng → N * rng.
Variable self : WFCGenerator.
Variables width height : Z.
Hypothesis tile_by_id_built : tile_by_id self = index_by_id (tiles self).
Hypothesis table_total : ∀ i, i ∈ all_tile_ids self → is_Some (adjacency_rules self !! i).

(** On a non-empty set of catalog ids the draw returns one of them, unless
    [random.choices] rejects the weights. *)
Lemma collapse_cell_safe (s : gset Z) g :
  s ≠ ∅ → s ⊆ all_tile_ids self →
  wp (_collapse_cell rng genrand_res53 self s) g (fun r l =>
    l = [] ∧
    match r with
    | Ok chosen => chosen ∈ s
    | Raise e => e = ValueError
    | Timeout => False
    end).
Proof.
  intros Hne Hsub.
  eapply wp_mono;
    [apply wp_and; [by apply collapse_cell_spec|apply collapse_cell_cases]|].
  cbv beta. intros r l [[-> Hin] Hcases]. split; [done|].
  assert (∀ i, i ∈ s → is_Some (tile_by_id self !! i)) as Hknown.
  { intros i Hi. apply Hsub in Hi. unfold all_tile_ids in Hi.
    rewrite elem_of_list_to_set in Hi. apply index_by_id_is_Some in Hi.
    by rewrite tile_by_id_built. }
  destruct r as [chosen|[]|]; [done| | |done|done]; exfalso.
  - destruct Hcases as (i & Hi & Hnone). destruct (Hknown _ Hi) as [? ?]. congruence.
  - by destruct Hcases as [_ ?].
Qed.

Hypothesis some_tile : tiles self ≠ [].

Lemma all_tile_ids_nonempty : all_tile_ids self ≠ ∅.
Proof.
  unfold all_tile_ids. destruct (tiles self) as [|T ts]; [done|]. simpl.
  apply (non_empty_inhabited_L (tile_id T)). set_solver.
Qed.

(** The loop of [generate] for a catalog with a tile and a table entry
    for every id: no exception other than the one of the draw, one more
    collapsed cell with every iteration. *)
Lemma main_loop_safe max_iterations fuel p c iterations g :
  solver_inv self width height p c →
  iterations = Z.of_nat (collapsed_count c) →
  (Z.to_nat (max_iterations - iterations) ≤ fuel)%nat →
  wp (main_loop rng genrand_res53 self fuel width height max_iterations p c iterations) g
    (fun r l =>
       match r with
       | Ok (Next e) =>
           solver_inv self width height (end_possibilities e) (end_collapsed e) ∧
           end_iterations e = Z.of_nat (collapsed_count (end_collapsed e)) ∧
           (_is_fully_collapsed (end_collapsed e) = true ∨
            max_iterations ≤ end_iterations e)
       | Ok (Return ex) =>
           ∃ x y, ex = ReturnNone_Contradiction x y ∧ 0 ≤ x < width ∧ 0 ≤ y < height
       | Raise e => e = ValueError
       | Timeout => False
       end).
Proof.
  revert p c iterations g. induction fuel as [|fuel IH]; intros p c iterations g Hinv Hit Hfuel.
  all: simpl; destruct (_is_fully_collapsed c) eqn:Hfull; simpl.
  all: try (apply wp_ret; split_and!; [done|done|by left]).
  all: destruct (Z.ltb_spec iterations max_iterations) as [Hlt|Hge].
  all: try (apply wp_ret; split_and!; [done|done|right; simpl; lia]).
  { lia. }
  pose proof Hinv as [Hsp Hsc Hids Hnonempty _ _].
  apply wp_bind.
  eapply wp_mono;
    [by apply (find_min_entropy_cell_shape_spec genrand_res53
                 (Z.to_nat width) (Z.to_nat height) p c)|].
  cbv beta. intros [[[y x]|]| |] l0 [-> Hmin]; try done.
  2:{ exfalso. destruct Hmin as [(i & j & _ & Hempty)|Hall].
      - by apply (Hnonempty all_tile_ids_nonempty) in Hempty.
      - destruct (fully_collapsed_false _ Hfull) as (i & j & Hij).
        by apply Hall in Hij. }
  destruct Hmin as (i & j & s & -> & -> & Hc & Hs & Hne & _).
  assert (is_Some (lookup2 p i j)) as Hij by by eexists.
  apply (shape_lookup2 _ _ _ _ _ Hsp) in Hij as [Hi Hj].
  intros g1. apply wp_bind, wp_lift.
  rewrite (proj2 (get2_Ok p (Z.of_nat i) (Z.of_nat j) s ltac:(lia) ltac:(lia)))
    by (by rewrite !Nat2Z.id).
  intros g2. apply wp_bind.
  eapply wp_mono; [apply collapse_cell_safe; [done|by eapply Hids]|].
  cbv beta. intros [chosen|e|] l1 [-> Hchosen]; [|done..].
  intros g3. apply wp_bind, wp_lift.
  rewrite set2_lookup2 by (lia || rewrite !Nat2Z.id; by eexists).
  intros g4. apply wp_bind, wp_emit. intros g5. apply wp_bind, wp_lift.
  rewrite set2_lookup2 by (lia || rewrite !Nat2Z.id; by eexists).
  intros g6. apply wp_bind, wp_emit. intros g7. apply wp_bind.
  rewrite !Nat2Z.id.
  set (c1 := insert2 c i j true). set (p1 := insert2 p i j {[chosen]}).
  assert (shape (Z.to_nat width) (Z.to_nat height) p1) as Hsp1 by by apply shape_insert2.
  assert (shape (Z.to_nat width) (Z.to_nat height) c1) as Hsc1 by by apply shape_insert2.
  assert (known_ids self p1) as Hk1.
  { intros i' j' s' t Hs' Ht. apply table_total. unfold p1 in Hs'.
    rewrite lookup2_insert2 in Hs'. case_decide as Hd.
    - rewrite Hs in Hs'. injection Hs' as <-. apply elem_of_singleton in Ht as ->.
      by eapply Hids.
    - by eapply Hids. }
  eapply wp_mono;
    [apply wp_and; [apply propagate_spec|
                    apply (propagate_safe self c1 width height Hsc1 p1); [done|done|lia..]]|].
  cbv beta. intros [[b p2]| |] lp [[Hlp Hprop] Hsafe]; try done.
  intros g8. destruct b.
  2:{ apply wp_ret. exists (Z.of_nat j), (Z.of_nat i). split; [done|lia]. }
  destruct (Hprop eq_refl) as [Hw Hvis].
  assert (solver_inv self width height p2 c1) as Hinv2.
  { eapply solver_inv_step; [done..|].
    intros d i' j' s' Hadj Hc1' Hs2'.
    assert (get2 p1 (Z.of_nat i) (Z.of_nat j) = Ok {[chosen]}) as Hcur.
    { apply get2_Ok; [lia..|]. rewrite !Nat2Z.id. apply lookup2_insert2_eq. by eexists. }
    specialize (Hvis _ Hcur). rewrite Forall_forall in Hvis.
    pose proof (adjacent_neighbors _ _ _ _ _ Hadj) as Hn.
    specialize (Hvis _ Hn). simpl in Hvis.
    pose proof (proj1 (shape_lookup2 _ _ c1 i' j' Hsc1) ltac:(by eexists)) as [Hi' Hj'].
    destruct Hvis as (s'' & Hs'' & Hsup); [lia|lia| |].
    - apply get2_Ok; [lia..|]. by rewrite !Nat2Z.id.
    - apply get2_Ok in Hs''; [|lia..]. rewrite !Nat2Z.id in Hs''.
      rewrite Hs2' in Hs''. by apply (inj Some) in Hs'' as <-. }
  eapply wp_mono; [apply IH; [done| |lia]|].
  - unfold c1. rewrite collapsed_count_insert2 by done. lia.
  - cbv beta. by intros [[e|ex]| |] lrest.
Qed.

End Safe.

(** ** Degenerate sizes *)

Lemma main_loop_skipped {rng} (genrand_res53 : rng → N * rng) self fuel width height
    max_iterations p c iterations g :
  negb (_is_fully_collapsed c) && (iterations <? max_iterations) = false →
  main_loop rng genrand_res53 self fuel width height max_iterations p c iterations g =
  (Ok (Next {| end_possibilities := p; end_collapsed := c;
               end_iterations := iterations |}), g, []).
Proof. intros H. destruct fuel; simpl; by rewrite H. Qed.

Lemma generate_no_area {rng} (genrand_res53 : rng → N * rng) (seed_rng : Z → rng)
    self width height seed g :
  width * height ≤ 0 →
  generate rng genrand_res53 seed_rng self width height seed g =
  (Ok (ReturnNone_MaxIterations (width * height * 100)),
   match seed with Some s => seed_rng s | None => g end, []).
Proof.
  intros Harea. unfold generate, mbind, M_bind.
  assert (∀ fuel g1,
    main_loop rng genrand_res53 self fuel width height (width * height * 100)
      (initial_possibilities self width height) (initial_collapsed width height) 0 g1 =
    (Ok (Next {| end_possibilities := initial_possibilities self width height;
                 end_collapsed := initial_collapsed width height;
                 end_iterations := 0 |}), g1, [])) as Hloop.
  { intros fuel g1. apply main_loop_skipped.
    rewrite andb_false_iff. right. apply Z.ltb_ge. lia. }
  assert (after_loop rng width height (width * height * 100)
            {| end_possibilities := initial_possibilities self width height;
               end_collapsed := initial_collapsed width height;
               end_iterations := 0 |} =
          mret (ReturnNone_MaxIterations (width * height * 100))) as Hafter.
  { unfold after_loop. simpl. by rewrite (proj2 (Z.leb_le _ _)) by lia. }
  destruct seed as [s|]; simpl; rewrite Hloop, Hafter; done.
Qed.

Lemma generate_negative {rng} (genrand_res53 : rng → N * rng) (seed_rng : Z → rng)
    self width height seed g :
  width < 0 → height < 0 →
  generate rng genrand_res53 seed_rng self width height seed g =
  (Ok (ReturnGrid []), match seed with Some s => seed_rng s | None => g end, []).
Proof.
  intros Hw Hh. unfold generate, mbind, M_bind.
  assert (range height = []) as Hrange by (unfold range; apply seqZ_nil; lia).
  assert (initial_collapsed width height = []) as Hc
    by (unfold initial_collapsed; by rewrite Hrange).
  assert (initial_possibilities self width height = []) as Hp
    by (unfold initial_possibilities; by rewrite Hrange).
  rewrite Hc, Hp.
  assert (∀ fuel g1,
    main_loop rng genrand_res53 self fuel width height (width * height * 100) [] [] 0 g1 =
    (Ok (Next {| end_possibilities := []; end_collapsed := [];
                 end_iterations := 0 |}), g1, [])) as Hloop.
  { intros fuel g1. by apply main_loop_skipped. }
  assert (after_loop rng width height (width * height * 100)
            {| end_possibilities := []; end_collapsed := []; end_iterations := 0 |} =
          (mret (ReturnGrid []) : M rng exit)) as Hafter.
  { unfold after_loop. simpl. rewrite (proj2 (Z.leb_gt _ _)) by nia.
    unfold final_grid. by rewrite Hrange. }
  destruct seed as [s|]; simpl; rewrite Hloop, Hafter; done.
Qed.

(** X10: with [width * height <= 0] the loop of [generate] is not entered and
    the call returns [None] through the max-iterations exit, without a draw
    or a write; with both dimensions negative the loop is not entered either
    and the call returns the empty grid. *)
Theorem generate_degenerate_sizes {rng} (genrand_res53 : rng → N * rng)
    (seed_rng : Z → rng) self width height seed g :
  let g0 := match seed with Some s => seed_rng s | None => g end in
  (width * height ≤ 0 →
   generate rng genrand_res53 seed_rng self width height seed g =
   (Ok (ReturnNone_MaxIterations (width * height * 100)), g0, [])) ∧
  (width < 0 → height < 0 →
   generate rng genrand_res53 seed_rng self width height seed g =
   (Ok (ReturnGrid []), g0, [])).
Proof. split; [apply generate_no_area|apply generate_negative]. Qed.

(** ** Runs of [generate] on a usable catalog *)

Lemma collapsed_count_initial width height :
  collapsed_count (initial_collapsed width height) = 0%nat.
Proof.
  unfold collapsed_count, initial_collapsed.
  induction (range height) as [|y ys IH]; [done|]. rewrite fmap_cons.
  cbn [sum_list_with]. rewrite IH. clear IH.
  induction (Z.to_nat width) as [|n IHn]; simpl; [done|]. exact IHn.
Qed.

(** A fully collapsed state converts to a grid. *)
Lemma final_grid_collapsed self width height p c :
  solver_inv self width height p c → _is_fully_collapsed c = true →
  ∃ grid, final_grid p width height = Ok grid.
Proof.
  intros [Hsp Hsc _ _ Hsing _] Hfull. unfold final_grid.
  destruct (comprehension_Ok_intro
    (fun y => comprehension
                (fun x => cell ← get2 p y x; py_index (elements cell) 0) (range width))
    (range height) (fun _ => True)) as (grid & Hgrid & _); [|by exists grid].
  intros y Hy%elem_of_range.
  destruct (comprehension_Ok_intro
    (fun x => cell ← get2 p y x; py_index (elements cell) 0)
    (range width) (fun _ => True)) as (row & Hrow & _); [|by exists row].
  intros x Hx%elem_of_range.
  destruct (get2_shape _ _ _ y x Hsc) as (b & _ & Hb); [lia..|].
  pose proof (fully_collapsed_true _ _ _ _ Hfull Hb) as ->.
  destruct (Hsing _ _ Hb) as [t Ht].
  rewrite (proj2 (get2_Ok p y x {[t]} ltac:(lia) ltac:(lia)) Ht). simpl.
  rewrite elements_singleton. by exists t.
Qed.

Section Usable.
Context {rng : Type}.
Variable genrand_res53 : rng → N * rng.
Variable seed_rng : Z → rng.
Variables (data : catalog_data) (self : WFCGenerator).
Hypothesis built : WFCGenerator_init data = Ok self.
Hypothesis some_tile : tiles self ≠ [].

(** The loop of [generate] from its initial state, for positive sizes. *)
Lemma generate_loop_spec width height g :
  0 < width → 0 < height →
  wp (main_loop rng genrand_res53 self (Z.to_nat (width * height * 100)) width height
        (width * height * 100) (initial_possibilities self width height)
        (initial_collapsed width height) 0) g
    (fun r _ =>
       match r with
       | Ok (Next e) =>
           solver_inv self width height (end_possibilities e) (end_collapsed e) ∧
           end_iterations e = width * height ∧
           _is_fully_collapsed (end_collapsed e) = true
       | Ok (Return ex) =>
           ∃ x y, ex = ReturnNone_Contradiction x y ∧ 0 ≤ x < width ∧ 0 ≤ y < height
       | Raise e => e = ValueError
       | Timeout => False
       end).
Proof.
  intros Hw Hh. pose proof (init_Ok _ _ built) as (Hidx & _).
  eapply wp_mono.
  - apply (main_loop_safe genrand_res53 self width height Hidx); try done.
    + intros i Hi. by apply (built_keys _ _ i built).
    + by apply solver_inv_initial.
    + by rewrite collapsed_count_initial.
    + lia.
  - cbv beta. intros [[e|ex]| |] _; try done.
    intros (Hinv & Hit & Hend).
    pose proof (collapsed_count_bound _ _ _ (inv_shape_c _ _ _ _ _ Hinv)) as [Hle Heq].
    assert (_is_fully_collapsed (end_collapsed e) = true) as Hfull.
    { destruct Hend as [?|Hcap]; [done|]. nia. }
    split_and!; [done| |done].
    rewrite Hit, Heq, Nat2Z.inj_mul, !Z2Nat.id by (done || lia). done.
Qed.

Lemma generate_outcome width height seed g :
  match result (generate rng genrand_res53 seed_rng self width height seed g) with
  | Ok (ReturnGrid grid) => (0 < width ∧ 0 < height) ∨ (width < 0 ∧ height < 0 ∧ grid = [])
  | Ok (ReturnNone_Contradiction x y) => 0 ≤ x < width ∧ 0 ≤ y < height
  | Ok (ReturnNone_MaxIterations n) => width * height ≤ 0 ∧ n = width * height * 100
  | Raise e => e = ValueError
  | Timeout => False
  end.
Proof.
  destruct (Z.le_gt_cases (width * height) 0) as [Harea|Harea].
  { by rewrite (generate_no_area genrand_res53 seed_rng self _ _ seed g Harea). }
  destruct (Z.lt_ge_cases width 0) as [Hw|Hw].
  { assert (height < 0) as Hh.
    { destruct (Z.lt_ge_cases height 0) as [?|Hh]; [done|].
      pose proof (Z.mul_nonpos_nonneg width height ltac:(lia) Hh). lia. }
    rewrite (generate_negative genrand_res53 seed_rng self _ _ seed g Hw Hh).
    simpl. by right. }
  assert (0 < width ∧ 0 < height) as [Hw' Hh'].
  { destruct (Z.lt_ge_cases 0 height) as [?|Hh]; [split; [|done]|].
    - destruct (Z.eq_dec width 0) as [->|?]; lia.
    - pose proof (Z.mul_nonneg_nonpos width height Hw ltac:(lia)). lia. }
  apply (wp_result_writes (generate rng genrand_res53 seed_rng self width height seed) g
           (fun r _ => match r with Ok _ => _ | Raise _ => _ | Timeout => _ end)).
  unfold generate. apply wp_seed. intros g0. cbv zeta. apply wp_bind.
  eapply wp_mono; [by apply generate_loop_spec|]. cbv beta.
  intros [[e|ex]| |] _; try done.
  - intros (Hinv & Hit & Hfull) g1. unfold after_loop.
    rewrite (proj2 (Z.leb_gt _ _)) by lia.
    destruct (final_grid_collapsed _ _ _ _ _ Hinv Hfull) as [grid ->].
    apply wp_bind, wp_lift. intros g2. apply wp_ret. by left.
  - intros (x & y & -> & Hx & Hy) g1. by apply wp_ret.
Qed.

End Usable.

(** X11: for a catalog with at least one tile, [generate] raises neither
    [KeyError] nor [IndexError], whatever the weights, the sizes, the seed
    and the draws: the only exception of a run is the one with which
    [random.choices] rejects the weights.  A run that raises nothing returns
    a grid (for positive sizes, or the empty grid when both sizes are
    negative), or [None] for a contradiction at a cell inside the grid, or
    [None] at the iteration cap, which happens only when
    [width * height <= 0]. *)
Theorem generate_never_raises {rng} (genrand_res53 : rng → N * rng) (seed_rng : Z → rng)
    data self width height seed g :
  WFCGenerator_init data = Ok self →
  tiles self ≠ [] →
  match result (generate rng genrand_res53 seed_rng self width height seed g) with
  | Ok (ReturnGrid grid) => (0 < width ∧ 0 < height) ∨ (width < 0 ∧ height < 0 ∧ grid = [])
  | Ok (ReturnNone_Contradiction x y) => 0 ≤ x < width ∧ 0 ≤ y < height
  | Ok (ReturnNone_MaxIterations n) => width * height ≤ 0 ∧ n = width * height * 100
  | Raise e => e ≠ KeyError ∧ e ≠ IndexError
  | Timeout => False
  end.
Proof.
  intros Hinit Hne.
  pose proof (generate_outcome genrand_res53 seed_rng data self Hinit Hne
                width height seed g) as H.
  destruct (result _) as [[]|e|]; [done..| |done]. by subst e.
Qed.


(** ** Catalogs with which every run fails *)

Lemma range_pos n : 0 < n → range n = 0 :: seqZ 1 (n - 1).
Proof. intros Hn. unfold range. by rewrite seqZ_cons by lia. Qed.

Lemma fully_collapsed_initial width height :
  0 < width → 0 < height → _is_fully_collapsed (initial_collapsed width height) = false.
Proof.
  intros Hw Hh. unfold initial_collapsed. rewrite (range_pos height Hh), fmap_cons.
  destruct (Z.to_nat width) as [|n] eqn:Hn; [lia|]. done.
Qed.

Lemma lookup2_initial_possibilities_origin self width height :
  0 < width → 0 < height →
  lookup2 (initial_possibilities self width height) 0 0 = Some (all_tile_ids self).
Proof.
  intros Hw Hh. unfold initial_possibilities.
  by rewrite (range_pos height Hh), (range_pos width Hw).
Qed.

Lemma final_grid_empty_origin p width height :
  0 < width → 0 < height → lookup2 p 0 0 = Some ∅ →
  final_grid p width height = Raise IndexError.
Proof.
  intros Hw Hh Hp. unfold final_grid.
  rewrite (range_pos height Hh). cbn [comprehension].
  rewrite (range_pos width Hw). cbn [comprehension].
  rewrite (proj2 (get2_Ok p 0 0 ∅ ltac:(lia) ltac:(lia)) Hp). simpl.
  by rewrite elements_empty.
Qed.

Section Failing.
Context {rng : Type}.
Variable genrand_res53 : rng → N * rng.
Variable seed_rng : Z → rng.
Variables (data : catalog_data) (self : WFCGenerator).
Hypothesis built : WFCGenerator_init data = Ok self.
Variables width height : Z.
Hypothesis positive_width : 0 < width.
Hypothesis positive_height : 0 < height.

(** The first iteration of the loop of [generate]. *)
Lemma main_loop_first fuel g0 (Q : res (flow loop_end exit) → list event → Prop) :
  wp (min_cell ← _find_min_entropy_cell rng genrand_res53
                   (initial_possibilities self width height)
                   (initial_collapsed width height);
      match min_cell with
      | None =>
          mret (Next {| end_possibilities := initial_possibilities self width height;
                        end_collapsed := initial_collapsed width height;
                        end_iterations := 0 + 1 |})
      | Some (y, x) =>
          cell ← lift (get2 (initial_possibilities self width height) y x);
          chosen_tile ← _collapse_cell rng genrand_res53 self cell;
          p ← lift (set2 (initial_possibilities self width height) y x {[chosen_tile]});
          _ ← emit (SetPossibilities y x {[chosen_tile]});
          c ← lift (set2 (initial_collapsed width height) y x true);
          _ ← emit (SetCollapsed y x);
          '(ok, p) ← _propagate rng self p c x y width height;
          if ok : bool then
            main_loop rng genrand_res53 self fuel width height (width * height * 100)
              p c (0 + 1)
          else mret (Return (ReturnNone_Contradiction x y))
      end) g0 Q →
  wp (main_loop rng genrand_res53 self (S fuel) width height (width * height * 100)
        (initial_possibilities self width height) (initial_collapsed width height) 0) g0 Q.
Proof.
  intros H. assert (0 < width * height * 100) as Hmax by nia.
  rewrite main_loop_unfold, fully_collapsed_initial by done.
  by rewrite (proj2 (Z.ltb_lt _ _) Hmax).
Qed.

Lemma generate_first (Q : res exit → list event → Prop) seed g :
  (∀ fuel g0,
     wp (main_loop rng genrand_res53 self (S fuel) width height (width * height * 100)
           (initial_possibilities self width height) (initial_collapsed width height) 0
         ≫= fun f =>
              match f with
              | Return e => mret e
              | Next e => after_loop rng width height (width * height * 100) e
              end) g0 Q) →
  wp (generate rng genrand_res53 seed_rng self width height seed) g Q.
Proof.
  intros H. unfold generate. apply wp_seed. intros g0. cbv zeta.
  assert (0 < width * height * 100) as Hmax by nia.
  destruct (Z.to_nat (width * height * 100)) as [|fuel] eqn:Hfuel; [lia|]. apply H.
Qed.

Lemma first_scan_spec g :
  wp (_find_min_entropy_cell rng genrand_res53
        (initial_possibilities self width height) (initial_collapsed width height)) g
    (fun r l =>
       l = [] ∧
       match r with
       | Ok (Some (y, x)) =>
           all_tile_ids self ≠ ∅ ∧
           get2 (initial_possibilities self width height) y x = Ok (all_tile_ids self)
       | Ok None => all_tile_ids self = ∅
       | _ => False
       end).
Proof.
  pose proof (solver_inv_initial self width height) as [Hsp Hsc _ _ _ _].
  eapply wp_mono; [by apply (find_min_entropy_cell_shape_spec genrand_res53 _ _ _ _ g Hsp)|].
  cbv beta. intros [[[y x]|]| |] l [-> H]; (split; [done|]); [| |done..].
  - destruct H as (i & j & s & -> & -> & _ & Hs & Hne & _).
    pose proof (lookup2_initial_possibilities _ _ _ _ _ _ Hs) as ->.
    split; [done|]. apply get2_Ok; [lia..|]. by rewrite !Nat2Z.id.
  - destruct H as [(i & j & _ & Hs)|Hall].
    + by rewrite (lookup2_initial_possibilities _ _ _ _ _ _ Hs).
    + exfalso.
      destruct (proj2 (shape_lookup2 _ _ _ 0 0 Hsc)) as [b Hb]; [lia|].
      pose proof (lookup2_initial_collapsed _ _ _ _ _ Hb) as ->. by apply Hall in Hb.
Qed.

Lemma generate_empty_catalog seed g :
  tiles self = [] →
  result (generate rng genrand_res53 seed_rng self width height seed g) = Raise IndexError.
Proof.
  intros Hempty.
  assert (all_tile_ids self = ∅) as Hids by (unfold all_tile_ids; by rewrite Hempty).
  apply (wp_result_writes (generate rng genrand_res53 seed_rng self width height seed) g
           (fun r _ => r = Raise IndexError)).
  apply generate_first. intros fuel g0. apply wp_bind, main_loop_first, wp_bind.
  eapply wp_mono; [apply first_scan_spec|]. cbv beta.
  intros [[[y x]|]| |] l [-> H]; [by destruct H| |done..].
  intros g1. apply wp_ret. intros g2. unfold after_loop. simpl end_iterations.
  rewrite (proj2 (Z.leb_gt _ _)) by nia.
  apply wp_bind, wp_lift. simpl end_possibilities.
  rewrite final_grid_empty_origin; [done..|].
  by rewrite lookup2_initial_possibilities_origin, Hids.
Qed.

Lemma total_weight_zero (s : gset Z) :
  (∀ T, T ∈ tiles self → (tile_weight T == 0)%Q) → (total_weight self s == 0)%Q.
Proof.
  intros Hzero. pose proof (init_Ok _ _ built) as (Hidx & _).
  unfold total_weight. induction (elements s) as [|i l IH]; [done|].
  rewrite fmap_cons. cbn [foldr]. rewrite IH.
  unfold weight_of. destruct (tile_by_id self !! i) as [T|] eqn:HT; simpl; [|lra].
  rewrite Hidx in HT. apply index_by_id_dom in HT as [HT _].
  rewrite (Hzero _ HT). lra.
Qed.

Lemma generate_zero_weights seed g :
  tiles self ≠ [] →
  (∀ T, T ∈ tiles self → (tile_weight T == 0)%Q) →
  result (generate rng genrand_res53 seed_rng self width height seed g) = Raise ValueError.
Proof.
  intros Hne Hzero.
  pose proof (total_weight_zero (all_tile_ids self) Hzero) as Hweight.
  apply (wp_result_writes (generate rng genrand_res53 seed_rng self width height seed) g
           (fun r _ => r = Raise ValueError)).
  apply generate_first. intros fuel g0. apply wp_bind, main_loop_first, wp_bind.
  eapply wp_mono; [apply first_scan_spec|]. cbv beta.
  intros [[[y x]|]| |] l [-> H]; [| |done..].
  2:{ exfalso. revert H. unfold all_tile_ids. destruct (tiles self) as [|T ts]; [done|].
      simpl. intros H. apply (f_equal (fun s : gset Z => bool_decide (tile_id T ∈ s))) in H.
      rewrite bool_decide_eq_true_2, bool_decide_eq_false_2 in H by set_solver. done. }
  destruct H as [Hids ->]. intros g1. apply wp_bind, wp_lift. intros g2. apply wp_bind.
  eapply wp_mono; [apply collapse_cell_cases|]. cbv beta.
  intros [chosen|[]|] l1 H; [exfalso..|done|done].
  - destruct H as (_ & Hpos & _). lra.
  - destruct H as (i & Hi & Hnone). apply (built_keys _ _ i built) in Hi as [? ?]. congruence.
  - by destruct H as [_ ?].
Qed.

End Failing.

(** X13: with a catalog that has no tile, [generate] fails for all
    positive sizes, and it fails with [IndexError] when it reads the tile of
    the first cell, not with [None]: the scan returns [None] for the first
    cell, which has no candidate, and the loop ends as if every cell were
    collapsed. *)
Theorem generate_empty_catalog_raises {rng} (genrand_res53 : rng → N * rng)
    (seed_rng : Z → rng) data self width height seed g :
  WFCGenerator_init data = Ok self →
  tiles self = [] → 0 < width → 0 < height →
  result (generate rng genrand_res53 seed_rng self width height seed g) = Raise IndexError.
Proof. intros. by eapply generate_empty_catalog. Qed.

(** X14: weights are not checked when the catalog is loaded.  A catalog
    in which every tile has the weight zero is accepted, and [generate] then
    fails for all positive sizes with [ValueError], raised by
    [random.choices] at the first cell it collapses. *)
Theorem generate_zero_weights_raise {rng} (genrand_res53 : rng → N * rng)
    (seed_rng : Z → rng) data self width height seed g :
  WFCGenerator_init data = Ok self →
  tiles self ≠ [] →
  (∀ T, T ∈ tiles self → (tile_weight T == 0)%Q) →
  0 < width → 0 < height →
  result (generate rng genrand_res53 seed_rng self width height seed g) = Raise ValueError.
Proof. intros. by eapply generate_zero_weights. Qed.

(** ** A reported contradiction is real *)

Lemma wp_impl {rng A} (m : M rng A) g (P : Prop) (Q : res A → list event → Prop) :
  (P → wp m g Q) → wp m g (fun r l => P → Q r l).
Proof. unfold wp. auto. Qed.

Lemma agrees_suffix G l0 l : agrees G (l0 ++ l) → agrees G l.
Proof.
  intros H l1 y x t l2 ->. apply (H (l0 ++ l1) y x t l2). by rewrite <- app_assoc.
Qed.

Section Contradiction.
Context {rng : Type}.
Variable genrand_res53 : rng → N * rng.
Variable self : WFCGenerator.
Variables width height : Z.
Variable G : list (list Z).
Hypothesis tile_by_id_built : tile_by_id self = index_by_id (tiles self).
Hypothesis shape_G : shape (Z.to_nat width) (Z.to_nat height) G.
Hypothesis valid_G : valid_assignment self G.

(** A valid grid that fits the candidates and agrees with the tiles chosen
    during the rest of the run rules out a contradiction. *)
Lemma main_loop_sound max_iterations fuel p c iterations g :
  solver_inv self width height p c →
  (Z.to_nat (max_iterations - iterations) ≤ fuel)%nat →
  wp (main_loop rng genrand_res53 self fuel width height max_iterations p c iterations) g
    (fun r l =>
       match r with
       | Ok (Return _) => within G p → agrees G l → False
       | Timeout => False
       | _ => True
       end).
Proof.
  revert p c iterations g. induction fuel as [|fuel IH]; intros p c iterations g Hinv Hfuel.
  all: simpl; destruct (_is_fully_collapsed c) eqn:Hfull; simpl.
  all: try (by apply wp_ret).
  all: destruct (Z.ltb_spec iterations max_iterations) as [Hlt|Hge].
  all: try (by apply wp_ret).
  { lia. }
  pose proof Hinv as [Hsp Hsc _ _ _ _].
  apply wp_bind.
  eapply wp_mono; [apply find_min_entropy_cell_spec|]. simpl.
  intros [[[y x]|]|e|] l0 [-> Hmin]; try done.
  destruct Hmin as (Hin & Hc & s & Hs & Hnz & _).
  pose proof (columns_shape _ _ _ _ _ Hsp Hin) as [Hy Hx].
  intros g1. apply wp_bind, wp_lift. rewrite Hs.
  intros g2. apply wp_bind.
  eapply wp_mono; [by apply collapse_cell_spec|]. simpl.
  intros [chosen|e|] l0 [-> Hchosen]; try done.
  intros g3. apply wp_bind, wp_lift.
  destruct (set2 p y x {[chosen]}) as [p1| |] eqn:Hp1; [|done|by apply set2_outcome in Hp1].
  apply set2_Ok in Hp1 as [_ ->]; [|lia..].
  intros g4. apply wp_bind, wp_emit.
  intros g5. apply wp_bind, wp_lift.
  destruct (set2 c y x true) as [c1| |] eqn:Hc1; [|done|by apply set2_outcome in Hc1].
  apply set2_Ok in Hc1 as [_ ->]; [|lia..].
  intros g6. apply wp_bind, wp_emit.
  intros g7. apply wp_bind.
  set (i := Z.to_nat y) in *. set (j := Z.to_nat x) in *.
  set (c1 := insert2 c i j true). set (p1 := insert2 p i j {[chosen]}).
  apply get2_Ok in Hs as Hs'; [|lia..]. apply get2_Ok in Hc as Hc'; [|lia..].
  fold i j in Hs', Hc'.
  eapply wp_mono;
    [apply wp_and;
       [apply propagate_spec|
        apply (wp_impl _ _ (within G p1)); intros Hin1;
        apply (propagate_loop_sound self c1 width height G shape_G valid_G
                 (2 * total_size p1 + 2) p1 [(x, y)] g7);
          [simpl; lia|done|by intros ? ->%list_elem_of_singleton]]|].
  cbv beta. intros [[b p2]|e|] lp [[Hlp Hprop] Hsound]; [| |by destruct Hsound].
  2:{ done. }
  assert (∀ lrest, within G p →
            agrees G ([] ++ ([] ++ ([] ++ [SetPossibilities y x {[chosen]}] ++
                        [] ++ [SetCollapsed y x] ++ lp ++ lrest))) →
            within G p1) as Hstep.
  { intros lrest Hwithin Hagree. simpl in Hagree.
    pose proof (Hagree [] y x chosen (lp ++ lrest) eq_refl) as HG. fold i j in HG.
    intros i' j' a Ha. unfold p1. rewrite lookup2_insert2. case_decide as Hd.
    - destruct Hd as [<- <-]. rewrite Hs'. simpl. exists {[chosen]}. split; [done|].
      apply elem_of_singleton. congruence.
    - by apply Hwithin. }
  intros g8. destruct b.
  2:{ apply wp_ret. intros Hwithin Hagree. rewrite app_nil_r in Hagree.
      rewrite <- (app_nil_r lp) in Hagree. by apply Hsound, (Hstep []). }
  destruct (Hprop eq_refl) as [Hw Hvis].
  assert (solver_inv self width height p2 c1) as Hinv2.
  { eapply solver_inv_step; [done..|].
    intros d i' j' s' Hadj Hc1' Hs2'.
    assert (get2 p1 y x = Ok {[chosen]}) as Hcur.
    { apply get2_Ok; [lia..|]. apply lookup2_insert2_eq. exists s. exact Hs'. }
    specialize (Hvis _ Hcur). rewrite Forall_forall in Hvis.
    pose proof (adjacent_neighbors _ _ _ _ _ Hadj) as Hn.
    unfold i, j in Hn. rewrite !Z2Nat.id in Hn by lia.
    specialize (Hvis _ Hn). simpl in Hvis.
    pose proof (proj1 (shape_lookup2 _ _ c1 i' j'
                        ltac:(by apply shape_insert2)) ltac:(by eexists)) as [Hi' Hj'].
    destruct Hvis as (s'' & Hs'' & Hsup); [lia|lia| |].
    - apply get2_Ok; [lia..|]. by rewrite !Nat2Z.id.
    - apply get2_Ok in Hs''; [|lia..]. rewrite !Nat2Z.id in Hs''.
      rewrite Hs2' in Hs''. by apply (inj Some) in Hs'' as <-. }
  eapply wp_mono; [apply IH; [done|lia]|]. cbv beta.
  intros [[e|ex]| |] lrest Hrest; try done.
  intros Hwithin Hagree. apply Hrest.
  - by apply Hsound, (Hstep lrest).
  - simpl in Hagree.
    apply (agrees_suffix G (SetPossibilities y x {[chosen]} :: SetCollapsed y x :: lp)).
    exact Hagree.
Qed.

End Contradiction.

(** X15: a contradiction that [generate] reports is real.  When the
    call returns [None] after "Contradiction detected", no grid over the
    catalog that the adjacency table allows for every pair of adjacent cells
    has, at the cells collapsed during the run, the tiles that were chosen
    for them. *)
Theorem generate_contradiction_sound {rng} (genrand_res53 : rng → N * rng)
    (seed_rng : Z → rng) data self width height seed g x y G :
  WFCGenerator_init data = Ok self →
  let run := generate rng genrand_res53 seed_rng self width height seed g in
  result run = Ok (ReturnNone_Contradiction x y) →
  shape (Z.to_nat width) (Z.to_nat height) G →
  (∀ i j a, lookup2 G i j = Some a → a ∈ all_tile_ids self) →
  valid_assignment self G →
  ¬ agrees G (writes run).
Proof.
  intros (Hidx & _)%init_Ok run Hr HG Hids Hvalid Hagree.
  assert (within G (initial_possibilities self width height)) as Hwithin.
  { intros i j a Ha. exists (all_tile_ids self). split; [|by eapply Hids].
    assert (is_Some (lookup2 G i j)) as Hij by by eexists.
    apply (shape_lookup2 _ _ _ _ _ HG) in Hij.
    destruct (proj2 (shape_lookup2 _ _ (initial_possibilities self width height) i j
      (inv_shape_p _ _ _ _ _ (solver_inv_initial self width height))) Hij) as [s Hs].
    by rewrite Hs, (lookup2_initial_possibilities _ _ _ _ _ _ Hs). }
  revert Hr Hagree.
  apply (wp_result_writes (generate rng genrand_res53 seed_rng self width height seed) g
           (fun r l => r = Ok (ReturnNone_Contradiction x y) → agrees G l → False)).
  unfold generate. apply wp_seed. intros g0. cbv zeta. apply wp_bind.
  eapply wp_mono;
    [apply (main_loop_sound genrand_res53 self width height G Hidx HG Hvalid);
       [apply solver_inv_initial|lia]|].
  cbv beta. intros [[e|ex]| |] l Hl; try done.
  - intros g1. unfold after_loop. destruct (_ <=? _); [by apply wp_ret|].
    apply wp_bind, wp_lift. by destruct (final_grid _ _ _).
  - intros g1. apply wp_ret. rewrite app_nil_r. intros _ Hagree. by apply Hl.
Qed.

(** ** An empty intersection ends the run *)

Section GeneratorFree.
Context {rng : Type}.

Lemma generator_free_ret {A} (a : A) : generator_free (mret a : M rng A).
Proof. by exists (Ok a), []. Qed.

Lemma generator_free_lift {A} (r : res A) : generator_free (lift r : M rng A).
Proof. by exists r, []. Qed.

Lemma generator_free_emit e : generator_free (emit e : M rng unit).
Proof. by exists (Ok tt), [e]. Qed.

Lemma generator_free_bind {A B} (m : M rng A) (k : A → M rng B) :
  generator_free m → (∀ a, generator_free (k a)) → generator_free (m ≫= k).
Proof.
  intros (r & l & Hm) Hk. destruct r as [a|e|].
  - destruct (Hk a) as (r' & l' & Hka). exists r', (l ++ l'). intros g.
    unfold mbind, M_bind. by rewrite Hm, Hka.
  - exists (Raise e), l. intros g. unfold mbind, M_bind. by rewrite Hm.
  - exists Timeout, l. intros g. unfold mbind, M_bind. by rewrite Hm.
Qed.

Lemma generator_free_for_loop {A S R} (l : list A) (body : A → S → M rng (flow S R)) s :
  (∀ a s', generator_free (body a s')) → generator_free (for_loop l body s).
Proof.
  intros Hbody. revert s. induction l as [|a l IH]; intros s; simpl.
  - apply generator_free_ret.
  - apply generator_free_bind; [done|]. intros [s'|r]; [apply IH|apply generator_free_ret].
Qed.

Lemma generator_free_visit_neighbor self collapsed width height current n st :
  generator_free (visit_neighbor rng self collapsed width height current n st).
Proof.
  destruct n as [[nx ny] d], st as [p stack]. unfold visit_neighbor.
  destruct (_ || _); [apply generator_free_ret|].
  apply generator_free_bind; [apply generator_free_lift|]. intros [|].
  { apply generator_free_ret. }
  apply generator_free_bind; [apply generator_free_lift|]. intros valid.
  apply generator_free_bind; [apply generator_free_lift|]. intros old.
  cbv zeta. destruct (_ =? 0); [apply generator_free_ret|].
  destruct (_ <? _); [|apply generator_free_ret].
  apply generator_free_bind; [apply generator_free_lift|]. intros p'.
  apply generator_free_bind; [apply generator_free_emit|]. intros _.
  apply generator_free_ret.
Qed.

Lemma generator_free_propagate self p collapsed x y width height :
  generator_free (_propagate rng self p collapsed x y width height).
Proof.
  unfold _propagate. generalize (2 * total_size p + 2)%nat, [(x, y)].
  intros fuel. revert p. induction fuel as [|fuel IH]; intros p stack.
  - destruct stack as [|[cx cy] stack]; cbn [propagate_loop];
      [apply generator_free_ret|apply generator_free_lift].
  - destruct stack as [|[cx cy] stack]; cbn [propagate_loop]; [apply generator_free_ret|].
    apply generator_free_bind; [apply generator_free_lift|]. intros current.
    apply generator_free_bind.
    + apply generator_free_for_loop. intros n st. apply generator_free_visit_neighbor.
    + intros [[p' stack']|b]; [apply IH|apply generator_free_ret].
Qed.

End GeneratorFree.

Lemma replay_possibilities_app l1 l2 p :
  replay_possibilities (l1 ++ l2) p = replay_possibilities l2 (replay_possibilities l1 p).
Proof. apply foldl_app. Qed.

Lemma replay_collapsed_app l1 l2 c :
  replay_collapsed (l1 ++ l2) c = replay_collapsed l2 (replay_collapsed l1 c).
Proof. apply foldl_app. Qed.

Lemma replay_collapsed_propagation collapsed width height l c :
  Forall (propagation_write collapsed width height) l → replay_collapsed l c = c.
Proof.
  induction 1 as [|e l He _ IH]; [done|]. destruct e; [|done]. exact IH.
Qed.

Section Replay.
Context {rng : Type}.
Variable self : WFCGenerator.
Variable collapsed : list (list bool).
Variables width height : Z.

(** The inner loop leaves the grid that its assignments give, and when it
    stops with [False] the current cell has an empty intersection with one
    of its neighbours in that grid. *)
Lemma visit_neighbors_replay current cx cy p stack g :
  0 ≤ cx → 0 ≤ cy → get2 p cy cx = Ok current →
  wp (for_loop (neighbors cx cy)
        (visit_neighbor rng self collapsed width height current) (p, stack)) g (fun r l =>
    match r with
    | Ok (Next (p', _)) => p' = replay_possibilities l p
    | Ok (Return _) =>
        empty_intersection self collapsed width height (replay_possibilities l p) cx cy
    | Raise _ => True
    | Timeout => False
    end).
Proof.
  intros Hcx Hcy Hcur.
  pose (I := fun (pre : list (Z * Z * direction))
                 (st : list (list (gset Z)) * list (Z * Z)) (lg : list event) =>
               st.1 = replay_possibilities lg p ∧ get2 st.1 cy cx = Ok current).
  eapply wp_mono.
  - apply (wp_for_loop _ (neighbors cx cy) I
             (fun _ lg => empty_intersection self collapsed width height
                            (replay_possibilities lg p) cx cy)
             (fun _ _ => True)) with (lg := []); [|done].
    intros pre [[nx ny] d] suf [p1 stack1] lg g' Hl [Hp1 Hc1]. simpl in Hp1, Hc1.
    assert ((nx, ny, d) ∈ neighbors cx cy) as Hn.
    { rewrite Hl. apply elem_of_app. right. by left. }
    eapply wp_mono; [apply visit_neighbor_cases|]. simpl.
    intros [[[p2 stack2]|b]|e|] l1 H; try done.
    + destruct H as [(-> & -> & ->)|(old & valid & Hx & Hy & _ & _ & _ & -> & -> & ->)].
      * by rewrite app_nil_r.
      * split; simpl.
        -- by rewrite replay_possibilities_app, <- Hp1.
        -- rewrite <- Hc1. apply get2_same; [done..|].
           rewrite lookup2_insert2, decide_False; [done|].
           intros [Hi Hj]. apply (neighbors_ne _ _ _ _ _ Hn). f_equal; lia.
    + destruct H as (_ & -> & old & valid & Hx & Hy & Hc & Hv & Hold & Hempty).
      rewrite app_nil_r, <- Hp1. by exists current, nx, ny, d, old, valid.
  - simpl. intros [[[p2 stack2]|b]|e|] l1; try done. by intros [? _].
Qed.

Lemma propagate_loop_replay fuel p stack g :
  (∀ c, c ∈ stack → 0 ≤ c.1 ∧ 0 ≤ c.2) →
  wp (propagate_loop rng self fuel collapsed width height p stack) g (fun r l =>
    match r with
    | Ok (true, p') => p' = replay_possibilities l p
    | Ok (false, _) =>
        ∃ c, (c ∈ stack ∨ ∃ v, SetPossibilities c.2 c.1 v ∈ l) ∧
             empty_intersection self collapsed width height
               (replay_possibilities l p) c.1 c.2
    | _ => True
    end).
Proof.
  revert p stack g. induction fuel as [|fuel IH]; intros p stack g Hstack.
  - destruct stack as [|[cx cy] stack']; simpl; [by apply wp_ret|by apply wp_lift].
  - destruct stack as [|[cx cy] stack']; simpl; [by apply wp_ret|].
    destruct (Hstack (cx, cy)) as [Hcx Hcy]; [by left|]. simpl in Hcx, Hcy.
    apply wp_bind, wp_lift.
    destruct (get2 p cy cx) as [current| |] eqn:Hcur; [|done..].
    intros g1. apply wp_bind.
    eapply wp_mono;
      [apply wp_and; [by apply visit_neighbors_replay|apply visit_neighbors_frame]|].
    simpl. intros [[[p1 stack1]|b]|e|] l1 [Hreplay Hframe]; try done.
    + destruct Hframe as (Hst & _ & Hlog). intros g2.
      eapply wp_mono; [apply IH|].
      * intros c [Hc|(v & Hv)]%Hst; [apply Hstack; by right|].
        destruct (Hlog _ _ _ Hv) as (? & ? & _). done.
      * simpl. intros [[[] p']|e|] l2 H; try done.
        -- by rewrite replay_possibilities_app, <- Hreplay.
        -- destruct H as (c & Hc & Hempty). exists c.
           rewrite replay_possibilities_app, <- Hreplay. split; [|done].
           destruct Hc as [[Hc|(v & Hv)]%Hst|(v & Hv)].
           ++ left. by right.
           ++ right. exists v. apply elem_of_app. by left.
           ++ right. exists v. apply elem_of_app. by right.
    + intros g2. apply wp_ret. subst b. rewrite app_nil_r.
      exists (cx, cy). split; [left; by left|done].
Qed.

End Replay.

(** A cell that agrees with its neighbours has no empty intersection with
    any of them, when no cell of the grid is empty. *)
Lemma arc_consistent_not_empty self collapsed width height p cx cy :
  (∀ i j s, lookup2 p i j = Some s → s ≠ ∅) →
  arc_consistent self collapsed width height p cx cy →
  ¬ empty_intersection self collapsed width height p cx cy.
Proof.
  intros Hne (cur & Hcur & Hvis)
    (cur' & nx & ny & d & old & valid & Hcur' & Hn & Hx & Hy & Hc & Hold & Hv & Hempty).
  assert (cur' = cur) as -> by congruence.
  rewrite Forall_forall in Hvis. specialize (Hvis _ Hn). simpl in Hvis.
  destruct (Hvis Hx Hy Hc) as (s' & Hs' & Hsup).
  assert (s' = old) as -> by congruence.
  apply get2_Ok in Hold; [|lia..]. apply Hne in Hold.
  apply set_choose_L in Hold as [t' Ht'].
  destruct (Hsup _ Ht') as (t & e & Ht & He & Hin).
  pose proof (valid_for_neighbor_complete _ _ _ _ _ _ Hv Ht He) as Hsub.
  assert (t' ∈ old ∩ valid) as Hboth by set_solver.
  rewrite Hempty in Hboth. by apply not_elem_of_empty in Hboth.
Qed.

Section Contradictions.
Context {rng : Type}.
Variable genrand_res53 : rng → N * rng.
Variable self : WFCGenerator.
Variables width height : Z.
Hypothesis tile_by_id_built : tile_by_id self = index_by_id (tiles self).
Hypothesis table_total : ∀ i, i ∈ all_tile_ids self → is_Some (adjacency_rules self !! i).
Hypothesis some_tile : tiles self ≠ [].

Lemma main_loop_contradictions max_iterations fuel p c iterations g :
  solver_inv self width height p c →
  (Z.to_nat (max_iterations - iterations) ≤ fuel)%nat →
  wp (main_loop rng genrand_res53 self fuel width height max_iterations p c iterations) g
    (fun r l =>
       ∀ l1 y x t l2,
         l = l1 ++ SetPossibilities y x {[t]} :: SetCollapsed y x :: l2 →
         propagation_after_collapse rng self width height p c l1 y x t l2
           (r = Ok (Return (ReturnNone_Contradiction x y)))).
Proof.
  revert p c iterations g. induction fuel as [|fuel IH]; intros p c iterations g Hinv Hfuel.
  all: simpl; destruct (_is_fully_collapsed c) eqn:Hfull; simpl.
  all: try (apply wp_ret; intros [|? ?] ? ? ? ? ?; done).
  all: destruct (Z.ltb_spec iterations max_iterations) as [Hlt|Hge].
  all: try (apply wp_ret; intros [|? ?] ? ? ? ? ?; done).
  { lia. }
  pose proof Hinv as [Hsp Hsc Hids Hnonempty _ _].
  pose proof (all_tile_ids_nonempty self tile_by_id_built table_total some_tile) as Hall.
  apply wp_bind.
  eapply wp_mono;
    [by apply (find_min_entropy_cell_shape_spec genrand_res53
                 (Z.to_nat width) (Z.to_nat height) p c)|].
  cbv beta. intros [[[y x]|]| |] l0 [-> Hmin]; try done.
  2:{ intros g1. apply wp_ret. intros [|? ?] ? ? ? ? ?; done. }
  destruct Hmin as (i & j & s & -> & -> & Hc & Hs & Hne & _).
  assert (is_Some (lookup2 p i j)) as Hij by by eexists.
  apply (shape_lookup2 _ _ _ _ _ Hsp) in Hij as [Hi Hj].
  intros g1. apply wp_bind, wp_lift.
  rewrite (proj2 (get2_Ok p (Z.of_nat i) (Z.of_nat j) s ltac:(lia) ltac:(lia)))
    by (by rewrite !Nat2Z.id).
  intros g2. apply wp_bind.
  eapply wp_mono; [apply collapse_cell_safe; [done|done|by eapply Hids]|].
  cbv beta. intros [chosen|e|] l1 [-> Hchosen]; [|by intros [|? ?] ? ? ? ? ?|done].
  intros g3. apply wp_bind, wp_lift.
  rewrite set2_lookup2 by (lia || rewrite !Nat2Z.id; by eexists).
  intros g4. apply wp_bind, wp_emit. intros g5. apply wp_bind, wp_lift.
  rewrite set2_lookup2 by (lia || rewrite !Nat2Z.id; by eexists).
  intros g6. apply wp_bind, wp_emit. intros g7. apply wp_bind.
  rewrite !Nat2Z.id.
  set (c1 := insert2 c i j true). set (p1 := insert2 p i j {[chosen]}).
  set (x := Z.of_nat j). set (y := Z.of_nat i).
  assert (shape (Z.to_nat width) (Z.to_nat height) p1) as Hsp1 by by apply shape_insert2.
  assert (shape (Z.to_nat width) (Z.to_nat height) c1) as Hsc1 by by apply shape_insert2.
  assert (known_ids self p1) as Hk1.
  { intros i' j' s' t Hs' Ht. apply table_total. unfold p1 in Hs'.
    rewrite lookup2_insert2 in Hs'. case_decide as Hd.
    - rewrite Hs in Hs'. injection Hs' as <-. apply elem_of_singleton in Ht as ->.
      by eapply Hids.
    - by eapply Hids. }
  destruct (generator_free_propagate (rng := rng) self p1 c1 x y width height)
    as (r0 & lp & Hcall).
  pose proof (propagate_spec self c1 width height p1 x y g7) as F1.
  pose proof (propagate_safe self c1 width height Hsc1 p1 x y g7 Hsp1 Hk1
                ltac:(unfold x; lia) ltac:(unfold y; lia)) as F2.
  pose proof (propagate_loop_replay self c1 width height (2 * total_size p1 + 2) p1
                [(x, y)] g7
                ltac:(intros ? ->%list_elem_of_singleton; simpl; unfold x, y; lia)) as F3.
  pose proof (propagate_loop_fixpoint self c1 width height
                (2 * total_size p1 + 2) p1 [(x, y)] [(x, y)] g7 ltac:(simpl; lia)
                ltac:(done)
                ltac:(intros ? ->%list_elem_of_singleton; simpl; unfold x, y;
                      split_and!; [lia..|left; by apply list_elem_of_singleton])) as F4.
  change (propagate_loop rng self (2 * total_size p1 + 2) c1 width height p1 [(x, y)])
    with (_propagate rng self p1 c1 x y width height) in F3, F4.
  unfold wp in F1, F2, F3, F4. rewrite Hcall in F1, F2, F3, F4.
  cbn [fst snd] in F1, F2, F3, F4.
  eapply wp_eq; [apply Hcall|]. cbn [fst snd].
  destruct r0 as [[b p2]| |]; [|done..]. destruct F1 as [Hlp Hprop].
  assert (replay_possibilities [SetPossibilities y x {[chosen]}; SetCollapsed y x] p = p1)
    as Hrp1 by (simpl; unfold x, y; by rewrite !Nat2Z.id).
  assert (replay_collapsed [SetPossibilities y x {[chosen]}; SetCollapsed y x] c = c1)
    as Hrc1 by (simpl; unfold x, y; by rewrite !Nat2Z.id).
  assert (∀ lrest l1 y' x' t l2,
            SetPossibilities y x {[chosen]} :: SetCollapsed y x :: lp ++ lrest =
              l1 ++ SetPossibilities y' x' {[t]} :: SetCollapsed y' x' :: l2 →
            (lrest ≠ [] → collapse_final lrest) →
            (l1 = [] ∧ y' = y ∧ x' = x ∧ ({[t]} : gset Z) = {[chosen]} ∧ l2 = lp ++ lrest) ∨
            (∃ k, l1 = SetPossibilities y x {[chosen]} :: SetCollapsed y x :: lp ++ k ∧
                  lrest = k ++ SetPossibilities y' x' {[t]} :: SetCollapsed y' x' :: l2))
    as Hsplit.
  { intros lrest l1 y' x' t l2 Hl Hfin.
    destruct l1 as [|e1 l1].
    { left. cbn [app] in Hl. split_and!; [done|congruence..]. }
    right. destruct l1 as [|e2 l1]; [done|].
    cbn [app] in Hl. injection Hl as <- <- Hl.
    apply app_eq_app in Hl as [k [[Hlp' Hk]|[Hl1 Hk]]].
    - destruct k as [|e k].
      { exists []. rewrite app_nil_r in Hlp' |- *. subst l1. split; [done|].
        by rewrite app_nil_l in Hk |- *. }
      exfalso. destruct k as [|e' k].
      + cbn [app] in Hk. destruct lrest as [|e0 lrest]; [done|].
        assert (e0 :: lrest = [] ++ SetCollapsed y' x' :: l2) as Hl0
          by (cbn [app]; congruence).
        destruct (Hfin ltac:(done) [] y' x' l2 Hl0) as [(l0 & t0 & H0) _].
        by destruct l0.
      + assert (e' = SetCollapsed y' x') as -> by (cbn [app] in Hk; congruence).
        rewrite Hlp' in Hlp. rewrite Forall_app in Hlp.
        destruct Hlp as [_ Hlp]. apply Forall_cons in Hlp as [_ Hlp].
        by apply Forall_cons in Hlp as [[] _].
    - exists k. by rewrite Hl1. }
  assert (b = true → solver_inv self width height p2 c1) as Hinv2.
  { intros ->. destruct (Hprop eq_refl) as [Hw Hvis].
    eapply solver_inv_step; [done..|].
    intros d i' j' s' Hadj Hc1' Hs2'.
    assert (get2 p1 y x = Ok {[chosen]}) as Hcur.
    { apply get2_Ok; [unfold x, y; lia..|]. unfold x, y. rewrite !Nat2Z.id.
      apply lookup2_insert2_eq. by eexists. }
    specialize (Hvis _ Hcur). rewrite Forall_forall in Hvis.
    pose proof (adjacent_neighbors _ _ _ _ _ Hadj) as Hn.
    specialize (Hvis _ Hn). simpl in Hvis.
    pose proof (proj1 (shape_lookup2 _ _ c1 i' j' Hsc1) ltac:(by eexists)) as [Hi' Hj'].
    destruct Hvis as (s'' & Hs'' & Hsup); [lia|lia| |].
    - apply get2_Ok; [lia..|]. by rewrite !Nat2Z.id.
    - apply get2_Ok in Hs''; [|lia..]. rewrite !Nat2Z.id in Hs''.
      rewrite Hs2' in Hs''. by apply (inj Some) in Hs'' as <-. }
  assert (b = false ↔
          ∃ cx cy, ((cx, cy) = (x, y) ∨ ∃ v, SetPossibilities cy cx v ∈ lp) ∧
                   empty_intersection self c1 width height
                     (replay_possibilities lp p1) cx cy) as Hiff.
  { destruct b.
    - split; [done|]. intros (cx & cy & Hcell & Hempty). exfalso.
      subst p2. revert Hempty. apply arc_consistent_not_empty.
      + intros i' j' s'. apply (inv_nonempty _ _ _ _ _ (Hinv2 eq_refl) Hall).
      + apply (F4 (cx, cy)). destruct Hcell as [->|?]; [left|by right].
        by apply list_elem_of_singleton.
    - split; [|done]. intros _. destruct F3 as ([cx cy] & Hcell & Hempty).
      exists cx, cy. split; [|done].
      destruct Hcell as [->%list_elem_of_singleton|?]; [by left|by right]. }
  intros g8. destruct b.
  - specialize (Hinv2 eq_refl). subst p2.
    eapply wp_mono;
      [apply wp_and; [apply IH; [done|lia]|
                      apply (main_loop_spec genrand_res53 self width height
                               tile_by_id_built); [done|lia]]|].
    cbv beta. intros r lrest [Hrest (_ & _ & Hfin & _)].
    intros l1 y' x' t l2 Hl. simpl in Hl.
    destruct (Hsplit lrest l1 y' x' t l2 Hl ltac:(done))
      as [(-> & -> & -> & Ht & ->)|(k & -> & Hk)].
    + apply singleton_eq_inv in Ht as ->.
      unfold propagation_after_collapse. cbv zeta. rewrite app_nil_l, Hrp1, Hrc1.
      exists true, (replay_possibilities lp p1), lp, lrest.
      split_and!; [done|done|done|done].
    + specialize (Hrest k y' x' t l2 Hk).
      unfold propagation_after_collapse in Hrest |- *. cbv zeta in Hrest |- *.
      replace (replay_possibilities
                 ((SetPossibilities y x {[chosen]} :: SetCollapsed y x :: lp ++ k) ++
                  [SetPossibilities y' x' {[t]}; SetCollapsed y' x']) p)
        with (replay_possibilities (k ++ [SetPossibilities y' x' {[t]}; SetCollapsed y' x'])
                (replay_possibilities lp p1)).
      2:{ change (SetPossibilities y x {[chosen]} :: SetCollapsed y x :: lp ++ k)
            with ([SetPossibilities y x {[chosen]}; SetCollapsed y x] ++ lp ++ k).
          by rewrite <- !app_assoc, !replay_possibilities_app, Hrp1. }
      replace (replay_collapsed
                 ((SetPossibilities y x {[chosen]} :: SetCollapsed y x :: lp ++ k) ++
                  [SetPossibilities y' x' {[t]}; SetCollapsed y' x']) c)
        with (replay_collapsed (k ++ [SetPossibilities y' x' {[t]}; SetCollapsed y' x']) c1).
      2:{ change (SetPossibilities y x {[chosen]} :: SetCollapsed y x :: lp ++ k)
            with ([SetPossibilities y x {[chosen]}; SetCollapsed y x] ++ lp ++ k).
          rewrite <- !app_assoc, !replay_collapsed_app, Hrc1.
          by rewrite (replay_collapsed_propagation _ _ _ _ _ Hlp). }
      exact Hrest.
  - apply wp_ret. intros l1 y' x' t l2 Hl. simpl in Hl.
    destruct (Hsplit [] l1 y' x' t l2 Hl ltac:(done))
      as [(-> & -> & -> & Ht & ->)|(k & -> & Hk)]; [|by destruct k].
    apply singleton_eq_inv in Ht as ->.
    unfold propagation_after_collapse. cbv zeta. rewrite app_nil_l, Hrp1, Hrc1.
    exists false, p2, lp, []. split_and!; [done|done|done|done].
Qed.

End Contradictions.

Lemma propagation_after_collapse_impl rng self width height p c l1 y x t l2 (P Q : Prop) :
  (P → Q) →
  propagation_after_collapse rng self width height p c l1 y x t l2 P →
  propagation_after_collapse rng self width height p c l1 y x t l2 Q.
Proof.
  intros HPQ (b & p2 & lp & l3 & Hcall & Hl2 & Hiff & Hstop).
  exists b, p2, lp, l3. split_and!; [done..|]. intros Hb.
  destruct (Hstop Hb). auto.
Qed.

(** C10. Over a non-empty catalog every cell starts with a non-empty set and
    every set a run assigns to a cell is non-empty.  After every collapse of
    a run, the call of [_propagate] on the grids as they then are makes the
    writes that follow; it returns [False] exactly when the collapsed cell or
    a cell the call assigned has an empty intersection with an unresolved
    neighbour, and then nothing more is written and [generate] returns [None]
    through the contradiction exit for the collapsed cell.  A cell is marked
    collapsed right after it was assigned a singleton, and nothing is
    assigned to it afterwards. *)
Theorem possibilities_invariant {rng} (genrand_res53 : rng → N * rng) (seed_rng : Z → rng)
    data self width height seed g :
  WFCGenerator_init data = Ok self →
  tiles self ≠ [] →
  let run := generate rng genrand_res53 seed_rng self width height seed g in
  let p0 := initial_possibilities self width height in
  let c0 := initial_collapsed width height in
  (∀ i j s, lookup2 p0 i j = Some s → s ≠ ∅) ∧
  (∀ y x v, SetPossibilities y x v ∈ writes run → v ≠ ∅) ∧
  (∀ l1 y x t l2,
     writes run = l1 ++ SetPossibilities y x {[t]} :: SetCollapsed y x :: l2 →
     let pre := l1 ++ [SetPossibilities y x {[t]}; SetCollapsed y x] in
     let p1 := replay_possibilities pre p0 in
     let c1 := replay_collapsed pre c0 in
     ∃ b p2 lp l3,
       (∀ g', _propagate rng self p1 c1 x y width height g' = (Ok (b, p2), g', lp)) ∧
       l2 = lp ++ l3 ∧
       (b = false ↔
        ∃ cx cy, ((cx, cy) = (x, y) ∨ ∃ v, SetPossibilities cy cx v ∈ lp) ∧
                 empty_intersection self c1 width height
                   (replay_possibilities lp p1) cx cy) ∧
       (b = false →
        l3 = [] ∧ result run = Ok (ReturnNone_Contradiction x y))) ∧
  (∀ l1 y x l2,
     writes run = l1 ++ SetCollapsed y x :: l2 →
     (∃ l0 t, l1 = l0 ++ [SetPossibilities y x {[t]}]) ∧
     ∀ y' x' v, SetPossibilities y' x' v ∈ l2 → (y', x') ≠ (y, x)).
Proof.
  intros Hinit Hne run p0 c0.
  pose proof (init_Ok _ _ Hinit) as (Hbuilt & _ & _).
  pose proof (wp_result_writes _ _ _
                (generate_spec genrand_res53 seed_rng self width height Hbuilt seed g))
    as (Hw1 & _ & Hw3 & _).
  fold run in Hw1, Hw3. split_and!.
  - intros i j s ->%lookup2_initial_possibilities. unfold all_tile_ids.
    destruct (tiles self) as [|T ts]; [done|]. simpl. set_solver.
  - intros y x v Hin. rewrite Forall_forall in Hw1. by apply (Hw1 _ Hin).
  - apply (wp_result_writes (generate rng genrand_res53 seed_rng self width height seed) g
             (fun r l => ∀ l1 y x t l2,
                l = l1 ++ SetPossibilities y x {[t]} :: SetCollapsed y x :: l2 →
                propagation_after_collapse rng self width height p0 c0 l1 y x t l2
                  (r = Ok (ReturnNone_Contradiction x y)))).
    unfold generate. apply wp_seed. intros g0. cbv zeta. apply wp_bind.
    eapply wp_mono;
      [apply (main_loop_contradictions genrand_res53 self width height Hbuilt);
         [intros i Hi; by apply (built_keys _ _ i Hinit)|done|
          apply solver_inv_initial|lia]|].
    cbv beta. intros [[e|ex]|e|] l Hl.
    + intros g1. unfold after_loop.
      assert (∀ r' : res exit, ∀ l1 y x t l2,
                l = l1 ++ SetPossibilities y x {[t]} :: SetCollapsed y x :: l2 →
                propagation_after_collapse rng self width height p0 c0 l1 y x t l2
                  (r' = Ok (ReturnNone_Contradiction x y))) as Hany.
      { intros r' l1 y x t l2 Hsplit.
        eapply propagation_after_collapse_impl; [|by apply Hl]. done. }
      destruct (_ <=? _); [apply wp_ret; rewrite app_nil_r; apply Hany|].
      apply wp_bind, wp_lift.
      destruct (final_grid _ _ _); [|rewrite app_nil_r; apply Hany..].
      intros g2. apply wp_ret. rewrite !app_nil_r. apply Hany.
    + intros g1. apply wp_ret. rewrite app_nil_r. intros l1 y x t l2 Hsplit.
      eapply propagation_after_collapse_impl; [|by apply Hl]. congruence.
    + intros l1 y x t l2 Hsplit.
      eapply propagation_after_collapse_impl; [|by apply Hl]. done.
    + intros l1 y x t l2 Hsplit.
      eapply propagation_after_collapse_impl; [|by apply Hl]. done.
  - exact Hw3.
Qed.

(** ** The TMX export *)

Section Strings.
Implicit Types s t : string.
Implicit Types c : Ascii.ascii.

Lemma app_cons_string a s t : String a s +:+ t = String a (s +:+ t).
Proof. done. Qed.

Lemma occurs_app c s t : occurs c (s +:+ t) = occurs c s || occurs c t.
Proof.
  induction s as [|a s IH]; [done|].
  rewrite app_cons_string. cbn [occurs]. by rewrite IH, orb_assoc.
Qed.

Lemma app_assoc_string s t u : (s +:+ t) +:+ u = s +:+ t +:+ u.
Proof.
  induction s as [|a s IH]; [done|]. rewrite !app_cons_string. by rewrite IH.
Qed.

Lemma length_app_string s t :
  String.length (s +:+ t) = (String.length s + String.length t)%nat.
Proof.
  induction s as [|a s IH]; [done|]. rewrite app_cons_string. simpl. by rewrite IH.
Qed.

Lemma app_eq_nil_string s t : s +:+ t = EmptyString → s = EmptyString ∧ t = EmptyString.
Proof. by destruct s. Qed.

(** Two strings free of [c], each followed by [c] and a rest. *)
Lemma split_at_char c s1 t1 s2 t2 :
  occurs c s1 = false → occurs c s2 = false →
  s1 +:+ String c t1 = s2 +:+ String c t2 → s1 = s2 ∧ t1 = t2.
Proof.
  revert s2. induction s1 as [|a s1 IH]; intros [|b s2]; simpl.
  - by intros _ _ [= ->].
  - intros _ [Hb _]%orb_false_iff [= <- _]. by rewrite bool_decide_eq_false in Hb.
  - intros [Ha _]%orb_false_iff _ [= -> _]. by rewrite bool_decide_eq_false in Ha.
  - intros [_ H1]%orb_false_iff [_ H2]%orb_false_iff [= -> H].
    by destruct (IH _ H1 H2 H) as [-> ->].
Qed.

Lemma no_char_in_prefix c s1 s2 t :
  occurs c s1 = false → s1 ≠ s2 +:+ String c t.
Proof.
  intros H ->. rewrite occurs_app in H. simpl in H.
  rewrite bool_decide_eq_true_2 in H by done. by rewrite orb_true_r in H.
Qed.

(** [sep.join] of non-empty pieces that are free of [c], for a separator
    that is some text free of [c] followed by [c]. *)
Lemma join_inj c pre (l1 l2 : list string) :
  occurs c pre = false →
  Forall (fun s => s ≠ EmptyString ∧ occurs c s = false) l1 →
  Forall (fun s => s ≠ EmptyString ∧ occurs c s = false) l2 →
  join (pre +:+ String c EmptyString) l1 = join (pre +:+ String c EmptyString) l2 →
  l1 = l2.
Proof.
  intros Hpre H1. revert l2. induction H1 as [|s1 l1 [Hne1 Hc1] H1 IH]; intros l2 H2.
  - destruct H2 as [|s2 l2 [Hne2 _] _]; [done|]. simpl.
    destruct l2; [congruence|]. intros H. symmetry in H.
    by apply app_eq_nil_string in H as [? _].
  - destruct H2 as [|s2 l2 [Hne2 Hc2] H2].
    { simpl. destruct l1; [congruence|]. intros H. by apply app_eq_nil_string in H as [? _]. }
    assert (∀ s l, join (pre +:+ String c EmptyString) (s :: l) =
                   match l with
                   | [] => s
                   | _ => (s +:+ pre) +:+ String c (join (pre +:+ String c EmptyString) l)
                   end) as Hjoin.
    { intros s [|s' l]; [done|]. cbn [join].
      by rewrite !app_assoc_string. }
    rewrite !Hjoin. destruct l1 as [|s1' l1], l2 as [|s2' l2].
    + by intros ->.
    + intros H. exfalso. by eapply (no_char_in_prefix c s1), H.
    + intros H. exfalso. symmetry in H. by eapply (no_char_in_prefix c s2), H.
    + intros H. apply split_at_char in H as [Hs Hrest].
      * apply IH in Hrest as ->; [|done]. f_equal.
        assert (String.length s1 = String.length s2) as Hlen.
        { apply (f_equal String.length) in Hs. rewrite !length_app_string in Hs. lia. }
        clear -Hs Hlen. revert s2 Hs Hlen.
        induction s1 as [|a s1 IH]; intros [|b s2]; simpl; try done.
        intros [= -> H] [= Hlen]. f_equal. by apply IH.
      * rewrite occurs_app, Hc1. done.
      * rewrite occurs_app, Hc2. done.
Qed.

Lemma app_inj_r_string s1 s2 t : s1 +:+ t = s2 +:+ t → s1 = s2.
Proof.
  intros H.
  assert (String.length s1 = String.length s2) as Hlen.
  { apply (f_equal String.length) in H. rewrite !length_app_string in H. lia. }
  revert s2 H Hlen. induction s1 as [|a s1 IH]; intros [|b s2]; simpl; try done.
  intros [= -> H] [= Hlen]. f_equal. by apply IH.
Qed.

End Strings.

Lemma pretty_N_go_chars x s c :
  occurs c (pretty_N_go x s) = true → occurs c s = true ∨ number_char c = true.
Proof.
  revert s. induction (N.lt_wf_0 x) as [x _ IH]; intros s.
  assert (x = 0 ∨ 0 < x)%N as [->|Hx] by lia; [rewrite pretty_N_go_0; auto|].
  rewrite pretty_N_go_step by done. intros H.
  apply IH in H; [|by apply N.div_lt]. destruct H as [H|H]; [|by right].
  simpl in H. apply orb_true_iff in H as [H|H]; [right|by left].
  apply bool_decide_eq_true in H as <-.
  unfold pretty_N_char. by repeat case_match.
Qed.

Lemma pretty_N_go_nonempty x s : s ≠ EmptyString → pretty_N_go x s ≠ EmptyString.
Proof.
  revert s. induction (N.lt_wf_0 x) as [x _ IH]; intros s Hs.
  assert (x = 0 ∨ 0 < x)%N as [->|Hx] by lia; [by rewrite pretty_N_go_0|].
  rewrite pretty_N_go_step by done. apply IH; [by apply N.div_lt|done].
Qed.

Lemma str_chars n c : occurs c (str n) = true → number_char c = true.
Proof.
  assert (∀ x : N, occurs c (pretty x) = true → number_char c = true) as HN.
  { intros x. unfold pretty, pretty_N. case_decide.
    - simpl. rewrite orb_false_r. intros <-%bool_decide_eq_true. done.
    - intros [?|?]%pretty_N_go_chars; done. }
  unfold str, pretty, pretty_Z. destruct n as [|p|p]; simpl.
  - rewrite orb_false_r. intros <-%bool_decide_eq_true. done.
  - apply HN.
  - intros [<-%bool_decide_eq_true|?]%orb_true_iff; [done|]. by apply (HN (N.pos p)).
Qed.

Lemma str_nonempty n : str n ≠ EmptyString.
Proof.
  assert (∀ x : N, pretty x ≠ EmptyString) as HN.
  { intros x. unfold pretty, pretty_N. case_decide; [done|].
    assert (0 < x)%N as Hx by lia. rewrite pretty_N_go_step by done.
    by apply pretty_N_go_nonempty. }
  unfold str, pretty, pretty_Z. destruct n as [|p|p]; [done|apply HN|done].
Qed.

Lemma str_no_char n c : number_char c = false → occurs c (str n) = false.
Proof.
  intros Hc. destruct (occurs c (str n)) eqn:H; [|done].
  apply str_chars in H. congruence.
Qed.

Lemma join_no_char c sep l :
  occurs c sep = false → Forall (fun s => occurs c s = false) l →
  occurs c (join sep l) = false.
Proof.
  intros Hsep Hl. induction Hl as [|s l Hs Hl IH]; [done|].
  destruct l as [|s' l]; [done|]. cbn [join]. rewrite !occurs_app, Hs, Hsep. exact IH.
Qed.

Lemma join_nonempty sep s l : s ≠ EmptyString → join sep (s :: l) ≠ EmptyString.
Proof. intros Hs. destruct l; [done|]. cbn [join]. by destruct s. Qed.

(** The line of a row determines the row. *)
Lemma csv_line_inj firstgid (row1 row2 : list Z) :
  join "," ((fun tile_id => str (tile_id + firstgid)) <$> row1) =
  join "," ((fun tile_id => str (tile_id + firstgid)) <$> row2) →
  row1 = row2.
Proof.
  intros H.
  apply (join_inj (Ascii.ascii_of_nat 44) EmptyString) in H; [| done | |].
  - revert row2 H. induction row1 as [|a row1 IH]; intros [|b row2]; simpl; try done.
    intros [= Hab Hrest]. apply (inj pretty) in Hab. f_equal; [lia|by apply IH].
  - apply Forall_fmap, Forall_forall. intros n _. simpl.
    split; [apply str_nonempty|by apply str_no_char].
  - apply Forall_fmap, Forall_forall. intros n _. simpl.
    split; [apply str_nonempty|by apply str_no_char].
Qed.

(** The text of the [data] element determines a grid without empty rows. *)
Lemma csv_text_inj firstgid (grid1 grid2 : list (list Z)) :
  Forall (fun row => row ≠ []) grid1 → Forall (fun row => row ≠ []) grid2 →
  csv_text firstgid grid1 = csv_text firstgid grid2 → grid1 = grid2.
Proof.
  intros H1 H2. unfold csv_text. cbv zeta. intros H.
  injection H as H. change (EmptyString +:+ ?s) with s in H.
  apply app_inj_r_string in H.
  assert (∀ grid, Forall (fun row : list Z => row ≠ []) grid →
    Forall (fun s => s ≠ EmptyString ∧ occurs (Ascii.ascii_of_nat 10) s = false)
      ((fun row => join "," ((fun tile_id => str (tile_id + firstgid)) <$> row)) <$> grid))
    as Hlines.
  { intros grid Hgrid. apply Forall_fmap. eapply Forall_impl; [exact Hgrid|].
    intros [|a row] Hrow; [done|]. unfold compose. rewrite fmap_cons. split.
    - apply join_nonempty, str_nonempty.
    - apply join_no_char; [done|]. apply Forall_cons. split; [by apply str_no_char|].
      apply Forall_fmap, Forall_forall. intros n _. by apply str_no_char. }
  apply (join_inj (Ascii.ascii_of_nat 10) ",") in H; [|done|by apply Hlines..].
  clear -H. revert grid2 H.
  induction grid1 as [|r1 grid1 IH]; intros [|r2 grid2]; try done.
  rewrite !fmap_cons. intros [= Hr Hrest]. apply csv_line_inj in Hr as ->.
  f_equal. by apply IH.
Qed.

Lemma generate_tmx_Ok self grid elem :
  generate_tmx self grid = Ok elem →
  tileset_complete (tmx_tileset_info self) ∧
  elem_get elem "width" =
    Some (str match grid with [] => 0 | row0 :: _ => Z.of_nat (length row0) end) ∧
  elem_get elem "height" = Some (str (Z.of_nat (length grid))) ∧
  ∃ layer data,
    elem_find elem "layer" = Some layer ∧
    elem_get layer "width" =
      Some (str match grid with [] => 0 | row0 :: _ => Z.of_nat (length row0) end) ∧
    elem_get layer "height" = Some (str (Z.of_nat (length grid))) ∧
    elem_find layer "data" = Some data ∧
    elem_text data =
      Some (csv_text (default 1 (ts_firstgid (tmx_tileset_info self))) grid).
Proof.
  unfold generate_tmx, tileset_complete.
  destruct (tmx_tileset_info self) as [name image tw th cols fg sp]. simpl.
  assert ((if 0 <? Z.of_nat (length grid)
           then row0 ← py_index grid 0; Ok (Z.of_nat (length row0)) else Ok 0) =
          Ok (match grid with [] => 0 | row0 :: _ => Z.of_nat (length row0) end)) as ->.
  { destruct grid as [|row0 grid]; [done|]. simpl length.
    by rewrite (proj2 (Z.ltb_lt _ _)) by lia. }
  simpl. destruct tw as [tw|]; [|done]. destruct th as [th|]; [|done].
  destruct name as [name|]; [|done]. destruct cols as [cols|]; [|done].
  destruct image as [image|]; [|done]. simpl. intros [= <-].
  split; [by split_and!; eexists|]. split_and!; [done..|].
  eexists _, _. split_and!; done.
Qed.

(** X16: building a [TMXGenerator] and then the element tree of
    [generate_tmx] (lines 34 to 106, before the tree is serialised and
    written) raises [KeyError] exactly when the document lacks the
    ["tileset"] section or that section lacks one of ["name"], ["image"],
    ["tile_width"], ["tile_height"], ["columns"].  Otherwise the tree is
    built whatever the grid: an empty grid gets the sizes 0 and a ragged one
    the length of its first row as width. *)
Theorem generate_tmx_outcome tileset grid :
  match TMXGenerator_init tileset ≫= (fun self => generate_tmx self grid) with
  | Ok elem =>
      (∃ info, tileset = Some info ∧ tileset_complete info) ∧
      elem_get elem "height" = Some (str (Z.of_nat (length grid))) ∧
      elem_get elem "width" =
        Some (str match grid with [] => 0 | row0 :: _ => Z.of_nat (length row0) end)
  | Raise e =>
      e = KeyError ∧
      (tileset = None ∨ ∃ info, tileset = Some info ∧ ¬ tileset_complete info)
  | Timeout => False
  end.
Proof.
  destruct tileset as [info|]; simpl; [|by auto].
  destruct (generate_tmx {| tmx_tileset_info := info |} grid) as [elem|e|] eqn:H.
  - apply generate_tmx_Ok in H as (Hc & Hw & Hh & _). split; [by exists info|done].
  - revert H. unfold generate_tmx, tileset_complete.
    destruct info as [name image tw th cols fg sp]. simpl.
    assert (∃ w, (if 0 <? Z.of_nat (length grid)
                  then row0 ← py_index grid 0; Ok (Z.of_nat (length row0)) else Ok 0) =
                 Ok w) as [w ->].
    { destruct grid as [|row0 grid]; [by eexists|]. simpl length.
      rewrite (proj2 (Z.ltb_lt _ _)) by lia. by eexists. }
    simpl. intros H. split.
    + destruct tw, th, name, cols, image; simpl in H; congruence.
    + right. eexists. split; [done|]. simpl.
      intros ([? ->] & [? ->] & [? ->] & [? ->] & [? ->]). done.
  - revert H. unfold generate_tmx.
    destruct info as [name image tw th cols fg sp]. simpl.
    destruct grid as [|row0 grid]; simpl length;
      [|rewrite (proj2 (Z.ltb_lt _ _)) by lia]; simpl.
    all: by destruct tw, th, name, cols, image.
Qed.

(** X17: [generate_tmx] is injective on grids without empty rows:
    two such grids that give the same element tree are equal, because the
    text of the [data] element determines every tile id. *)
Theorem generate_tmx_injective self grid1 grid2 elem :
  Forall (fun row => row ≠ []) grid1 → Forall (fun row => row ≠ []) grid2 →
  generate_tmx self grid1 = Ok elem → generate_tmx self grid2 = Ok elem →
  grid1 = grid2.
Proof.
  intros H1 H2 (_ & _ & _ & l1 & d1 & Hl1 & _ & _ & Hd1 & Ht1)%generate_tmx_Ok
               (_ & _ & _ & l2 & d2 & Hl2 & _ & _ & Hd2 & Ht2)%generate_tmx_Ok.
  assert (l2 = l1) as -> by congruence. assert (d2 = d1) as -> by congruence.
  apply (csv_text_inj (default 1 (ts_firstgid (tmx_tileset_info self)))); [done..|].
  congruence.
Qed.

Lemma generate_grid_shape {rng} (genrand_res53 : rng → N * rng) (seed_rng : Z → rng)
    data self width height seed g grid :
  WFCGenerator_init data = Ok self →
  result (generate rng genrand_res53 seed_rng self width height seed g)
    = Ok (ReturnGrid grid) →
  shape (Z.to_nat width) (Z.to_nat height) grid.
Proof.
  intros (Hidx & _)%init_Ok Hr.
  pose proof (wp_result_writes _ g _
    (generate_spec genrand_res53 seed_rng self width height Hidx seed g)) as H.
  cbv beta in H. rewrite Hr in H. destruct H as (_ & _ & _ & p & c & _ & _ & Hgrid).
  by apply final_grid_Ok in Hgrid as [? _].
Qed.

(** X18: the element tree that [generate_tmx] builds for a grid
    returned by [generate(width, height)] carries the requested sizes, on the
    map and on its layer, whenever the tileset section has the keys that
    [generate_tmx] reads. *)
Theorem generate_tmx_of_generated_grid {rng} (genrand_res53 : rng → N * rng)
    (seed_rng : Z → rng) data self tmx width height seed g grid :
  WFCGenerator_init data = Ok self →
  0 < width → 0 < height →
  result (generate rng genrand_res53 seed_rng self width height seed g)
    = Ok (ReturnGrid grid) →
  tileset_complete (tmx_tileset_info tmx) →
  ∃ elem layer,
    generate_tmx tmx grid = Ok elem ∧
    elem_get elem "width" = Some (str width) ∧
    elem_get elem "height" = Some (str height) ∧
    elem_find elem "layer" = Some layer ∧
    elem_get layer "width" = Some (str width) ∧
    elem_get layer "height" = Some (str height).
Proof.
  intros Hinit Hw Hh Hr Hcomplete.
  pose proof (generate_grid_shape _ _ _ _ _ _ _ _ _ Hinit Hr) as [Hlen Hrows].
  destruct (generate_tmx tmx grid) as [elem|e|] eqn:Htmx.
  - apply generate_tmx_Ok in Htmx
      as (_ & Hew & Heh & layer & data' & Hl & Hlw & Hlh & _).
    assert (Z.of_nat (length grid) = height) as Hheight by lia.
    assert (match grid with [] => 0 | row0 :: _ => Z.of_nat (length row0) end = width)
      as Hwidth.
    { destruct grid as [|row0 grid]; [simpl in Hlen; lia|].
      apply Forall_cons in Hrows as [-> _]. lia. }
    rewrite Hwidth in Hew, Hlw. rewrite Hheight in Heh, Hlh.
    by exists elem, layer.
  - exfalso. revert Htmx. unfold generate_tmx. destruct Hcomplete as
      ([? ->] & [? ->] & [? ->] & [? ->] & [? ->]). simpl.
    destruct grid as [|row0 grid]; simpl length;
      [|rewrite (proj2 (Z.ltb_lt _ _)) by lia]; done.
  - exfalso. revert Htmx. unfold generate_tmx. destruct Hcomplete as
      ([? ->] & [? ->] & [? ->] & [? ->] & [? ->]). simpl.
    destruct grid as [|row0 grid]; simpl length;
      [|rewrite (proj2 (Z.ltb_lt _ _)) by lia]; done.
Qed.

(** ** The further properties at concrete inputs *)

Lemma possibilities_invariant_witness :
  result (generate N lcg lcg_seed (generator_of one_way_catalog) 3 1 (Some 2) 0%N)
    = Ok (ReturnNone_Contradiction 2 0).
Proof.
  assert (WFCGenerator_init one_way_catalog = Ok (generator_of one_way_catalog)) as Hinit
    by (vm_compute; reflexivity).
  assert (tiles (generator_of one_way_catalog) ≠ []) as Hne by (vm_compute; discriminate).
  destruct (possibilities_invariant lcg lcg_seed one_way_catalog
              (generator_of one_way_catalog) 3 1 (Some 2) 0%N Hinit Hne) as (_ & _ & H & _).
  destruct (H [] 0 2 1 [SetPossibilities 0 1 {[0]}])
    as (b & p2 & lp & l3 & Hcall & _ & _ & Hstop).
  - vm_compute. reflexivity.
  - apply Hstop. specialize (Hcall 0%N).
    apply (f_equal (fun r => match r.1.1 with Ok (b, _) => b | _ => true end)) in Hcall.
    vm_compute in Hcall. congruence.
Defined.

Lemma adjacency_table_entries_witness :
  (is_Some (adjacency_rules (generator_of grass_water) !! 1) ↔
   1 ∈ all_tile_ids (generator_of grass_water)) ∧
  (is_Some (tile_by_id (generator_of grass_water) !! 1) ↔
   1 ∈ all_tile_ids (generator_of grass_water)) ∧
  ∀ e, adjacency_rules (generator_of grass_water) !! 1 = Some e →
    ∃ A, tile_by_id (generator_of grass_water) !! 1 = Some A ∧
         A ∈ tiles (generator_of grass_water) ∧ tile_id A = 1 ∧
         ∀ d t, t ∈ ns_get d e ↔
                ∃ B, B ∈ tiles (generator_of grass_water) ∧ tile_id B = t ∧
                     can_connect A B d = Ok true.
Proof.
  apply (adjacency_table_entries grass_water (generator_of grass_water) 1).
  vm_compute. reflexivity.
Defined.

Lemma tile_by_id_last_witness :
  tile_by_id (generator_of duplicate_ids_catalog) !! 1 =
  Some {| tile_id := 1; tile_name := "water"; tile_edges := uniform_edges "water";
          tile_weight := 1; tile_row := 0; tile_col := 0 |}.
Proof.
  apply (tile_by_id_last duplicate_ids_catalog (generator_of duplicate_ids_catalog)
           [{| tile_id := 1; tile_name := "grass"; tile_edges := uniform_edges "grass";
               tile_weight := 1; tile_row := 0; tile_col := 0 |}]
           {| tile_id := 1; tile_name := "water"; tile_edges := uniform_edges "water";
              tile_weight := 1; tile_row := 0; tile_col := 0 |} []).
  - vm_compute. reflexivity.
  - vm_compute. reflexivity.
  - intros B HB. by apply elem_of_nil in HB.
Defined.

Lemma find_min_entropy_cell_none_witness :
  (∃ v, result (_find_min_entropy_cell N lcg [[ {[0]}; ∅ ]] [[true; false]] 0%N) = Ok v) ∧
  (result (_find_min_entropy_cell N lcg [[ {[0]}; ∅ ]] [[true; false]] 0%N) = Ok None ↔
   (∀ i j b, lookup2 [[true; false]] i j = Some b → b = true) ∨
   (∃ i j, lookup2 [[true; false]] i j = Some false ∧
           lookup2 [[ ({[0]} : gset Z); ∅ ]] i j = Some ∅)).
Proof.
  apply (find_min_entropy_cell_none lcg 2 1 [[ {[0]}; ∅ ]] [[true; false]] 0%N).
  - split; [done|]. by repeat constructor.
  - split; [done|]. by repeat constructor.
Defined.

Lemma find_min_entropy_cell_strict_minimum_witness :
  result (_find_min_entropy_cell N lcg [[ {[0; 1]}; {[1]} ]] [[false; false]] 7%N)
    = Ok (Some (Z.of_nat 0, Z.of_nat 1)).
Proof.
  apply (find_min_entropy_cell_strict_minimum lcg 2 1
           [[ {[0; 1]}; {[1]} ]] [[false; false]] 7%N 0 1 {[1]}).
  - split; [done|]. by repeat constructor.
  - split; [done|]. by repeat constructor.
  - reflexivity.
  - reflexivity.
  - apply (non_empty_inhabited_L 1). by apply elem_of_singleton.
  - intros i' j' s' Hd Hc' Hs'.
    destruct i' as [|i']; [|by destruct i'].
    destruct j' as [|[|j']]; [|done..].
    injection Hs' as <-. vm_compute. lia.
Defined.

Lemma collapse_cell_outcome_witness :
  result (_collapse_cell N lcg (generator_of grass_water) {[0; 7]} 0%N) = Raise KeyError.
Proof.
  apply (collapse_cell_outcome lcg (generator_of grass_water) {[0; 7]} 0%N).
  exists 7. split; [|vm_compute; reflexivity].
  apply elem_of_union. right. by apply elem_of_singleton.
Defined.

Lemma propagate_shrinks_witness :
  match lookup2 [[ ({[0]} : gset Z); {[0; 1]} ]] 0 1 with
  | Some s =>
      ∃ s', lookup2 [[ ({[0]} : gset Z); {[0; 1]} ∩ {[0]} ]] 0 1 = Some s' ∧ s' ⊆ s ∧
            (s ≠ ∅ → s' ≠ ∅) ∧
            (s' ≠ s → lookup2 [[true; false]] 0 1 = Some false ∧
                      Z.of_nat 0 < 1 ∧ Z.of_nat 1 < 2)
  | None => lookup2 [[ ({[0]} : gset Z); {[0; 1]} ∩ {[0]} ]] 0 1 = None
  end.
Proof.
  apply (propagate_shrinks (rng := N) (generator_of grass_water)
           [[ {[0]}; {[0; 1]} ]] [[true; false]] 0 0 2 1 0%N
           [[ {[0]}; {[0; 1]} ∩ {[0]} ]]).
  vm_compute. reflexivity.
Defined.

Lemma propagate_fixpoint_witness :
  arc_consistent (generator_of grass_water) [[true; false]] 2 1
    [[ {[0]}; {[0; 1]} ∩ {[0]} ]] 0 0 ∧
  ∀ ny nx v,
    SetPossibilities ny nx v
      ∈ writes (_propagate N (generator_of grass_water) [[ {[0]}; {[0; 1]} ]]
                  [[true; false]] 0 0 2 1 0%N) →
    arc_consistent (generator_of grass_water) [[true; false]] 2 1
      [[ {[0]}; {[0; 1]} ∩ {[0]} ]] nx ny.
Proof.
  apply (propagate_fixpoint (rng := N) (generator_of grass_water)
           [[ {[0]}; {[0; 1]} ]] [[true; false]] 0 0 2 1 0%N
           [[ {[0]}; {[0; 1]} ∩ {[0]} ]]).
  - lia.
  - lia.
  - vm_compute. reflexivity.
Defined.


Lemma generate_degenerate_sizes_witness :
  generate N lcg lcg_seed (generator_of grass_water) 0 7 (Some 3) 5%N =
    (Ok (ReturnNone_MaxIterations 0), lcg_seed 3, []) ∧
  generate N lcg lcg_seed (generator_of grass_water) (-2) (-3) None 5%N =
    (Ok (ReturnGrid []), 5%N, []).
Proof.
  split.
  - apply (generate_degenerate_sizes lcg lcg_seed (generator_of grass_water) 0 7 (Some 3) 5%N).
    lia.
  - apply (generate_degenerate_sizes lcg lcg_seed (generator_of grass_water) (-2) (-3) None 5%N);
      lia.
Defined.

Lemma grass_water_usable :
  tiles (generator_of grass_water) ≠ [] ∧
  ∀ T, T ∈ tiles (generator_of grass_water) → (0 < tile_weight T)%Q.
Proof.
  split; [done|]. intros T HT.
  assert (tiles (generator_of grass_water) = [grass_tile; water_tile]) as Htiles
    by (vm_compute; reflexivity).
  rewrite Htiles in HT.
  apply elem_of_cons in HT as [->|HT]; [done|].
  apply list_elem_of_singleton in HT as ->. done.
Defined.

Lemma generate_never_raises_witness :
  match result (generate N lcg lcg_seed (generator_of grass_water) 2 1 (Some 1) 0%N) with
  | Ok (ReturnGrid grid) => (0 < 2 ∧ 0 < 1) ∨ (2 < 0 ∧ 1 < 0 ∧ grid = [])
  | Ok (ReturnNone_Contradiction x y) => 0 ≤ x < 2 ∧ 0 ≤ y < 1
  | Ok (ReturnNone_MaxIterations n) => 2 * 1 ≤ 0 ∧ n = 2 * 1 * 100
  | Raise e => e ≠ KeyError ∧ e ≠ IndexError
  | Timeout => False
  end.
Proof.
  apply (generate_never_raises lcg lcg_seed grass_water (generator_of grass_water)
           2 1 (Some 1) 0%N).
  - vm_compute. reflexivity.
  - apply grass_water_usable.
Defined.


Lemma generate_empty_catalog_raises_witness :
  result (generate N lcg lcg_seed (generator_of empty_catalog) 3 2 (Some 4) 0%N)
    = Raise IndexError.
Proof.
  apply (generate_empty_catalog_raises lcg lcg_seed empty_catalog
           (generator_of empty_catalog) 3 2 (Some 4) 0%N).
  - vm_compute. reflexivity.
  - vm_compute. reflexivity.
  - lia.
  - lia.
Defined.

Lemma generate_zero_weights_raise_witness :
  result (generate N lcg lcg_seed (generator_of all_zero_catalog) 3 2 None 9%N)
    = Raise ValueError.
Proof.
  apply (generate_zero_weights_raise lcg lcg_seed all_zero_catalog
           (generator_of all_zero_catalog) 3 2 None 9%N).
  - vm_compute. reflexivity.
  - vm_compute. discriminate.
  - intros T HT.
    assert (tiles (generator_of all_zero_catalog) =
            [{| tile_id := 0; tile_name := "grass"; tile_edges := uniform_edges "grass";
                tile_weight := 0; tile_row := 0; tile_col := 0 |};
             {| tile_id := 1; tile_name := "water"; tile_edges := uniform_edges "water";
                tile_weight := 0; tile_row := 0; tile_col := 0 |}]) as Htiles
      by (vm_compute; reflexivity).
    rewrite Htiles in HT.
    apply elem_of_cons in HT as [->|HT]; [done|].
    apply list_elem_of_singleton in HT as ->. done.
  - lia.
  - lia.
Defined.

Lemma generate_contradiction_sound_witness :
  ¬ agrees [[0; 1]]
      (writes (generate N lcg lcg_seed (generator_of one_way_catalog) 2 1 (Some 5) 0%N)).
Proof.
  apply (generate_contradiction_sound lcg lcg_seed one_way_catalog
           (generator_of one_way_catalog) 2 1 (Some 5) 0%N 1 0 [[0; 1]]).
  - vm_compute. reflexivity.
  - vm_compute. reflexivity.
  - split; [done|]. by repeat constructor.
  - intros i j a Ha.
    destruct i as [|i]; [|by destruct i].
    destruct j as [|[|j]]; [| |done]; injection Ha as <-;
      apply (bool_decide_unpack _); vm_compute; reflexivity.
  - intros d i j i' j' a b Hadj Ha Hb.
    destruct i as [|i]; [|by destruct i]. destruct i' as [|i']; [|by destruct i'].
    destruct d; simpl in Hadj; try lia.
    + destruct Hadj as [_ ->]. destruct j as [|[|j]]; [| |done].
      * vm_compute in Ha; vm_compute in Hb. injection Ha as <-. injection Hb as <-.
        eexists. split; [vm_compute; reflexivity|].
        apply (bool_decide_unpack _). vm_compute. reflexivity.
      * done.
    + destruct Hadj as [_ ->]. destruct j' as [|[|j']]; [| |done].
      * vm_compute in Ha; vm_compute in Hb. injection Ha as <-. injection Hb as <-.
        eexists. split; [vm_compute; reflexivity|].
        apply (bool_decide_unpack _). vm_compute. reflexivity.
      * done.
Defined.

Lemma generate_tmx_injective_witness : [[3; 0]; [1; 2]] = [[3; 0]; [1; 2]].
Proof.
  apply (generate_tmx_injective {| tmx_tileset_info := starter_tileset |}
           [[3; 0]; [1; 2]] [[3; 0]; [1; 2]]
           (tmx_of {| tmx_tileset_info := starter_tileset |} [[3; 0]; [1; 2]])).
  - by repeat constructor.
  - by repeat constructor.
  - vm_compute. reflexivity.
  - vm_compute. reflexivity.
Defined.

Lemma generate_tmx_of_generated_grid_witness :
  ∃ elem layer,
    generate_tmx {| tmx_tileset_info := starter_tileset |} [[0; 0]] = Ok elem ∧
    elem_get elem "width" = Some (str 2) ∧
    elem_get elem "height" = Some (str 1) ∧
    elem_find elem "layer" = Some layer ∧
    elem_get layer "width" = Some (str 2) ∧
    elem_get layer "height" = Some (str 1).
Proof.
  apply (generate_tmx_of_generated_grid lcg lcg_seed grass_water (generator_of grass_water)
           {| tmx_tileset_info := starter_tileset |} 2 1 (Some 1) 0%N [[0; 0]]).
  - vm_compute. reflexivity.
  - lia.
  - lia.
  - vm_compute. reflexivity.
  - unfold tileset_complete. simpl. split_and!; by eexists.
Defined.

Example csv_text_of_grid :
  csv_text 1 [[3; 0]; [1; 2]] = newline +:+ "4,1," +:+ newline +:+ "2,3" +:+ newline.
Proof. vm_compute. reflexivity. Qed.
